(** * Responsive code reflow: a shallow embedding of [static/responsive-code.js]

    The script rescales the indentation of highlighted code blocks and breaks
    overflowing lines at language-aware points.  Its functions are embedded
    below under their own names.  The browser stays outside: its parser and
    [measureColumns] are parameters, the resize timer ([onResize], [init])
    is not modelled.

    Conventions of the embedding:
    - a JS string is the list of its code units, restricted to 8-bit units
      ([str := list ascii]); string literals are written [lit "..."];
    - a JS number that can be negative or compared with a negative sentinel
      (columns, offsets, depth, [-1] results) is a [Z]; loop counters that
      only ever index a string are [nat];
    - [x >> 1] is the 32-bit signed shift, with the wrap-around written out;
    - arrays filled by [push] become lists built in the same order;
    - the indent factor, a double in the script, is an exact rational. *)

From Stdlib Require Import String Ascii ZArith List Bool Lia QArith Qround.
Import ListNotations.
Open Scope Z_scope.

(** ** JavaScript strings *)

Definition str := list ascii.

Definition lit (s : string) : str := list_ascii_of_string s.

Definition len (t : str) : Z := Z.of_nat (length t).

Definition str_eqb (a b : str) : bool :=
  if list_eq_dec ascii_dec a b then true else false.

(** [t[i]]: [None] stands for [undefined] (index out of range). *)
Definition charAt (t : str) (i : Z) : option ascii :=
  if i <? 0 then None else nth_error t (Z.to_nat i).

(** [t[i] === c] and [t[i] !== c]. *)
Definition charIs (t : str) (i : Z) (c : ascii) : bool :=
  match charAt t i with
  | Some x => Ascii.eqb x c
  | None => false
  end.

(** Relative index of [String.prototype.slice]: negative counts from the end. *)
Definition sliceIndex (t : str) (k : Z) : Z :=
  if k <? 0 then Z.max (len t + k) 0 else Z.min k (len t).

(** [t.slice(a, b)] *)
Definition slice (t : str) (a b : Z) : str :=
  let from := sliceIndex t a in
  let to := sliceIndex t b in
  firstn (Z.to_nat (to - from)) (skipn (Z.to_nat from) t).

(** [t.slice(a)] *)
Definition sliceFrom (t : str) (a : Z) : str :=
  skipn (Z.to_nat (sliceIndex t a)) t.

Definition space : ascii := " "%char.
Definition backslash : ascii := "\"%char.
Definition dquote : ascii := Ascii.ascii_of_nat 34.
Definition squote : ascii := "'"%char.
Definition comma : ascii := ","%char.
Definition newline : ascii := Ascii.ascii_of_nat 10.

Definition isSpace (c : ascii) : bool := Ascii.eqb c space.

(** The class [\s] of a JS regular expression, among 8-bit code units:
    TAB, LF, VT, FF, CR, SPACE and NBSP. *)
Definition isWhite (c : ascii) : bool :=
  let n := nat_of_ascii c in
  (((9 <=? n) && (n <=? 13)) || (n =? 32) || (n =? 160))%nat.

(** [t.search(/\S/)]: index of the first non-white character, [-1] if none. *)
Fixpoint searchFrom (i : Z) (t : str) : Z :=
  match t with
  | [] => -1
  | c :: rest => if isWhite c then searchFrom (i + 1) rest else i
  end.

Definition searchNonWhite (t : str) : Z := searchFrom 0 t.

(** [" ".repeat(n)].  For a column count below 2^31 the script only calls
    it with [n >= 0] (see [tryBreak_ci_nonneg] below); a negative [n] would
    throw. *)
Definition spaces (n : Z) : str := repeat space (Z.to_nat n).

(** [t.startsWith(p)] at the head of a list. *)
Fixpoint prefixb (p t : str) : bool :=
  match p, t with
  | [], _ => true
  | _ :: _, [] => false
  | a :: p', b :: t' => Ascii.eqb a b && prefixb p' t'
  end.

(** [t.indexOf(p)] *)
Fixpoint indexOfFrom (i : Z) (p t : str) : Z :=
  if prefixb p t then i
  else match t with
       | [] => -1
       | _ :: rest => indexOfFrom (i + 1) p rest
       end.

Definition indexOf (t p : str) : Z := indexOfFrom 0 p t.

(** [t.replace(/c/g, rep)] for a single character [c]. *)
Definition replaceAll (c : ascii) (rep : str) (t : str) : str :=
  flat_map (fun x => if Ascii.eqb x c then rep else [x]) t.

(** [t.toLowerCase()] on 8-bit code units: A-Z and the Latin-1 capitals. *)
Definition lowerChar (c : ascii) : ascii :=
  let n := nat_of_ascii c in
  if (((65 <=? n) && (n <=? 90))
      || ((192 <=? n) && (n <=? 222) && negb (n =? 215)))%nat
  then ascii_of_nat (n + 32) else c.

Definition toLowerCase (t : str) : str := map lowerChar t.

(** [a.join(sep)] *)
Fixpoint join (sep : str) (parts : list str) : str :=
  match parts with
  | [] => []
  | [p] => p
  | p :: rest => p ++ sep ++ join sep rest
  end.

(** [t.split("\n")]: never empty. *)
Fixpoint splitLines (t : str) : list str :=
  match t with
  | [] => [[]]
  | c :: rest =>
      if Ascii.eqb c newline then [] :: splitLines rest
      else match splitLines rest with
           | [] => [[c]]
           | p :: ps => (c :: p) :: ps
           end
  end.

(** ** 32-bit integer operators *)

Definition toInt32 (z : Z) : Z := (z + 2 ^ 31) mod 2 ^ 32 - 2 ^ 31.

(** [z >> 1] *)
Definition sar1 (z : Z) : Z := Z.shiftr (toInt32 z) 1.

(** ** Tuning constants *)

Definition DEBOUNCE_MS : Z := 150.
Definition MAX_LINES : Z := 500.
Definition MAX_SPLITS : nat := 10.
Definition MAX_COLS : Z := 200.
Definition FALLBACK_COLS : Z := 80.
Definition DEFAULT_INDENT_STEP : Z := 4.
Definition CONT_INDENT : Z := 4.
Definition MIN_COMPRESSED_STEP : Z := 2.
Definition COMPRESS_THRESHOLD : Z := 55.
Definition COMPRESS_AGGRESSIVE : Z := 35.
Definition BACKSLASH_RESERVE : Z := 2.
Definition PAREN_OFFSET : Z := 1.
Definition LD_COLON_OFFSET : Z := 2.

(** ** Objects used as tables

    [SKIP_LANGS[lang]] and its siblings are property reads on object
    literals, so a key inherited from [Object.prototype] is found as well and
    is truthy. *)

Definition objectPrototypeKeys : list str :=
  map lit ["constructor"; "hasOwnProperty"; "isPrototypeOf";
           "propertyIsEnumerable"; "toLocaleString"; "toString"; "valueOf";
           "__proto__"; "__defineGetter__"; "__defineSetter__";
           "__lookupGetter__"; "__lookupSetter__"]%string.

Definition hasKey (own : list str) (k : str) : bool :=
  existsb (str_eqb k) (own ++ objectPrototypeKeys).

Definition SKIP_LANGS : list str := map lit ["asm"; "nasm"; "gas"]%string.
Definition SPACE_BREAK_LANGS : list str := map lit ["bash"; "dockerfile"; "nix"]%string.
Definition BACKSLASH_LANGS : list str := map lit ["bash"; "dockerfile"]%string.

(** [OPENERS[c]] and [CLOSERS[c]] for a one-character key. *)
Definition OPENERS (c : ascii) : option ascii :=
  if Ascii.eqb c "("%char then Some ")"%char
  else if Ascii.eqb c "["%char then Some "]"%char
  else if Ascii.eqb c "{"%char then Some "}"%char
  else None.

Definition CLOSERS (c : ascii) : option ascii :=
  if Ascii.eqb c ")"%char then Some "("%char
  else if Ascii.eqb c "]"%char then Some "["%char
  else if Ascii.eqb c "}"%char then Some "{"%char
  else None.

Definition isOpener (c : ascii) : bool :=
  match OPENERS c with Some _ => true | None => false end.

Definition isCloser (c : ascii) : bool :=
  match CLOSERS c with Some _ => true | None => false end.

(** ** Break rules *)

Inductive Mode := After | Before.

Record Rule := mkRule { pat : str; mode : Mode; sep : bool }.

Definition rule (p : string) (m : Mode) (s : bool) : Rule := mkRule (lit p) m s.

Definition c_like : list Rule :=
  [ rule "{" After false;
    rule "}" Before false;
    rule " = " After false;
    rule " || " Before false;
    rule " && " Before false ].

Definition COMMON_RULES : list Rule :=
  [ rule ", " After true;
    rule "; " After true;
    rule "(" After false;
    rule ")" Before false ].

Definition RULES_c : list Rule :=
  c_like ++ [ rule " << " Before false;
              rule " >> " Before false;
              rule "->" Before false ] ++ COMMON_RULES.

Definition RULES_cpp : list Rule :=
  c_like ++ [ rule " << " Before false;
              rule " >> " Before false;
              rule "->" Before false;
              rule "::" Before false ] ++ COMMON_RULES.

Definition RULES_h : list Rule := c_like ++ COMMON_RULES.

Definition RULES_cmake : list Rule :=
  [ rule " -" Before true;
    mkRule [space; dquote] Before true ] ++ COMMON_RULES.

Definition RULES_ld : list Rule :=
  [ rule ", " Before true;
    rule ": " After false;
    rule " > " Before false ] ++ COMMON_RULES.

(** [RULES[lang] || COMMON_RULES].  It is only read for a [lang] that is not
    a key of [SPACE_BREAK_LANGS], inherited keys included, so no inherited
    property is ever returned here. *)
Definition RULES (lang : str) : list Rule :=
  if str_eqb lang (lit "c") then RULES_c
  else if str_eqb lang (lit "cpp") then RULES_cpp
  else if str_eqb lang (lit "h") then RULES_h
  else if str_eqb lang (lit "cmake") then RULES_cmake
  else if str_eqb lang (lit "ld") then RULES_ld
  else COMMON_RULES.

Definition SPACE_RULES : list Rule := [ rule " " Before true ].

(** ** Segment helpers

    A segment is plain text plus its wrapping tag; a line is an array of
    segments. *)

Record Segment := mkSeg { text : str; open : str; close : str }.

Definition Line := list Segment.

(** A non-empty string is truthy. *)
Definition truthy (t : str) : bool :=
  match t with [] => false | _ :: _ => true end.

Definition plain (line : Line) : str := concat (map text line).

Definition leadingSpaces (line : Line) : Z :=
  Z.max 0 (searchNonWhite (plain line)).

Definition escapeHTML (t : str) : str :=
  replaceAll ">"%char (lit "&gt;")
    (replaceAll "<"%char (lit "&lt;")
       (replaceAll "&"%char (lit "&amp;") t)).

Definition segHTML (seg : Segment) : str :=
  let e := escapeHTML (text seg) in
  if truthy (open seg) then open seg ++ e ++ close seg else e.

Definition toHTML (line : Line) : str := concat (map segHTML line).

(** [while (j < t.length && t[j] === " ") j++] *)
Fixpoint countSpaces (t : str) : nat :=
  match t with
  | c :: rest => if isSpace c then S (countSpaces rest) else O
  | [] => O
  end.

Fixpoint stripLeading_from (stripping : bool) (line : Line) : Line :=
  match line with
  | [] => []
  | seg :: rest =>
      if stripping then
        let t := text seg in
        let j := Z.of_nat (countSpaces t) in
        if j <? len t
        then mkSeg (sliceFrom t j) (open seg) (close seg)
               :: stripLeading_from false rest
        else stripLeading_from true rest
      else seg :: stripLeading_from false rest
  end.

Definition stripLeading (line : Line) : Line := stripLeading_from true line.

(** [while (cut < t.length && cut < rem && t[cut] === " ") cut++] *)
Fixpoint cutSpaces (t : str) (rem : nat) : nat :=
  match t, rem with
  | c :: rest, S rem' => if isSpace c then S (cutSpaces rest rem') else O
  | _, _ => O
  end.

Fixpoint removeNSpaces_from (rem : Z) (line : Line) : Line :=
  match line with
  | [] => []
  | seg :: rest =>
      if 0 <? rem then
        let t := text seg in
        let cut := Z.of_nat (cutSpaces t (Z.to_nat rem)) in
        let rest_t := sliceFrom t cut in
        let tail := removeNSpaces_from (rem - cut) rest in
        if (0 <? len rest_t) || truthy (open seg)
        then mkSeg rest_t (open seg) (close seg) :: tail
        else tail
      else seg :: removeNSpaces_from rem rest
  end.

Definition removeNSpaces (line : Line) (n : Z) : Line :=
  if n <=? 0 then line else removeNSpaces_from n line.

(** The loop of [splitAt], from the segment at hand on, with its variables
    [count] and [done]; the pair is ([before], [after]) as pushed from here
    on. *)
Fixpoint splitAt_from (pos count : Z) (done : bool) (line : Line)
  : Line * Line :=
  match line with
  | [] => ([], [])
  | seg :: rest =>
      if done then
        let '(b, a) := splitAt_from pos count true rest in (b, seg :: a)
      else if count + len (text seg) <=? pos then
        let count' := count + len (text seg) in
        let '(b, a) := splitAt_from pos count' (count' =? pos) rest in
        (seg :: b, a)
      else
        let at_ := pos - count in
        let '(b, a) := splitAt_from pos count true rest in
        (mkSeg (slice (text seg) 0 at_) (open seg) (close seg) :: b,
         (if at_ <? len (text seg)
          then [mkSeg (sliceFrom (text seg) at_) (open seg) (close seg)]
          else []) ++ a)
  end.

Definition splitAt (line : Line) (pos : Z) : Line * Line :=
  splitAt_from pos 0 false line.

Definition prependPad (line : Line) (n : Z) : Line :=
  mkSeg (spaces n) [] [] :: stripLeading line.

(** ** Parsing

    The children of a [<code>] element: text nodes, [<span>] elements (with
    their [outerHTML]) and anything else. *)

Inductive Node :=
| TextNode (textContent : str)
| SpanNode (outerHTML textContent : str)
| OtherNode.

(** The inner loop of [extractLines] over [parts]; [first] is [p === 0].
    The array [lines] is kept as its finished lines and its last line. *)
Fixpoint pushParts (parts : list str) (first : bool) (opn cls : str)
    (finished : list Line) (cur : Line) : list Line * Line :=
  match parts with
  | [] => (finished, cur)
  | p :: rest =>
      let '(finished1, cur1) :=
        if first then (finished, cur) else (finished ++ [cur], []) in
      let cur2 :=
        if (0 <? len p) || (first && truthy opn)
        then cur1 ++ [mkSeg p opn cls] else cur1 in
      pushParts rest false opn cls finished1 cur2
  end.

Definition extractNode (acc : list Line * Line) (node : Node)
  : list Line * Line :=
  let '(finished, cur) := acc in
  match node with
  | TextNode t => pushParts (splitLines t) true [] [] finished cur
  | SpanNode html t =>
      let opn := slice html 0 (indexOf html (lit ">") + 1) in
      pushParts (splitLines t) true opn (lit "</span>") finished cur
  | OtherNode => acc
  end.

Definition extractLines (childNodes : list Node) : list Line :=
  let '(finished, cur) := fold_left extractNode childNodes ([], []) in
  finished ++ [cur].

(** ** Analysis *)

(** [if (sp > 0 && (!step || sp < step)) step = sp] *)
Definition minIndent (step : Z) (line : Line) : Z :=
  let sp := leadingSpaces line in
  if (0 <? sp) && ((step =? 0) || (sp <? step)) then sp else step.

Definition detectIndentStep (lines : list Line) : Z :=
  let step := fold_left minIndent lines 0 in
  if step =? 0 then DEFAULT_INDENT_STEP else step.

Definition computeCompressedStep (step cols : Z) : Z :=
  if (COMPRESS_THRESHOLD <=? cols) || (step <=? MIN_COMPRESSED_STEP) then step
  else if cols <? COMPRESS_AGGRESSIVE
       then Z.max (sar1 step) MIN_COMPRESSED_STEP
       else Z.max (step - 1) MIN_COMPRESSED_STEP.

(** ** Indent compression *)

(** [Math.round]: the nearest integer, halves rounded up. *)
Definition jsRound (q : Q) : Z := Qfloor (q + (1 # 2)).

Record IndentSt := mkIndentSt {
  prevOrig : option str;
  prevSp : Z;
  prevRemoved : Z;
  prevAligned : bool
}.

Definition hasPrevContent (st : IndentSt) (sp : Z) : bool :=
  match prevOrig st with
  | None => false
  | Some po => (sp <? len po) && negb (charIs po sp space)
  end.

Definition isAligned (step : Z) (st : IndentSt) (sp : Z) : bool :=
  hasPrevContent st sp
  && (((prevSp st <? sp) && (step <? sp - prevSp st))
      || (prevAligned st && (prevSp st <=? sp))).

(** One turn of the second loop of [applyIndentFactor]: the new [lines[i]],
    whether it changed, and the loop variables for the next turn. *)
Definition indentLine (step : Z) (factor : Q) (st : IndentSt) (line : Line)
  : Line * bool * IndentSt :=
  let orig := plain line in
  let sp := Z.max 0 (searchNonWhite orig) in
  if 0 <? sp then
    let aligned := isAligned step st sp in
    let remove :=
      if aligned then prevRemoved st
      else sp - jsRound (inject_Z sp * factor) in
    (if 0 <? remove then removeNSpaces line remove else line,
     0 <? remove,
     mkIndentSt (Some orig) sp remove aligned)
  else (line, false, mkIndentSt (Some orig) sp 0 false).

Fixpoint indentLoop (step : Z) (factor : Q) (st : IndentSt)
    (lines : list Line) : list Line * bool :=
  match lines with
  | [] => ([], false)
  | line :: rest =>
      let '(line', ch, st') := indentLine step factor st line in
      let '(rest', ch') := indentLoop step factor st' rest in
      (line' :: rest', ch || ch')
  end.

Definition initIndentSt : IndentSt := mkIndentSt None 0 0 false.

(** The array is updated in place: the result is its new content and the
    returned flag [changed]. *)
Definition applyIndentFactor (lines : list Line) (factor : Q)
  : list Line * bool :=
  let step := fold_left minIndent lines 0 in
  let step := if step =? 0 then DEFAULT_INDENT_STEP else step in
  indentLoop step factor initIndentSt lines.

(** ** Line breaking *)

(** The loop of [singleArgContainer] over [text[i]], [i >= openPos]. *)
Fixpoint singleArg_loop (opn cls : ascii) (depth : Z) (t : str) : bool :=
  match t with
  | [] => true
  | c :: rest =>
      if Ascii.eqb c opn then singleArg_loop opn cls (depth + 1) rest
      else if Ascii.eqb c cls then
        if depth - 1 =? 0 then true
        else singleArg_loop opn cls (depth - 1) rest
      else if Ascii.eqb c comma && (depth =? 1) then false
      else singleArg_loop opn cls depth rest
  end.

Definition singleArgContainer (t : str) (openPos : Z) : bool :=
  match charAt t openPos with
  | None => false
  | Some opn =>
      match OPENERS opn with
      | None => false
      | Some cls => singleArg_loop opn cls 0 (skipn (Z.to_nat openPos) t)
      end
  end.

(** The loop of [findMatchingOpen], downwards; [n] is [i + 1]. *)
Fixpoint findOpen_loop (cls opn : ascii) (t : str) (depth : Z) (n : nat) : Z :=
  match n with
  | O => -1
  | S i =>
      match nth_error t i with
      | None => findOpen_loop cls opn t depth i
      | Some c =>
          if Ascii.eqb c cls then findOpen_loop cls opn t (depth + 1) i
          else if Ascii.eqb c opn then
            if depth - 1 =? 0 then Z.of_nat i
            else findOpen_loop cls opn t (depth - 1) i
          else findOpen_loop cls opn t depth i
      end
  end.

Definition findMatchingOpen (t : str) (closePos : Z) : Z :=
  match charAt t closePos with
  | None => -1
  | Some cls =>
      match CLOSERS cls with
      | None => -1
      | Some opn => findOpen_loop cls opn t 0 (S (Z.to_nat closePos))
      end
  end.

(** ** Chunk scanner *)

(** The bracket state [{ depth, col }]. *)
Record PS := mkPS { depth : Z; col : Z }.

Record ScanResult := mkResult { bp : Z; ps : PS; hasArgSep : bool }.

Record ScanSt := mkScan {
  inStr : bool;
  strChar : ascii;
  cur : PS;                 (* depth, openCol *)
  best : Z;
  bestPs : option PS;
  lastSepPos : Z
}.

(** [text[i + k] === pat[k]] for the characters of [pat] from [k] on. *)
Fixpoint patMatches (t : str) (i k : Z) (p : str) : bool :=
  match p with
  | [] => true
  | x :: p' => charIs t (i + k) x && patMatches t i (k + 1) p'
  end.

(** [c === pat[0]] and the rest of the pattern; an empty pattern has
    [pat[0]] undefined and never matches. *)
Definition ruleMatches (t : str) (i : Z) (r : Rule) : bool :=
  match pat r with
  | [] => false
  | _ :: _ => patMatches t i 0 (pat r)
  end.

(** [plen === 1 && TABLE[pat]] *)
Definition singleIn (table : ascii -> bool) (p : str) : bool :=
  match p with
  | [x] => table x
  | _ => false
  end.

(** The update of [depth] and [openCol] at the character [c] of index
    [i]. *)
Definition bracketStep (s : PS) (i : Z) (c : ascii) : PS :=
  if isOpener c then mkPS (depth s + 1) i
  else if isCloser c then
    if depth s - 1 <=? 0 then mkPS 0 (-1) else mkPS (depth s - 1) (col s)
  else s.

(** One turn of the rule loop at index [i]; [prev] and [now] are the bracket
    state before and after the update at [i]; the accumulator is
    ([best], [bestPs], [lastSepPos]). *)
Definition ruleStep (t : str) (floor maxCols i : Z) (prev now : PS)
    (acc : Z * option PS * Z) (r : Rule) : Z * option PS * Z :=
  let '(best, bestPs, lastSep) := acc in
  if negb (ruleMatches t i r) then acc else
  let plen := len (pat r) in
  let bp := match mode r with After => i + plen | Before => i end in
  if (bp <=? floor) || (len t <=? bp) then acc else
  if (if singleIn isOpener (pat r) then singleArgContainer t i
      else if singleIn isCloser (pat r) then
        let op := findMatchingOpen t i in
        (0 <=? op) && singleArgContainer t op
      else false)
  then acc else
  let lastSep' := if sep r && (lastSep <? bp) then bp else lastSep in
  if (bp <=? maxCols) && (best <? bp) then
    (bp,
     Some (match mode r with
           | Before => if singleIn isCloser (pat r) then prev else now
           | After => now
           end),
     lastSep')
  else (best, bestPs, lastSep').

(** One turn of the character loop. *)
Definition scanStep (t : str) (rules : list Rule) (floor maxCols : Z)
    (st : ScanSt) (i : Z) : ScanSt :=
  match charAt t i with
  | None => st
  | Some c =>
      if inStr st then
        if Ascii.eqb c (strChar st)
           && ((i =? 0) || negb (charIs t (i - 1) backslash))
        then mkScan false (strChar st) (cur st) (best st) (bestPs st)
               (lastSepPos st)
        else st
      else if Ascii.eqb c dquote || Ascii.eqb c squote then
        mkScan true c (cur st) (best st) (bestPs st) (lastSepPos st)
      else
        let prev := cur st in
        let now := bracketStep prev i c in
        let '(b, bps, ls) :=
          fold_left (ruleStep t floor maxCols i prev now) rules
            (best st, bestPs st, lastSepPos st) in
        mkScan false (strChar st) now b bps ls
  end.

(** The indices [0 .. n-1]. *)
Definition indices (n : nat) : list Z := map Z.of_nat (seq 0 n).

Definition rulesFor (lang : str) : list Rule :=
  if hasKey SPACE_BREAK_LANGS lang then SPACE_RULES else RULES lang.

(** The variables of [scanChunk] before its loop; [strChar], the empty
    string there, is not read before it is set. *)
Definition initScan (initPs : PS) : ScanSt :=
  mkScan false "000"%char initPs (-1) None (-1).

(** The state of the scanner after the characters of index below [n]. *)
Definition scanUpTo (t : str) (rules : list Rule) (floor maxCols : Z)
    (initPs : PS) (n : nat) : ScanSt :=
  fold_left (scanStep t rules floor maxCols) (indices n) (initScan initPs).

(** [null] is [None].  [bestPs] is set whenever [best] is (see
    [scan_best_ps]), so the last case returns nothing the script could. *)
Definition scanChunk (t : str) (lang : str) (floor maxCols : Z) (initPs : PS)
  : option ScanResult :=
  let st := scanUpTo t (rulesFor lang) floor maxCols initPs (length t) in
  if best st <? 0 then None
  else match bestPs st with
       | Some p => Some (mkResult (best st) p (best st <=? lastSepPos st))
       | None => None
       end.

Definition defaultContIndent (lang : str) (t : str) (indent : Z) : Z :=
  if str_eqb lang (lit "ld") then
    let colon := indexOf t (lit ": ") in
    if 0 <=? colon then colon + LD_COLON_OFFSET else indent + CONT_INDENT
  else indent + CONT_INDENT.

Definition continuationIndent (s : PS) (prevDepth indent fallback maxCols : Z)
  : Z :=
  let ci :=
    if (0 <? depth s) && (0 <=? col s) then col s + PAREN_OFFSET
    else if (0 <? prevDepth) && (depth s =? 0) then indent
    else fallback in
  Z.min ci (sar1 maxCols).

(** What one accepted break of [breakLine] computes. *)
Record BreakStep := mkStep {
  before : Line;      (* halves[0] *)
  after : Line;       (* halves[1] *)
  stepPs : PS;        (* result.ps *)
  stepSep : bool;     (* result.hasArgSep *)
  stepCi : Z;         (* ci, as passed to prependPad *)
  stepRem : Line      (* the new rem *)
}.

(** The body of the [while] loop of [breakLine] up to the new [rem];
    [None] when the loop is left by one of its first two [break]s. *)
Definition tryBreak (cols budget : Z) (lang : str) (indent fallbackCI : Z)
    (s : PS) (rem : Line) : option BreakStep :=
  let rt := plain rem in
  if len rt <=? budget then None else
  match scanChunk rt lang (Z.max 0 (searchNonWhite rt)) budget s with
  | None => None
  | Some result =>
      if len rt - 1 <=? bp result then None else
      let halves := splitAt rem (bp result) in
      let prevDepth := depth s in
      let s' := ps result in
      let ci := continuationIndent s' prevDepth indent fallbackCI cols in
      let ci :=
        if (0 <? depth s') && (fallbackCI <? ci) && negb (hasArgSep result)
        then Z.min fallbackCI (sar1 cols) else ci in
      Some (mkStep (fst halves) (snd halves) s' (hasArgSep result) ci
              (prependPad (snd halves) ci))
  end.

Definition marker (addBackslash : bool) : str :=
  if addBackslash then [space; backslash] else [].

(** The [while (splits-- > 0)] loop: the pieces pushed and the last [rem]. *)
Fixpoint breakLoop (splits : nat) (cols budget : Z) (lang : str)
    (addBackslash : bool) (indent fallbackCI : Z) (s : PS) (rem : Line)
    (prevLen : Z) : list str * Line :=
  match splits with
  | O => ([], rem)
  | S splits' =>
      match tryBreak cols budget lang indent fallbackCI s rem with
      | None => ([], rem)
      | Some st =>
          let piece := toHTML (before st) ++ marker addBackslash in
          let newLen := len (plain (stepRem st)) in
          if prevLen <=? newLen then ([piece], stepRem st)
          else
            let '(pieces, final) :=
              breakLoop splits' cols budget lang addBackslash indent
                fallbackCI (stepPs st) (stepRem st) newLen in
            (piece :: pieces, final)
      end
  end.

Definition budgetFor (cols : Z) (lang : str) : Z :=
  if hasKey BACKSLASH_LANGS lang then cols - BACKSLASH_RESERVE else cols.

(** [null] is [None]. *)
Definition breakLine (line : Line) (cols : Z) (lang : str) : option str :=
  let t := plain line in
  let addBackslash := hasKey BACKSLASH_LANGS lang in
  let budget := budgetFor cols lang in
  if len t <=? budget then None else
  let indent := leadingSpaces line in
  let fallbackCI := defaultContIndent lang t indent in
  let '(pieces, rem) :=
    breakLoop MAX_SPLITS cols budget lang addBackslash indent fallbackCI
      (mkPS 0 (-1)) line (len t) in
  match pieces with
  | [] => None
  | _ :: _ => Some (join [newline] (pieces ++ [toHTML rem]))
  end.

(** The same loop, keeping the accepted breaks themselves instead of their
    rendering ([breakLine_trace] relates the two). *)
Fixpoint breakTrace (splits : nat) (cols budget : Z) (lang : str)
    (indent fallbackCI : Z) (s : PS) (rem : Line) (prevLen : Z)
  : list BreakStep * Line :=
  match splits with
  | O => ([], rem)
  | S splits' =>
      match tryBreak cols budget lang indent fallbackCI s rem with
      | None => ([], rem)
      | Some st =>
          let newLen := len (plain (stepRem st)) in
          if prevLen <=? newLen then ([st], stepRem st)
          else
            let '(steps, final) :=
              breakTrace splits' cols budget lang indent fallbackCI
                (stepPs st) (stepRem st) newLen in
            (st :: steps, final)
      end
  end.

(** The accepted breaks of [breakLine] and its last [rem]; [None] where
    [breakLine] returns before its loop. *)
Definition breakSteps (line : Line) (cols : Z) (lang : str)
  : option (list BreakStep * Line) :=
  let t := plain line in
  if len t <=? budgetFor cols lang then None else
  Some (breakTrace MAX_SPLITS cols (budgetFor cols lang) lang
          (leadingSpaces line) (defaultContIndent lang t (leadingSpaces line))
          (mkPS 0 (-1)) line (len t)).

(** ** Block formatter

    A [<pre>] element is modelled by what the script reads and writes: its
    [data-lang] attribute and its first [<code>] descendant, itself given by
    its markup ([innerHTML]) and its [data-original] attribute.  The child
    nodes of the [<code>] element are those the browser builds from its
    markup; the browser's parser and its column measurement are parameters
    of the model. *)

Record CodeEl := mkCode { innerHTML : str; dataOriginal : option str }.

Record Pre := mkPre { dataLang : option str; code : option CodeEl }.

(** [(pre.getAttribute("data-lang") || "").toLowerCase()] *)
Definition langOf (pre : Pre) : str :=
  toLowerCase (match dataLang pre with Some l => l | None => [] end).

(** The loop of [formatBlock] over the lines: [output] and whether any line
    was broken. *)
Fixpoint breakAll (lines : list Line) (cols : Z) (lang : str)
  : list str * bool :=
  match lines with
  | [] => ([], false)
  | line :: rest =>
      let '(output, broke) := breakAll rest cols lang in
      match breakLine line cols lang with
      | Some broken => (broken :: output, true)
      | None => (toHTML line :: output, broke)
      end
  end.

(** [factor < 1] *)
Definition belowOne (factor : Q) : bool := negb (Qle_bool 1 factor).

Definition restore (pre : Pre) : Pre :=
  match code pre with
  | Some c =>
      match dataOriginal c with
      | Some o => mkPre (dataLang pre) (Some (mkCode o (Some o)))
      | None => pre
      end
  | None => pre
  end.

(** [restoreAll] over the [<pre>] elements of the page. *)
Definition restoreAll (page : list Pre) : list Pre := map restore page.

Definition len_lines (lines : list Line) : Z := Z.of_nat (length lines).

Section Browser.

Variable parseHTML : str -> list Node.
Variable measureColumns : Pre -> Z.

(** The new markup of a block that is neither skipped nor too long, and
    the flag [changed]. *)
Definition reflow (markup : str) (lang : str) (cols : Z) (factor : Q)
  : option (str * bool) :=
  let lines := extractLines (parseHTML markup) in
  if MAX_LINES <? len_lines lines then None else
  let '(lines, changed) :=
    if belowOne factor then applyIndentFactor lines factor
    else (lines, false) in
  let '(output, broke) := breakAll lines cols lang in
  Some (join [newline] output, changed || broke).

Definition formatBlock (pre : Pre) (cols : Z) (factor : Q) : Pre :=
  match code pre with
  | None => pre
  | Some codeEl =>
      let lang := langOf pre in
      if hasKey SKIP_LANGS lang then pre else
      match reflow (innerHTML codeEl) lang cols factor with
      | Some (output, true) =>
          mkPre (dataLang pre)
            (Some (mkCode output
                     (match dataOriginal codeEl with
                      | Some o => Some o
                      | None => Some (innerHTML codeEl)
                      end)))
      | _ => pre
      end
  end.

(** The loop of [formatAll] that computes the shared factor. *)
Fixpoint pageFactor (pres : list Pre) (cols : Z) : Q :=
  match pres with
  | [] => 1
  | pre :: rest =>
      if hasKey SKIP_LANGS (langOf pre) then pageFactor rest cols else
      match code pre with
      | None => pageFactor rest cols
      | Some code0 =>
          let lines0 := extractLines (parseHTML (innerHTML code0)) in
          if MAX_LINES <? len_lines lines0 then pageFactor rest cols else
          let step := detectIndentStep lines0 in
          inject_Z (computeCompressedStep step cols) / inject_Z step
      end
  end.

(** What a pass computes for the markup [h] of a block tagged [l]: the
    new markup if the block is to be rewritten. *)
Definition rewritten (l : option str) (h : str) (cols : Z) (factor : Q)
  : option str :=
  if hasKey SKIP_LANGS (langOf (mkPre l None)) then None
  else match reflow h (langOf (mkPre l None)) cols factor with
       | Some (out, true) => Some out
       | _ => None
       end.

Definition hasLang (pre : Pre) : bool :=
  match dataLang pre with Some _ => true | None => false end.

(** The two loops of [formatAll] over the restored page, once the width is
    measured; the [<pre>] elements without a [data-lang] attribute are not
    selected. *)
Definition formatPass (page : list Pre) (cols : Z) : list Pre :=
  if (cols <=? 0) || (MAX_COLS <=? cols) then page else
  let factor := pageFactor (filter hasLang page) cols in
  map (fun pre => if hasLang pre then formatBlock pre cols factor else pre)
    page.

(** [formatAll] on the [<pre>] elements of the page. *)
Definition formatAll (page : list Pre) : list Pre :=
  let page := restoreAll page in
  match filter hasLang page with
  | [] => page
  | first :: _ => formatPass page (measureColumns first)
  end.

End Browser.

(** * Notions of the specification

    The notions the properties below are stated with.  Quoted runs, open
    brackets, the classification of lines and the compressed unit follow
    the words of the specification, not the code; the invariants relate
    them to the loops of the script. *)

(** ** Quoted runs *)

Definition isQuote (c : ascii) : bool :=
  Ascii.eqb c dquote || Ascii.eqb c squote.

(** The character of index [i] is immediately preceded by a backslash. *)
Definition escapedAt (t : str) (i : nat) : bool :=
  match i with
  | O => false
  | S j => match nth_error t j with
           | Some c => Ascii.eqb c backslash
           | None => false
           end
  end.

(** The quoting state after the first [k] characters: [Some q] inside a run
    opened by the quote [q], [None] outside.  A run opens at a quote met
    outside a run and closes at the next occurrence of the same quote that
    is not immediately preceded by a backslash. *)
Fixpoint quoteAt (t : str) (k : nat) : option ascii :=
  match k with
  | O => None
  | S i =>
      match nth_error t i, quoteAt t i with
      | Some c, Some q =>
          if Ascii.eqb c q && negb (escapedAt t i) then None else Some q
      | Some c, None => if isQuote c then Some c else None
      | None, q => q
      end
  end.

(** A break at offset [k] cuts a quoted run: it falls after the opening
    quote and not after the closing one. *)
Definition insideQuotes (t : str) (k : Z) : bool :=
  match quoteAt t (Z.to_nat k) with Some _ => true | None => false end.

(** The character of index [i] belongs to a quoted run, quotes included. *)
Definition quoted (t : str) (i : nat) : bool :=
  match quoteAt t i, nth_error t i with
  | Some _, _ => true
  | None, Some c => isQuote c
  | None, None => false
  end.

(** ** Open brackets *)

Definition openerAt (t : str) (i : nat) : bool :=
  negb (quoted t i)
  && match nth_error t i with Some c => isOpener c | None => false end.

Definition closerAt (t : str) (i : nat) : bool :=
  negb (quoted t i)
  && match nth_error t i with Some c => isCloser c | None => false end.

(** The columns of the brackets that are open after the first [k]
    characters, innermost first. *)
Fixpoint openStack (t : str) (k : nat) : list Z :=
  match k with
  | O => []
  | S i =>
      if openerAt t i then Z.of_nat i :: openStack t i
      else if closerAt t i then tl (openStack t i)
      else openStack t i
  end.

Definition innermostOpen (t : str) (k : Z) : option Z :=
  hd_error (openStack t (Z.to_nat k)).

(** The column of the bracket opened last among the first [k] characters,
    whether or not it has been closed since. *)
Fixpoint lastOpened (t : str) (k : nat) : option Z :=
  match k with
  | O => None
  | S i => if openerAt t i then Some (Z.of_nat i) else lastOpened t i
  end.

(** The same, falling back on the column inherited from the chunks before
    when no bracket was opened. *)
Definition lastOpenedOr (t : str) (inherited : Z) (k : nat) : Z :=
  match lastOpened t k with Some j => j | None => inherited end.

(** What the scanner relies on in a rule: a pattern that breaks after it has
    no quote, and no opener past its first character; a pattern that breaks
    before it is a single closer or does not start with a bracket. *)
Definition goodRule (r : Rule) : bool :=
  match mode r, pat r with
  | _, [] => true
  | After, x :: rest =>
      negb (isQuote x)
      && forallb (fun y => negb (isQuote y) && negb (isOpener y)) rest
  | Before, x :: rest =>
      singleIn isCloser (x :: rest) || (negb (isOpener x) && negb (isCloser x))
  end.

(** The invariant of the bracket state. *)
Definition ps_ok (s : PS) : Prop :=
  0 <= depth s /\ (col s = -1 <-> depth s = 0) /\ -1 <= col s.

(** ** Invariants of the scanner *)

(** The scanner's quoting state is the quoting state of the prefix read. *)
Definition quoteInv (t : str) (st : ScanSt) (n : nat) : Prop :=
  quoteAt t n = if inStr st then Some (strChar st) else None.

(** From a sound inherited state, the bracket state [s] is sound after [n]
    characters: its column is that of the bracket opened last. *)
Definition psAt (t : str) (init s : PS) (n : nat) : Prop :=
  ps_ok init ->
  ps_ok s /\ (0 < depth s -> col s = lastOpenedOr t (col init) n).

(** The offset [b] is an eligible break and [p] the state kept for it. *)
Definition goodBreak (t : str) (floor maxCols : Z) (init : PS)
    (b : Z) (p : PS) : Prop :=
  floor < b /\ 0 <= b < len t /\ b <= maxCols /\
  quoteAt t (Z.to_nat b) = None /\ psAt t init p (Z.to_nat b).

Definition bestInv (t : str) (floor maxCols : Z) (init : PS)
    (b : Z) (bp : option PS) : Prop :=
  match bp with
  | None => b = -1
  | Some p => goodBreak t floor maxCols init b p
  end.

Definition scanInv (t : str) (floor maxCols : Z) (init : PS)
    (st : ScanSt) (n : nat) : Prop :=
  quoteInv t st n /\ psAt t init (cur st) n /\
  bestInv t floor maxCols init (best st) (bestPs st).

(** ** Continuation chains *)

(** The accepted breaks of one line, from the bracket state [s] and the
    remainder [rem] on, down to the last remainder. *)
Inductive Chain (cols budget : Z) (lang : str) (indent fallbackCI : Z)
  : PS -> Line -> list BreakStep -> Line -> Prop :=
| Chain_nil s rem : Chain cols budget lang indent fallbackCI s rem [] rem
| Chain_cons s rem st steps final :
    tryBreak cols budget lang indent fallbackCI s rem = Some st ->
    Chain cols budget lang indent fallbackCI (stepPs st) (stepRem st)
      steps final ->
    Chain cols budget lang indent fallbackCI s rem (st :: steps) final.

(** The chunk an accepted break was found in. *)
Definition chunkOf (s : BreakStep) : str := plain (before s) ++ plain (after s).

(** ** Content of a continuation chain *)

(** The text without its leading run of spaces. *)
Definition dropSpaces (t : str) : str := skipn (countSpaces t) t.




(** The printable length of an emitted line that is followed by a break. *)
Definition printable (lang : str) (l : Line) : Z :=
  len (plain l ++ marker (hasKey BACKSLASH_LANGS lang)).

(** ** Indentation *)

(** The positive leading-space counts of a block. *)
Definition positiveIndents (lines : list Line) : list Z :=
  filter (fun n => 0 <? n) (map leadingSpaces lines).

(** [m] is the minimum positive leading-space count of the block, or the
    default unit when no line is indented. *)
Definition isIndentUnit (lines : list Line) (m : Z) : Prop :=
  match positiveIndents lines with
  | [] => m = DEFAULT_INDENT_STEP
  | _ :: _ =>
      In m (positiveIndents lines) /\
      Forall (fun n => m <= n) (positiveIndents lines)
  end.

(** The compressed unit as the specification words it. *)
Definition specCompressedStep (step cols : Z) : Z :=
  if COMPRESS_THRESHOLD <=? cols then step
  else if cols <? COMPRESS_AGGRESSIVE
       then Z.max (step / 2) MIN_COMPRESSED_STEP
       else Z.max (step - 1) MIN_COMPRESSED_STEP.

(** The line has a character other than a space at column [c]. *)
Definition contentAt (t : str) (c : Z) : bool :=
  match charAt t c with
  | Some x => negb (isSpace x)
  | None => false
  end.

(** Line [i] of the block is alignment-indented: it is indented, the line
    before it has content at its indent column, and either the indent jumps
    by more than the unit or the line before is alignment-indented too. *)
Fixpoint alignedAt (step : Z) (lines : list Line) (i : nat) : bool :=
  match i with
  | O => false
  | S j =>
      match nth_error lines j, nth_error lines (S j) with
      | Some prev, Some line =>
          let sp := leadingSpaces line in
          (0 <? sp) && contentAt (plain prev) sp
          && ((step <? sp - leadingSpaces prev) || alignedAt step lines j)
      | _, _ => false
      end
  end.

(** The number of spaces a structural line of the block loses. *)
Definition structuralRemoval (factor : Q) (lines : list Line) (i : nat) : Z :=
  match nth_error lines i with
  | Some line =>
      let sp := leadingSpaces line in
      if 0 <? sp then sp - jsRound (inject_Z sp * factor) else 0
  | None => 0
  end.

(** The number of spaces asked off line [i]: that of the line before for an
    alignment-indented line, that of the factor otherwise. *)
Fixpoint removalAt (step : Z) (factor : Q) (lines : list Line) (i : nat) : Z :=
  match i with
  | O => structuralRemoval factor lines O
  | S j =>
      if alignedAt step lines (S j) then removalAt step factor lines j
      else structuralRemoval factor lines (S j)
  end.

(** What the loop of [applyIndentFactor] remembers of the lines before
    line [k]. *)
Definition indentStAt (step : Z) (factor : Q) (lines : list Line) (k : nat)
    (st : IndentSt) : Prop :=
  match k with
  | O => st = initIndentSt
  | S j =>
      exists prev,
        nth_error lines j = Some prev /\
        st = mkIndentSt (Some (plain prev)) (leadingSpaces prev)
               (removalAt step factor lines j) (alignedAt step lines j)
  end.

(** The indentation of the line is made of space characters only. *)
Definition spaceIndented (line : Line) : Prop :=
  leadingSpaces line <= Z.of_nat (countSpaces (plain line)).

(** The factor [formatAll] computes from a block. *)
Definition blockFactor (lines : list Line) (cols : Z) : Q :=
  inject_Z (computeCompressedStep (detectIndentStep lines) cols)
  / inject_Z (detectIndentStep lines).

(** An alignment-indented line and the line before it lose the same number
    [r] of leading characters, all spaces, none past the indentation of
    either. *)
Definition alignmentKept (lines : list Line) (factor : Q) : Prop :=
  forall i prev cur,
    nth_error lines i = Some prev ->
    nth_error lines (S i) = Some cur ->
    alignedAt (detectIndentStep lines) lines (S i) = true ->
    exists r,
      r <= leadingSpaces prev <= leadingSpaces cur /\
      nth_error (fst (applyIndentFactor lines factor)) i
      = Some (removeNSpaces prev r) /\
      nth_error (fst (applyIndentFactor lines factor)) (S i)
      = Some (removeNSpaces cur r) /\
      plain (removeNSpaces prev r) = skipn (Z.to_nat r) (plain prev) /\
      plain (removeNSpaces cur r) = skipn (Z.to_nat r) (plain cur).

(** Under [factor], an indented line that is not alignment-indented keeps
    half its indentation, halves rounded up, and at least 2 spaces. *)
Definition structuralHalved (lines : list Line) (factor : Q) : Prop :=
  forall j line,
    nth_error lines j = Some line ->
    0 < leadingSpaces line ->
    alignedAt (detectIndentStep lines) lines j = false ->
    exists o,
      nth_error (fst (applyIndentFactor lines factor)) j = Some o /\
      plain o = skipn (Z.to_nat (leadingSpaces line / 2)) (plain line) /\
      leadingSpaces o = (leadingSpaces line + 1) / 2 /\
      2 <= leadingSpaces o.

(** A line whose indent exceeds that of the line before it by no more than
    the unit, the line before not being alignment-indented, is not
    alignment-indented, whatever stands above its indent column: it loses
    what the factor gives for its own indent. *)
Definition smallJumpScaled (lines : list Line) (factor : Q) : Prop :=
  forall i prev cur,
    nth_error lines i = Some prev ->
    nth_error lines (S i) = Some cur ->
    0 < leadingSpaces cur ->
    leadingSpaces cur - leadingSpaces prev <= detectIndentStep lines ->
    alignedAt (detectIndentStep lines) lines i = false ->
    alignedAt (detectIndentStep lines) lines (S i) = false /\
    nth_error (fst (applyIndentFactor lines factor)) (S i)
    = Some (removeNSpaces cur
              (leadingSpaces cur
               - jsRound (inject_Z (leadingSpaces cur) * factor))).

(** The child nodes of markup that has no tag and no entity: one text
    node. *)
Definition textOnly (markup : str) : list Node := [TextNode markup].

(** ** Blocks *)

(** The markup a restore pass puts back: the snapshot if there is one,
    the current markup otherwise. *)
Definition pristine (c : CodeEl) : str :=
  match dataOriginal c with Some o => o | None => innerHTML c end.

Definition markupOf (pre : Pre) : option str :=
  option_map innerHTML (code pre).

(** ** Splitting *)

(** [before] and [after] are [line] cut between two segments, or inside one
    segment whose two parts keep its markup. *)
Definition cutOf (line before after : Line) : Prop :=
  before ++ after = line
  \/ exists l1 s l2 t1 t2,
       line = l1 ++ s :: l2 /\ text s = t1 ++ t2 /\
       before = l1 ++ [mkSeg t1 (open s) (close s)] /\
       after = mkSeg t2 (open s) (close s) :: l2.

(** ** Further notions

    Used by the further properties at the end of the file. *)

(** The characters of a text other than spaces, in order. *)
Definition visible (t : str) : str := filter (fun c => negb (isSpace c)) t.

(** The markup of the styled segments of a line, in order. *)
Definition styles (line : Line) : list (str * str) :=
  map (fun s => (open s, close s)) (filter (fun s => truthy (open s)) line).

(** The text a parser reads back from escaped text: the three entities of
    [toHTML] stand for their characters.  Read from the right, so that it is
    structural. *)
Fixpoint unescapeHTML (t : str) : str :=
  match t with
  | [] => []
  | c :: rest =>
      let r := unescapeHTML rest in
      if Ascii.eqb c "&"%char then
        match r with
        | "a"%char :: "m"%char :: "p"%char :: ";"%char :: r' => "&"%char :: r'
        | "l"%char :: "t"%char :: ";"%char :: r' => "<"%char :: r'
        | "g"%char :: "t"%char :: ";"%char :: r' => ">"%char :: r'
        | _ => c :: r
        end
      else c :: r
  end.

(** The text content of a child node that [extractLines] reads. *)
Definition nodeText (node : Node) : str :=
  match node with
  | TextNode t => t
  | SpanNode _ t => t
  | OtherNode => []
  end.

(** The text of a block given by its lines. *)
Definition linesText (lines : list Line) : str :=
  join [newline] (map plain lines).

(** The text left by each accepted break but the last is shorter than the
    text the break was made in, of [n] characters for the first break. *)
Fixpoint shrinking (n : Z) (steps : list BreakStep) : Prop :=
  match steps with
  | [] => True
  | [_] => True
  | st :: rest =>
      len (plain (stepRem st)) < n /\
      shrinking (len (plain (stepRem st))) rest
  end.

(** The break offset the rule [r] proposes at the index [i]: the offset
    [ruleStep] computes when the pattern matches there and none of its
    tests rejects it. *)
Definition proposal (t : str) (floor : Z) (i : Z) (r : Rule) : option Z :=
  if negb (ruleMatches t i r) then None else
  let bp := match mode r with After => i + len (pat r) | Before => i end in
  if (bp <=? floor) || (len t <=? bp) then None else
  if (if singleIn isOpener (pat r) then singleArgContainer t i
      else if singleIn isCloser (pat r) then
        let op := findMatchingOpen t i in
        (0 <=? op) && singleArgContainer t op
      else false)
  then None else Some bp.

(** The same, for the characters outside the quoted runs only. *)
Definition candidate (t : str) (floor : Z) (i : nat) (r : Rule) : option Z :=
  if quoted t i then None else proposal t floor (Z.of_nat i) r.

(** [b] is the greatest offset within [maxCols] that the pairs of [P]
    propose, or [-1] when they propose none. *)
Definition bestOver (t : str) (floor maxCols : Z) (P : nat -> Rule -> Prop)
    (b : Z) : Prop :=
  (b = -1 \/
   exists i r, P i r /\ candidate t floor i r = Some b /\ b <= maxCols) /\
  forall i r c, P i r -> candidate t floor i r = Some c -> c <= maxCols ->
    c <= b.

(** [ls] is the greatest offset that the separator rules of [P] propose,
    within [maxCols] or not, or [-1] when they propose none. *)
Definition sepOver (t : str) (floor : Z) (P : nat -> Rule -> Prop)
    (ls : Z) : Prop :=
  (ls = -1 \/
   exists i r, P i r /\ sep r = true /\ candidate t floor i r = Some ls) /\
  forall i r c, P i r -> sep r = true -> candidate t floor i r = Some c ->
    c <= ls.

(** ** Brackets and indents of a chain of breaks *)

(** The columns of the brackets open after the first [k] characters of a
    chunk, innermost first.  [inh] holds the brackets the chunks before
    left open, each by its column on the emitted line it stands on. *)
Fixpoint openStackFrom (inh : list Z) (t : str) (k : nat) : list Z :=
  match k with
  | O => inh
  | S i =>
      if openerAt t i then Z.of_nat i :: openStackFrom inh t i
      else if closerAt t i then tl (openStackFrom inh t i)
      else openStackFrom inh t i
  end.

(** A pattern that breaks after it has no closing bracket past its first
    character. *)
Definition strictRule (r : Rule) : bool :=
  match mode r, pat r with
  | After, _ :: rest => forallb (fun y => negb (isCloser y)) rest
  | _, _ => true
  end.

(** In the chunk [t], a rule that separates arguments proposes a break
    offset at or after the offset [b]. *)
Definition sepFollows (lang t : str) (b : Z) : Prop :=
  exists i r c,
    In r (rulesFor lang) /\ sep r = true /\
    candidate t (Z.max 0 (searchNonWhite t)) i r = Some c /\ b <= c.

(** The continuation indent [ci] of a break, told from the text.  [inside]
    is the column of the open bracket the break lies in, if it lies in one;
    [wasInside] tells whether the break before lay in an open bracket;
    [sepAfter], whether an argument separator is at or after the break.
    Every value is capped at half the column count. *)
Definition indentFor (cols indent fallbackCI : Z) (inside : option Z)
    (wasInside : bool) (sepAfter : Prop) (ci : Z) : Prop :=
  match inside with
  | Some c =>
      (sepAfter -> ci = Z.min (c + PAREN_OFFSET) (sar1 cols)) /\
      (~ sepAfter ->
       ci = Z.min fallbackCI (Z.min (c + PAREN_OFFSET) (sar1 cols)))
  | None =>
      ci = Z.min (if wasInside then indent else fallbackCI) (sar1 cols)
  end.

(** Along a chain of breaks, from the open brackets [inh] and the column
    [inhLast] of the bracket opened last: at each break that lies in no
    open bracket, or in the bracket that was opened last, the continuation
    indent is the one [indentFor] tells. *)
Fixpoint indentsByText (cols : Z) (lang : str) (indent fallbackCI : Z)
    (inh : list Z) (inhLast : Z) (steps : list BreakStep) : Prop :=
  match steps with
  | [] => True
  | st :: rest =>
      let t := chunkOf st in
      let k := length (plain (before st)) in
      let stack := openStackFrom inh t k in
      let lastc := lastOpenedOr t inhLast k in
      (hd_error stack = None \/ hd_error stack = Some lastc ->
       indentFor cols indent fallbackCI (hd_error stack)
         (match inh with [] => false | _ :: _ => true end)
         (sepFollows lang t (Z.of_nat k)) (stepCi st)) /\
      indentsByText cols lang indent fallbackCI stack lastc rest
  end.

(** ** The last line of a chain of breaks *)

(** What holds of the last line [final] of a chain: it fits the budget; or
    no rule proposes a break offset within the budget on it; or the only
    offsets proposed within the budget leave one character after the
    break, the line being one character longer than the budget; or the
    chain has 10 breaks; or the last break did not shorten the text it was
    made in. *)
Definition lastLineBound (lang : str) (budget : Z) (steps : list BreakStep)
    (final : Line) : Prop :=
  let t := plain final in
  let floor := Z.max 0 (searchNonWhite t) in
  len t <= budget
  \/ (forall i r c, In r (rulesFor lang) ->
        candidate t floor i r = Some c -> budget < c)
  \/ (len t = budget + 1 /\
      exists i r, In r (rulesFor lang) /\
        candidate t floor i r = Some budget)
  \/ length steps = MAX_SPLITS
  \/ exists pre st,
       steps = pre ++ [st] /\ final = stepRem st /\
       len (chunkOf st) <= len t.

(** The number of occurrences of a character. *)
Definition countChar (c : ascii) (t : str) : Z :=
  len (filter (Ascii.eqb c) t).

(** The characters of index [from] up to [to], [to] excluded. *)
Definition between (t : str) (from to : nat) : str :=
  skipn from (firstn to t).

(** * Properties *)

(** Split a conjunction without entering the implications under it. *)
Ltac conjs := repeat apply conj.

(** ** Strings *)

Lemma str_eqb_eq a b : str_eqb a b = true <-> a = b.
Proof.
  unfold str_eqb. destruct (list_eq_dec ascii_dec a b); split; congruence.
Qed.

Lemma len_nonneg t : 0 <= len t.
Proof. unfold len. lia. Qed.

Lemma len_app a b : len (a ++ b) = len a + len b.
Proof. unfold len. rewrite length_app. lia. Qed.

Lemma len_cons c t : len (c :: t) = 1 + len t.
Proof. unfold len. simpl length. lia. Qed.

Lemma sliceIndex_in t k : 0 <= k <= len t -> sliceIndex t k = k.
Proof. unfold sliceIndex. intros H. destruct (Z.ltb_spec k 0); lia. Qed.

Lemma slice_prefix t k :
  0 <= k <= len t -> slice t 0 k = firstn (Z.to_nat k) t.
Proof.
  intros H. unfold slice.
  rewrite (sliceIndex_in t 0) by (pose proof (len_nonneg t); lia).
  rewrite (sliceIndex_in t k) by assumption.
  simpl. now rewrite Z.sub_0_r.
Qed.

Lemma sliceFrom_suffix t k :
  0 <= k <= len t -> sliceFrom t k = skipn (Z.to_nat k) t.
Proof. intros H. unfold sliceFrom. now rewrite sliceIndex_in. Qed.

Lemma charAt_nth t i :
  0 <= i -> charAt t i = nth_error t (Z.to_nat i).
Proof. intros H. unfold charAt. destruct (Z.ltb_spec i 0); [lia | easy]. Qed.

Lemma charAt_of_nat t n : charAt t (Z.of_nat n) = nth_error t n.
Proof. rewrite charAt_nth by lia. now rewrite Nat2Z.id. Qed.

Lemma plain_cons s l : plain (s :: l) = text s ++ plain l.
Proof. reflexivity. Qed.

Lemma plain_app a b : plain (a ++ b) = plain a ++ plain b.
Proof. unfold plain. now rewrite map_app, concat_app. Qed.

(** ** Runs of leading spaces *)

Lemma countSpaces_le t : (countSpaces t <= length t)%nat.
Proof.
  induction t as [|c t IH]; simpl; [lia|]. destruct (isSpace c); simpl; lia.
Qed.

Lemma countSpaces_app_short t u :
  (countSpaces t < length t)%nat -> countSpaces (t ++ u) = countSpaces t.
Proof.
  induction t as [|c t IH]; simpl; [lia|].
  destruct (isSpace c); [|easy]. intros H. f_equal. apply IH. lia.
Qed.

Lemma countSpaces_app_full t u :
  countSpaces t = length t ->
  countSpaces (t ++ u) = (length t + countSpaces u)%nat.
Proof.
  induction t as [|c t IH]; simpl; [easy|].
  destruct (isSpace c); [|discriminate]. intros H. f_equal. apply IH. lia.
Qed.


Lemma countSpaces_spaces n u :
  countSpaces (repeat space n ++ u) = (n + countSpaces u)%nat.
Proof. induction n as [|n IH]; simpl; [easy|]. now rewrite IH. Qed.

Lemma cutSpaces_min t rem : cutSpaces t rem = Nat.min (countSpaces t) rem.
Proof.
  revert rem. induction t as [|c t IH]; intros [|rem]; simpl; try easy.
  - destruct (isSpace c); [|easy]. now rewrite Nat.min_0_r.
  - destruct (isSpace c); [|easy]. now rewrite IH.
Qed.

(** ** [splitAt] *)

Lemma splitAt_done pos count line :
  splitAt_from pos count true line = ([], line).
Proof.
  induction line as [|seg rest IH]; simpl; [easy|]. now rewrite IH.
Qed.

Lemma cutOf_cons seg line b a :
  cutOf line b a -> cutOf (seg :: line) (seg :: b) a.
Proof.
  intros [H | (l1 & s & l2 & t1 & t2 & H1 & H2 & H3 & H4)].
  - left. simpl. now rewrite H.
  - right. exists (seg :: l1), s, l2, t1, t2. subst. now repeat split.
Qed.

Lemma firstn_app_long (t u : str) d :
  len t <= d ->
  firstn (Z.to_nat d) (t ++ u) = t ++ firstn (Z.to_nat (d - len t)) u.
Proof.
  intros H. unfold len in *. rewrite firstn_app.
  rewrite firstn_all2 by lia. f_equal. f_equal. lia.
Qed.

Lemma skipn_app_long (t u : str) d :
  len t <= d ->
  skipn (Z.to_nat d) (t ++ u) = skipn (Z.to_nat (d - len t)) u.
Proof.
  intros H. unfold len in *. rewrite skipn_app.
  rewrite skipn_all2 by lia. simpl. f_equal. lia.
Qed.

Lemma firstn_app_short (t u : str) d :
  d <= len t -> firstn (Z.to_nat d) (t ++ u) = firstn (Z.to_nat d) t.
Proof.
  intros H. unfold len in *. rewrite firstn_app.
  replace (Z.to_nat d - length t)%nat with O by lia.
  simpl. apply app_nil_r.
Qed.

Lemma skipn_app_short (t u : str) d :
  d <= len t -> skipn (Z.to_nat d) (t ++ u) = skipn (Z.to_nat d) t ++ u.
Proof.
  intros H. unfold len in *. rewrite skipn_app.
  replace (Z.to_nat d - length t)%nat with O by lia. reflexivity.
Qed.

Lemma splitAt_from_spec line : forall pos count,
  0 <= pos - count <= len (plain line) ->
  let '(b, a) := splitAt_from pos count false line in
  plain b = firstn (Z.to_nat (pos - count)) (plain line) /\
  plain a = skipn (Z.to_nat (pos - count)) (plain line) /\
  cutOf line b a.
Proof.
  induction line as [|seg rest IH]; intros pos count H.
  - simpl. rewrite firstn_nil, skipn_nil. repeat split. now left.
  - rewrite plain_cons, len_app in H. simpl splitAt_from.
    pose proof (len_nonneg (text seg)) as Hs.
    destruct (Z.leb_spec (count + len (text seg)) pos) as [Hle | Hgt].
    + rewrite plain_cons.
      rewrite firstn_app_long, skipn_app_long by lia.
      replace (pos - count - len (text seg))
        with (pos - (count + len (text seg))) by lia.
      destruct (Z.eqb_spec (count + len (text seg)) pos) as [He | Hne].
      * rewrite splitAt_done.
        replace (pos - (count + len (text seg))) with 0 by lia.
        simpl. rewrite app_nil_r. repeat split; [apply app_nil_r | now left].
      * specialize (IH pos (count + len (text seg))).
        destruct (splitAt_from pos (count + len (text seg)) false rest)
          as [b a].
        destruct IH as (Hb & Ha & Hc); [lia|].
        rewrite plain_cons, Hb, Ha. repeat split. now apply cutOf_cons.
    + rewrite splitAt_done.
      destruct (Z.ltb_spec (pos - count) (len (text seg))) as [Hlt | Hge];
        [|lia].
      rewrite slice_prefix, sliceFrom_suffix by lia.
      simpl app. rewrite !plain_cons. simpl plain. rewrite app_nil_r.
      simpl text.
      rewrite firstn_app_short, skipn_app_short by lia.
      repeat split.
      right. exists [], seg, rest,
        (firstn (Z.to_nat (pos - count)) (text seg)),
        (skipn (Z.to_nat (pos - count)) (text seg)).
      repeat split. now rewrite firstn_skipn.
Qed.

Lemma splitAt_plain line pos :
  0 <= pos <= len (plain line) ->
  plain (fst (splitAt line pos)) = firstn (Z.to_nat pos) (plain line) /\
  plain (snd (splitAt line pos)) = skipn (Z.to_nat pos) (plain line) /\
  cutOf line (fst (splitAt line pos)) (snd (splitAt line pos)).
Proof.
  intros H. unfold splitAt.
  pose proof (splitAt_from_spec line pos 0) as HS.
  rewrite Z.sub_0_r in HS.
  destruct (splitAt_from pos 0 false line) as [b a]. now apply HS.
Qed.

(** C10.  For an offset within the line, [splitAt] returns the first [pos]
    characters and the remaining ones, and the two lines are the segments
    of the line cut between two segments or inside one segment, whose two
    parts keep its markup. *)
Theorem splitAt_correct line pos :
  0 <= pos <= len (plain line) ->
  plain (fst (splitAt line pos)) = firstn (Z.to_nat pos) (plain line) /\
  plain (snd (splitAt line pos)) = skipn (Z.to_nat pos) (plain line) /\
  cutOf line (fst (splitAt line pos)) (snd (splitAt line pos)).
Proof. apply splitAt_plain. Qed.

Lemma splitAt_correct_witness :
  let line := [mkSeg (lit "int ") (lit "<span>") (lit "</span>");
               mkSeg (lit "x = 1;") [] []] in
  plain (fst (splitAt line 6)) = lit "int x " /\
  plain (snd (splitAt line 6)) = lit "= 1;" /\
  cutOf line (fst (splitAt line 6)) (snd (splitAt line 6)).
Proof.
  intros line.
  exact (splitAt_correct line 6 ltac:(vm_compute; split; discriminate)).
Defined.

(** ** Indent analysis *)

Lemma searchFrom_bound t : forall i,
  searchFrom i t = -1 \/ i <= searchFrom i t < i + len t.
Proof.
  induction t as [|c t IH]; intros i; simpl; [now left|].
  rewrite len_cons. pose proof (len_nonneg t).
  destruct (isWhite c); [|right; lia].
  destruct (IH (i + 1)) as [-> | ?]; [now left | right; lia].
Qed.

Lemma leadingSpaces_nonneg line : 0 <= leadingSpaces line.
Proof. unfold leadingSpaces. lia. Qed.

Lemma positiveIndents_cons line rest :
  positiveIndents (line :: rest) =
  if 0 <? leadingSpaces line
  then leadingSpaces line :: positiveIndents rest
  else positiveIndents rest.
Proof. reflexivity. Qed.

Lemma minIndent_fold lines : forall acc,
  0 <= acc ->
  let r := fold_left minIndent lines acc in
  (r = acc \/ In r (positiveIndents lines)) /\
  (0 < acc -> 0 < r <= acc) /\
  (positiveIndents lines <> [] ->
   0 < r /\ Forall (fun n => r <= n) (positiveIndents lines)) /\
  (positiveIndents lines = [] -> r = acc).
Proof.
  induction lines as [|line rest IH]; intros acc Hacc; simpl fold_left.
  - cbn. repeat split; try lia; try congruence; auto.
  - rewrite positiveIndents_cons.
    pose proof (leadingSpaces_nonneg line) as Hsp.
    unfold minIndent at 2.
    destruct (Z.ltb_spec 0 (leadingSpaces line)) as [Hpos | Hzero].
    + set (acc' := if true && ((acc =? 0) || (leadingSpaces line <? acc))
                   then leadingSpaces line else acc).
      assert (Hacc' : 0 < acc' /\ acc' <= leadingSpaces line /\
                      (0 < acc -> acc' <= acc) /\
                      (acc' = acc \/ acc' = leadingSpaces line)).
      { unfold acc'. simpl andb.
        destruct (Z.eqb_spec acc 0), (Z.ltb_spec (leadingSpaces line) acc);
          simpl; lia. }
      destruct Hacc' as (H1 & H2 & H3 & H4).
      destruct (IH acc' ltac:(lia)) as (Ia & Ib & Ic & Id).
      cbv zeta. repeat split.
      * destruct Ia as [-> | Hin]; [|right; now right].
        destruct H4 as [-> | ->]; [now left | right; now left].
      * specialize (Ib H1). lia.
      * specialize (Ib H1). lia.
      * specialize (Ib H1). lia.
      * constructor; [specialize (Ib H1); lia|].
        destruct (positiveIndents rest) eqn:E; [constructor|].
        now apply Ic.
      * discriminate.
    + simpl andb. cbv iota. apply IH. assumption.
Qed.

Lemma detectIndentStep_unit lines : isIndentUnit lines (detectIndentStep lines).
Proof.
  unfold isIndentUnit, detectIndentStep.
  destruct (minIndent_fold lines 0 ltac:(lia)) as (Ia & _ & Ic & Id).
  destruct (positiveIndents lines) as [|n ns] eqn:E.
  - rewrite Id by reflexivity. reflexivity.
  - destruct Ic as [Hpos Hall]; [discriminate|].
    destruct (Z.eqb_spec (fold_left minIndent lines 0) 0) as [H0 | _]; [lia|].
    split; [|exact Hall]. destruct Ia as [H0 | Hin]; [lia | exact Hin].
Qed.

Lemma detectIndentStep_pos lines : 0 < detectIndentStep lines.
Proof.
  unfold detectIndentStep.
  destruct (minIndent_fold lines 0 ltac:(lia)) as (Ia & _ & Ic & Id).
  destruct (Z.eqb_spec (fold_left minIndent lines 0) 0) as [H0 | Hn];
    [reflexivity|].
  destruct (positiveIndents lines) eqn:E.
  - specialize (Id eq_refl). lia.
  - destruct Ic; [discriminate | lia].
Qed.

Lemma toInt32_small z : - 2 ^ 31 <= z < 2 ^ 31 -> toInt32 z = z.
Proof.
  intros H. unfold toInt32. rewrite Z.mod_small; lia.
Qed.

Lemma sar1_half z : 0 <= z < 2 ^ 31 -> sar1 z = z / 2.
Proof.
  intros H. unfold sar1. rewrite toInt32_small by lia.
  now rewrite Z.shiftr_div_pow2 by lia.
Qed.

Lemma sar1_nonneg z : 0 <= toInt32 z -> 0 <= sar1 z.
Proof. intros H. unfold sar1. now apply Z.shiftr_nonneg. Qed.

(** C7, as the code has it.  The detected unit is the minimum positive
    leading-space count of the block, or 4 when no line is indented.  A unit
    of at most 2 is returned unchanged at every width; a larger unit is
    unchanged from 55 columns on, halved (not below 2) under 35 columns and
    reduced by one (not below 2) in between. *)
Theorem indent_unit_and_compression lines cols :
  detectIndentStep lines < 2 ^ 31 ->
  let step := detectIndentStep lines in
  isIndentUnit lines step /\
  (step <= MIN_COMPRESSED_STEP -> computeCompressedStep step cols = step) /\
  (MIN_COMPRESSED_STEP < step ->
   computeCompressedStep step cols = specCompressedStep step cols).
Proof.
  intros Hsmall step. split; [apply detectIndentStep_unit|].
  pose proof (detectIndentStep_pos lines) as Hpos. fold step in Hpos, Hsmall.
  unfold computeCompressedStep, specCompressedStep, MIN_COMPRESSED_STEP.
  split; intros H.
  - destruct (Z.leb_spec step 2); [|lia]. now rewrite orb_true_r.
  - destruct (Z.leb_spec step 2); [lia|]. rewrite orb_false_r.
    now rewrite sar1_half by lia.
Qed.

Lemma indent_unit_and_compression_witness :
  let lines := [[mkSeg (lit "if (x) {") [] []];
                [mkSeg (lit "    return;") [] []]] in
  isIndentUnit lines 4 /\
  (4 <= MIN_COMPRESSED_STEP -> computeCompressedStep 4 30 = 4) /\
  (MIN_COMPRESSED_STEP < 4 ->
   computeCompressedStep 4 30 = specCompressedStep 4 30).
Proof.
  intros lines.
  exact (indent_unit_and_compression lines 30 ltac:(vm_compute; reflexivity)).
Defined.

(** C7 as stated fails on a block indented by single spaces: its unit is 1,
    which the code returns unchanged under 35 columns, where the stated rule
    gives the floor 2. *)
Lemma compression_of_unit_1 :
  detectIndentStep [[mkSeg (lit "a:") [] []]; [mkSeg (lit " b") [] []]] = 1 /\
  computeCompressedStep 1 30 = 1 /\
  specCompressedStep 1 30 = 2 /\
  computeCompressedStep 1 30 <> specCompressedStep 1 30.
Proof. repeat split. vm_compute. discriminate. Qed.

(** ** Block formatter *)

Section BlockProperties.

Variable parseHTML : str -> list Node.

Lemma hasKey_own own k : In k own -> hasKey own k = true.
Proof.
  intros H. unfold hasKey. apply existsb_exists. exists k. split.
  - apply in_or_app. now left.
  - now apply str_eqb_eq.
Qed.

Lemma formatBlock_skipped pre cols factor :
  hasKey SKIP_LANGS (langOf pre) = true ->
  formatBlock parseHTML pre cols factor = pre.
Proof.
  intros H. unfold formatBlock. destruct (code pre); [|reflexivity].
  now rewrite H.
Qed.

Lemma langOf_restore pre : langOf (restore pre) = langOf pre.
Proof.
  unfold restore, langOf. destruct (code pre) as [c|]; [|reflexivity].
  now destruct (dataOriginal c).
Qed.

Lemma formatBlock_eq l c cols factor :
  formatBlock parseHTML (mkPre l (Some c)) cols factor
  = match rewritten parseHTML l (innerHTML c) cols factor with
    | Some out => mkPre l (Some (mkCode out (Some (pristine c))))
    | None => mkPre l (Some c)
    end.
Proof.
  unfold formatBlock, rewritten, pristine. simpl code. simpl dataLang.
  change (langOf (mkPre l (Some c))) with (langOf (mkPre l None)).
  destruct (hasKey SKIP_LANGS (langOf (mkPre l None))); [reflexivity|].
  destruct (reflow parseHTML (innerHTML c) (langOf (mkPre l None))
              cols factor) as [[out [|]]|]; try reflexivity.
  now destruct (dataOriginal c).
Qed.

Lemma restore_code l c :
  restore (mkPre l (Some c))
  = mkPre l (Some (mkCode (pristine c) (dataOriginal c))).
Proof. destruct c as [h [o|]]; reflexivity. Qed.

Lemma pristine_restored c :
  pristine (mkCode (pristine c) (dataOriginal c)) = pristine c.
Proof. destruct c as [h [o|]]; reflexivity. Qed.

Lemma formatBlock_twice pre cols factor :
  formatBlock parseHTML
    (restore (formatBlock parseHTML (restore pre) cols factor)) cols factor
  = formatBlock parseHTML (restore pre) cols factor.
Proof.
  destruct pre as [l [c|]]; [|reflexivity].
  rewrite restore_code, (formatBlock_eq l (mkCode _ _)).
  simpl innerHTML. rewrite pristine_restored.
  destruct (rewritten parseHTML l (pristine c) cols factor) as [out|] eqn:E.
  - rewrite restore_code, formatBlock_eq.
    cbn [innerHTML pristine dataOriginal]. now rewrite E.
  - rewrite restore_code, formatBlock_eq, pristine_restored.
    cbn [innerHTML]. now rewrite E.
Qed.

Lemma markupOf_formatBlock l c cols factor :
  markupOf (formatBlock parseHTML (mkPre l (Some c)) cols factor)
  = Some (match rewritten parseHTML l (innerHTML c) cols factor with
          | Some out => out
          | None => innerHTML c
          end).
Proof.
  rewrite formatBlock_eq.
  now destruct (rewritten parseHTML l (innerHTML c) cols factor).
Qed.

Lemma restore_formatBlock l c cols factor :
  exists c',
    restore (formatBlock parseHTML (restore (mkPre l (Some c))) cols factor)
    = mkPre l (Some c') /\ innerHTML c' = pristine c.
Proof.
  rewrite restore_code, formatBlock_eq. cbn [innerHTML].
  rewrite pristine_restored.
  destruct (rewritten parseHTML l (pristine c) cols factor) as [out|].
  - rewrite restore_code. eexists. split; reflexivity.
  - rewrite restore_code, pristine_restored. eexists. split; reflexivity.
Qed.

(** A second pass at another width gives the markup a first pass at that
    width gives. *)
Lemma formatBlock_again pre cols factor cols' factor' :
  markupOf (formatBlock parseHTML
              (restore (formatBlock parseHTML (restore pre) cols factor))
              cols' factor')
  = markupOf (formatBlock parseHTML (restore pre) cols' factor').
Proof.
  destruct pre as [l [c|]]; [|reflexivity].
  destruct (restore_formatBlock l c cols factor) as (c' & -> & Hc').
  rewrite restore_code, !markupOf_formatBlock. cbn [innerHTML].
  now rewrite Hc'.
Qed.

Lemma formatBlock_cases l c cols factor :
  formatBlock parseHTML (mkPre l (Some c)) cols factor = mkPre l (Some c)
  \/ exists out,
       formatBlock parseHTML (mkPre l (Some c)) cols factor
       = mkPre l (Some (mkCode out (Some (pristine c)))).
Proof.
  rewrite formatBlock_eq.
  destruct (rewritten parseHTML l (innerHTML c) cols factor) as [out|];
    [right; now exists out | now left].
Qed.

Lemma restore_idem pre : restore (restore pre) = restore pre.
Proof. destruct pre as [l [[h [o|]]|]]; reflexivity. Qed.

Lemma dataLang_restore pre : dataLang (restore pre) = dataLang pre.
Proof. destruct pre as [l [[h [o|]]|]]; reflexivity. Qed.

Lemma dataLang_formatBlock pre cols factor :
  dataLang (formatBlock parseHTML pre cols factor) = dataLang pre.
Proof.
  destruct pre as [l [c|]]; [|reflexivity]. rewrite formatBlock_eq.
  now destruct (rewritten parseHTML l (innerHTML c) cols factor).
Qed.

(** The block a pass leaves, once restored, has the tag and the markup of
    the restored block the pass started from. *)
Lemma restored_key pre cols factor :
  dataLang (restore (formatBlock parseHTML (restore pre) cols factor))
  = dataLang (restore pre) /\
  markupOf (restore (formatBlock parseHTML (restore pre) cols factor))
  = markupOf (restore pre).
Proof.
  split; [now rewrite dataLang_restore, dataLang_formatBlock|].
  destruct pre as [l [c|]]; [|reflexivity].
  destruct (restore_formatBlock l c cols factor) as (c' & -> & Hc').
  rewrite restore_code. unfold markupOf. simpl. now rewrite Hc'.
Qed.

Lemma pageFactor_ext cols l1 l2 :
  Forall2 (fun a b => dataLang a = dataLang b /\ markupOf a = markupOf b)
    l1 l2 ->
  pageFactor parseHTML l1 cols = pageFactor parseHTML l2 cols.
Proof.
  induction 1 as [|a b l1 l2 [Hl Hm] _ IH]; simpl; [reflexivity|].
  unfold langOf. rewrite Hl.
  destruct (hasKey SKIP_LANGS _); [exact IH|].
  unfold markupOf in Hm.
  destruct (code a) as [ca|], (code b) as [cb|]; simpl in Hm;
    try discriminate; [|exact IH].
  injection Hm as ->.
  destruct (MAX_LINES <? _); [exact IH | reflexivity].
Qed.

(** One turn of the second loop of [formatAll]. *)
Lemma formatPass_eq page cols :
  formatPass parseHTML page cols
  = if (cols <=? 0) || (MAX_COLS <=? cols) then page
    else map (fun pre =>
                if hasLang pre
                then formatBlock parseHTML pre cols
                       (pageFactor parseHTML (filter hasLang page) cols)
                else pre) page.
Proof. reflexivity. Qed.

Lemma selected_after_pass cols factor page :
  Forall (fun pre => restore pre = pre) page ->
  Forall2 (fun a b => dataLang a = dataLang b /\ markupOf a = markupOf b)
    (filter hasLang
       (map (fun pre =>
               restore (if hasLang pre
                        then formatBlock parseHTML pre cols factor
                        else pre)) page))
    (filter hasLang page).
Proof.
  induction 1 as [|pre page Hpre _ IH]; simpl; [constructor|].
  assert (Hlang : hasLang (restore (if hasLang pre
                                    then formatBlock parseHTML pre cols factor
                                    else pre)) = hasLang pre).
  { unfold hasLang. rewrite dataLang_restore.
    destruct (dataLang pre) eqn:E; [|now rewrite E].
    now rewrite dataLang_formatBlock, E. }
  rewrite Hlang. destruct (hasLang pre); [|exact IH].
  constructor; [|exact IH].
  rewrite <- Hpre. apply restored_key.
Qed.

(** A second pass of [formatAll] at the same width leaves the page the
    first pass gave. *)
Lemma formatPass_twice page cols :
  formatPass parseHTML
    (restoreAll (formatPass parseHTML (restoreAll page) cols)) cols
  = formatPass parseHTML (restoreAll page) cols.
Proof.
  assert (Hres : Forall (fun pre => restore pre = pre) (restoreAll page)).
  { unfold restoreAll. apply Forall_forall. intros x Hx.
    apply in_map_iff in Hx. destruct Hx as (y & <- & _). apply restore_idem. }
  rewrite !formatPass_eq.
  destruct ((cols <=? 0) || (MAX_COLS <=? cols)).
  - unfold restoreAll. rewrite map_map. apply map_ext. apply restore_idem.
  - set (P := restoreAll page) in *.
    set (f := pageFactor parseHTML (filter hasLang P) cols).
    unfold restoreAll at 1 2. rewrite !map_map.
    rewrite (pageFactor_ext cols _ (filter hasLang P))
      by (apply selected_after_pass; assumption).
    fold f. apply map_ext_in. intros pre Hin.
    rewrite Forall_forall in Hres. specialize (Hres pre Hin).
    assert (Hlang : hasLang (restore (if hasLang pre
                                      then formatBlock parseHTML pre cols f
                                      else pre)) = hasLang pre).
    { unfold hasLang. rewrite dataLang_restore.
      destruct (dataLang pre) eqn:E; [|now rewrite E].
      now rewrite dataLang_formatBlock, E. }
    rewrite Hlang. destruct (hasLang pre); [|exact Hres].
    rewrite <- Hres. apply formatBlock_twice.
Qed.

(** C9.  A block tagged [asm], [nasm] or [gas], in any letter case, comes
    out of [formatBlock] as it went in, markup and attributes, at every
    width and factor. *)
Theorem formatBlock_skips_assembly pre cols factor :
  In (langOf pre) SKIP_LANGS ->
  formatBlock parseHTML pre cols factor = pre.
Proof.
  intros H. apply formatBlock_skipped. now apply hasKey_own.
Qed.

(** C4.  [formatBlock] either leaves a block as it is or replaces its
    markup and leaves it with a snapshot: the one it had, or its markup
    before the pass if it had none.  Restoring gives that pristine markup
    back, and a restore and a second pass at the same width give the block
    the first pass gave; from a pristine block, this is the single pass.  So
    does a whole page: a second pass of [formatAll] at the same width,
    restore and shared factor included, leaves the page of the first. *)
Theorem formatBlock_reversible l c h page cols factor :
  (formatBlock parseHTML (mkPre l (Some c)) cols factor = mkPre l (Some c)
   \/ exists out,
        formatBlock parseHTML (mkPre l (Some c)) cols factor
        = mkPre l (Some (mkCode out (Some (pristine c)))))
  /\ markupOf (restore (formatBlock parseHTML (mkPre l (Some c)) cols factor))
     = Some (pristine c)
  /\ formatBlock parseHTML
       (restore (formatBlock parseHTML (restore (mkPre l (Some c)))
                   cols factor)) cols factor
     = formatBlock parseHTML (restore (mkPre l (Some c))) cols factor
  /\ formatBlock parseHTML
       (restore (formatBlock parseHTML (mkPre l (Some (mkCode h None)))
                   cols factor)) cols factor
     = formatBlock parseHTML (mkPre l (Some (mkCode h None))) cols factor
  /\ formatPass parseHTML
       (restoreAll (formatPass parseHTML (restoreAll page) cols)) cols
     = formatPass parseHTML (restoreAll page) cols.
Proof.
  conjs.
  - apply formatBlock_cases.
  - destruct (formatBlock_cases l c cols factor) as [E | (out & E)];
      rewrite E, restore_code; reflexivity.
  - apply formatBlock_twice.
  - apply (formatBlock_twice (mkPre l (Some (mkCode h None)))).
  - apply formatPass_twice.
Qed.

End BlockProperties.

Lemma formatBlock_skips_assembly_witness :
  let pre := mkPre (Some (lit "NASM"))
               (Some (mkCode (lit "mov  eax, 1") None)) in
  In (langOf pre) SKIP_LANGS /\
  formatBlock (fun _ => []) pre 20 1 = pre.
Proof.
  intros pre.
  assert (H : In (langOf pre) SKIP_LANGS) by (vm_compute; tauto).
  exact (conj H (formatBlock_skips_assembly (fun _ => []) pre 20 1 H)).
Defined.

(** ** Chunk scanner *)

Section Scanner.

Variable t : str.
Variable rules : list Rule.
Variables floor maxCols : Z.
Variable init : PS.
Hypothesis rules_good : forallb goodRule rules = true.

Lemma indices_S n : indices (S n) = indices n ++ [Z.of_nat n].
Proof. unfold indices. now rewrite seq_S, map_app. Qed.

Lemma scanUpTo_S n :
  scanUpTo t rules floor maxCols init (S n)
  = scanStep t rules floor maxCols
      (scanUpTo t rules floor maxCols init n) (Z.of_nat n).
Proof. unfold scanUpTo. now rewrite indices_S, fold_left_app. Qed.

Lemma charIs_true u i c :
  charIs u i c = true -> 0 <= i /\ nth_error u (Z.to_nat i) = Some c.
Proof.
  unfold charIs, charAt. destruct (Z.ltb_spec i 0) as [Hneg | Hpos];
    [discriminate|].
  destruct (nth_error u (Z.to_nat i)) as [x|]; [|discriminate].
  intros Heq. apply Ascii.eqb_eq in Heq. now subst.
Qed.

Lemma patMatches_chars p : forall i k,
  0 <= i -> 0 <= k -> patMatches t i k p = true ->
  forall j, (j < length p)%nat ->
  nth_error t (Z.to_nat (i + k) + j) = nth_error p j.
Proof.
  induction p as [|x p IH]; intros i k Hi Hk H j Hj; simpl in *; [lia|].
  apply andb_prop in H. destruct H as [Hc Hp].
  apply charIs_true in Hc. destruct Hc as [_ Hc].
  destruct j as [|j]; simpl.
  - now rewrite Nat.add_0_r.
  - rewrite <- (IH i (k + 1) Hi ltac:(lia) Hp j ltac:(lia)).
    f_equal. lia.
Qed.

Lemma quoteAt_run m : forall n,
  quoteAt t n = None ->
  (forall j, (j < m)%nat ->
     exists c, nth_error t (n + j) = Some c /\ isQuote c = false) ->
  quoteAt t (n + m) = None.
Proof.
  induction m as [|m IH]; intros n H0 H.
  - now rewrite Nat.add_0_r.
  - rewrite Nat.add_succ_r. simpl.
    destruct (H m ltac:(lia)) as (c & Hc & Hq).
    rewrite Hc, IH; [now rewrite Hq | assumption |].
    intros j Hj. apply H. lia.
Qed.

Lemma lastOpened_run m : forall n,
  (forall j, (j < m)%nat ->
     exists c, nth_error t (n + j) = Some c /\ isOpener c = false) ->
  lastOpened t (n + m) = lastOpened t n.
Proof.
  induction m as [|m IH]; intros n H.
  - now rewrite Nat.add_0_r.
  - rewrite Nat.add_succ_r. simpl.
    destruct (H m ltac:(lia)) as (c & Hc & Ho).
    unfold openerAt. rewrite Hc, Ho, andb_false_r.
    apply IH. intros j Hj. apply H. lia.
Qed.

Lemma lastOpened_quoted n :
  quoted t n = true -> lastOpened t (S n) = lastOpened t n.
Proof. intros H. simpl. unfold openerAt. now rewrite H. Qed.

Lemma psAt_quoted s n :
  quoted t n = true -> psAt t init s n -> psAt t init s (S n).
Proof.
  intros Hq H Hi. destruct (H Hi) as [Hok Hc]. split; [assumption|].
  unfold lastOpenedOr in *. now rewrite lastOpened_quoted.
Qed.

Lemma bracketStep_inv prev n c :
  nth_error t n = Some c -> quoteAt t n = None -> isQuote c = false ->
  psAt t init prev n ->
  psAt t init (bracketStep prev (Z.of_nat n) c) (S n).
Proof.
  intros Hc Hq Hnq H Hi. destruct (H Hi) as [(Hd & Hcol & Hge) Hlast].
  unfold bracketStep, lastOpenedOr in *. simpl lastOpened.
  unfold openerAt, quoted. rewrite Hq, Hc, Hnq. simpl negb. simpl andb.
  destruct (isOpener c).
  - unfold ps_ok. simpl. repeat split; lia.
  - destruct (isCloser c).
    + destruct (Z.leb_spec (depth prev - 1) 0) as [Hz | Hp].
      * unfold ps_ok. simpl. repeat split; lia.
      * unfold ps_ok. simpl.
        split; [repeat split; lia | intros Hd2; apply Hlast; lia].
    + split; [unfold ps_ok; tauto | assumption].
Qed.

(** A closer met at depth 0 or 1 leaves depth 0 and column -1. *)
Lemma bracketStep_closes s i c :
  isOpener c = false -> isCloser c = true -> depth s <= 1 ->
  bracketStep s i c = mkPS 0 (-1).
Proof.
  intros Ho Hc Hd. unfold bracketStep. rewrite Ho, Hc.
  destruct (Z.leb_spec (depth s - 1) 0); [reflexivity | lia].
Qed.

Lemma ruleStep_inv n c prev r b bps ls :
  nth_error t n = Some c -> quoteAt t n = None -> isQuote c = false ->
  goodRule r = true ->
  psAt t init prev n ->
  bestInv t floor maxCols init b bps ->
  let '(b', bps', _) :=
    ruleStep t floor maxCols (Z.of_nat n) prev
      (bracketStep prev (Z.of_nat n) c) (b, bps, ls) r in
  bestInv t floor maxCols init b' bps'.
Proof.
  intros Hc Hq Hnq Hr Hprev Hbest.
  pose proof (bracketStep_inv prev n c Hc Hq Hnq Hprev) as Hnow.
  unfold ruleStep.
  destruct (ruleMatches t (Z.of_nat n) r) eqn:Hm; simpl negb; cbv iota;
    [|assumption].
  match goal with |- context [if ?g then _ else _] =>
    destruct g eqn:Hbound; [assumption|] end.
  match goal with |- context [if ?g then _ else _] =>
    destruct g; [assumption|] end.
  match goal with |- context [if ?g then _ else _] =>
    destruct g eqn:Hnew; [|assumption] end.
  apply orb_false_elim in Hbound. destruct Hbound as [Hfl Hlen].
  apply andb_prop in Hnew. destruct Hnew as [Hmax _].
  apply Z.leb_gt in Hfl. apply Z.leb_gt in Hlen. apply Z.leb_le in Hmax.
  unfold ruleMatches in Hm. unfold goodRule in Hr.
  destruct (pat r) as [|x rest] eqn:Hpat; [discriminate|].
  pose proof (patMatches_chars (x :: rest) (Z.of_nat n) 0
                ltac:(lia) ltac:(lia) Hm) as Hchars.
  rewrite Z.add_0_r, Nat2Z.id in Hchars.
  assert (Hx : c = x).
  { specialize (Hchars O ltac:(simpl; lia)). rewrite Nat.add_0_r in Hchars.
    simpl in Hchars. congruence. }
  subst x. pose proof (len_nonneg (c :: rest)) as Hl.
  unfold bestInv, goodBreak.
  destruct (mode r).
  - (* After *)
    apply andb_prop in Hr. destruct Hr as [_ Hrest].
    rewrite forallb_forall in Hrest.
    assert (Hto : Z.to_nat (Z.of_nat n + len (c :: rest))
                  = (n + length (c :: rest))%nat) by (unfold len; lia).
    rewrite Hto. split; [lia|]. split; [lia|]. split; [lia|]. split.
    + apply quoteAt_run; [assumption|]. intros j Hj.
      rewrite Hchars by assumption. destruct j as [|j]; simpl.
      * now exists c.
      * simpl in Hj. destruct (nth_error rest j) as [y|] eqn:Hy.
        -- exists y. split; [reflexivity|].
           apply nth_error_In in Hy. apply Hrest in Hy.
           apply andb_prop in Hy. destruct Hy as [Hy _].
           now apply negb_true_iff in Hy.
        -- apply nth_error_None in Hy. lia.
    + intros Hi. destruct (Hnow Hi) as [Hok Hlast]. split; [assumption|].
      intros Hd. rewrite (Hlast Hd). unfold lastOpenedOr.
      replace (n + length (c :: rest))%nat with (S n + length rest)%nat
        by (simpl; lia).
      rewrite lastOpened_run; [reflexivity|]. intros j Hj.
      replace (S n + j)%nat with (n + S j)%nat by lia.
      rewrite Hchars by (simpl; lia). simpl.
      destruct (nth_error rest j) as [y|] eqn:Hy.
      * exists y. split; [reflexivity|].
        apply nth_error_In in Hy. apply Hrest in Hy.
        apply andb_prop in Hy. destruct Hy as [_ Hy].
        now apply negb_true_iff in Hy.
      * apply nth_error_None in Hy. lia.
  - (* Before *)
    rewrite Nat2Z.id. split; [lia|]. split; [lia|]. split; [lia|].
    split; [assumption|].
    destruct (singleIn isCloser (c :: rest)) eqn:Hsc; [exact Hprev|].
    simpl in Hr. apply andb_prop in Hr. destruct Hr as [Ho Hcl].
    apply negb_true_iff in Ho. apply negb_true_iff in Hcl.
    unfold bracketStep. rewrite Ho, Hcl. exact Hprev.
Qed.

Lemma ruleFold_inv n c prev :
  nth_error t n = Some c -> quoteAt t n = None -> isQuote c = false ->
  psAt t init prev n ->
  forall rs acc,
    forallb goodRule rs = true ->
    bestInv t floor maxCols init (fst (fst acc)) (snd (fst acc)) ->
    let res :=
      fold_left (ruleStep t floor maxCols (Z.of_nat n) prev
                   (bracketStep prev (Z.of_nat n) c)) rs acc in
    bestInv t floor maxCols init (fst (fst res)) (snd (fst res)).
Proof.
  intros Hc Hq Hnq Hprev.
  induction rs as [|r rs IH]; intros [[b bps] ls] Hrs Hacc; cbn [fold_left];
    [assumption|].
  simpl in Hrs. apply andb_prop in Hrs. destruct Hrs as [Hr Hrs].
  apply IH; [assumption|].
  pose proof (ruleStep_inv n c prev r b bps ls Hc Hq Hnq Hr Hprev Hacc) as HS.
  destruct (ruleStep t floor maxCols (Z.of_nat n) prev
              (bracketStep prev (Z.of_nat n) c) (b, bps, ls) r)
    as [[b' bps'] ls'].
  exact HS.
Qed.

Lemma escape_test n :
  (Z.of_nat n =? 0) || negb (charIs t (Z.of_nat n - 1) backslash)
  = negb (escapedAt t n).
Proof.
  destruct n as [|n]; [reflexivity|].
  replace (Z.of_nat (S n) - 1) with (Z.of_nat n) by lia.
  destruct (Z.eqb_spec (Z.of_nat (S n)) 0); [lia|]. simpl orb.
  unfold charIs, escapedAt. now rewrite charAt_of_nat.
Qed.

Lemma scanStep_inv st n :
  (n < length t)%nat ->
  scanInv t floor maxCols init st n ->
  scanInv t floor maxCols init
    (scanStep t rules floor maxCols st (Z.of_nat n)) (S n).
Proof.
  intros Hn (Hq & Hps & Hbest).
  destruct (nth_error t n) as [c|] eqn:Hc;
    [|apply nth_error_None in Hc; lia].
  unfold scanStep. rewrite charAt_of_nat, Hc.
  unfold quoteInv in Hq.
  destruct (inStr st) eqn:Hin.
  - assert (Hquoted : quoted t n = true) by (unfold quoted; now rewrite Hq).
    rewrite escape_test.
    destruct (Ascii.eqb c (strChar st) && negb (escapedAt t n)) eqn:Hclose.
    + split; [|split]; simpl.
      * unfold quoteInv. simpl. now rewrite Hc, Hq, Hclose.
      * now apply psAt_quoted.
      * assumption.
    + split; [|split].
      * unfold quoteInv. simpl. now rewrite Hc, Hq, Hclose, Hin.
      * now apply psAt_quoted.
      * assumption.
  - change (Ascii.eqb c dquote || Ascii.eqb c squote) with (isQuote c).
    destruct (isQuote c) eqn:Hnq.
    + split; [|split]; simpl.
      * unfold quoteInv. simpl. now rewrite Hc, Hq, Hnq.
      * apply psAt_quoted; [|assumption].
        unfold quoted. now rewrite Hq, Hc.
      * assumption.
    + pose proof (ruleFold_inv n c (cur st) Hc Hq Hnq Hps rules
                    (best st, bestPs st, lastSepPos st) rules_good Hbest)
        as F.
      cbv zeta in F.
      destruct (fold_left
                  (ruleStep t floor maxCols (Z.of_nat n) (cur st)
                     (bracketStep (cur st) (Z.of_nat n) c)) rules
                  (best st, bestPs st, lastSepPos st)) as [[b' bps'] ls'].
      split; [|split]; simpl.
      * unfold quoteInv. simpl. now rewrite Hc, Hq, Hnq.
      * now apply bracketStep_inv.
      * exact F.
Qed.

Lemma scanUpTo_inv n :
  (n <= length t)%nat ->
  scanInv t floor maxCols init (scanUpTo t rules floor maxCols init n) n.
Proof.
  induction n as [|n IH]; intros Hn.
  - split; [reflexivity|]. split; [|reflexivity].
    intros Hi. split; [assumption | reflexivity].
  - rewrite scanUpTo_S. apply scanStep_inv; [lia|]. apply IH. lia.
Qed.

End Scanner.

Lemma rulesFor_good lang : forallb goodRule (rulesFor lang) = true.
Proof.
  unfold rulesFor, RULES.
  repeat match goal with
         | |- context [if ?g then _ else _] => destruct g
         end; reflexivity.
Qed.

(** [scanChunk] returns an eligible break, and returns one whenever its loop
    has found one. *)
Lemma scanChunk_good t lang floor maxCols init r :
  scanChunk t lang floor maxCols init = Some r ->
  goodBreak t floor maxCols init (bp r) (ps r).
Proof.
  unfold scanChunk. intros H.
  destruct (scanUpTo_inv t (rulesFor lang) floor maxCols init
              (rulesFor_good lang) (length t) (Nat.le_refl _))
    as (_ & _ & Hbest).
  destruct (best _ <? 0); [discriminate|].
  destruct (bestPs _) as [p|]; [|discriminate].
  injection H as <-. exact Hbest.
Qed.

Lemma scan_best_ps t lang floor maxCols init :
  let st := scanUpTo t (rulesFor lang) floor maxCols init (length t) in
  0 <= best st -> bestPs st <> None.
Proof.
  intros st Hb.
  destruct (scanUpTo_inv t (rulesFor lang) floor maxCols init
              (rulesFor_good lang) (length t) (Nat.le_refl _))
    as (_ & _ & Hbest).
  fold st in Hbest. unfold bestInv in Hbest.
  destruct (bestPs st); [discriminate | lia].
Qed.



(** ** Stripping and removing leading spaces *)


Lemma stripLeading_from_plain line :
  plain (stripLeading_from false line) = plain line /\
  plain (stripLeading_from true line) = dropSpaces (plain line).
Proof.
  induction line as [|seg rest [IHf IHt]]; [now split|]. split.
  - simpl. now rewrite !plain_cons, IHf.
  - simpl. rewrite plain_cons. unfold dropSpaces in *.
    pose proof (countSpaces_le (text seg)) as Hle.
    destruct (Z.ltb_spec (Z.of_nat (countSpaces (text seg))) (len (text seg)))
      as [Hlt | Hge].
    + rewrite plain_cons, IHf. simpl text.
      rewrite sliceFrom_suffix by (unfold len in *; lia).
      rewrite Nat2Z.id.
      rewrite countSpaces_app_short by (unfold len in *; lia).
      rewrite skipn_app.
      replace (countSpaces (text seg) - length (text seg))%nat with O by lia.
      reflexivity.
    + rewrite IHt.
      rewrite countSpaces_app_full by (unfold len in *; lia).
      rewrite skipn_app.
      rewrite (@skipn_all2 _ _ (text seg)) by lia.
      simpl. f_equal. lia.
Qed.

Lemma stripLeading_plain line :
  plain (stripLeading line) = dropSpaces (plain line).
Proof. apply stripLeading_from_plain. Qed.

Lemma prependPad_plain line n :
  plain (prependPad line n) = spaces n ++ dropSpaces (plain line).
Proof.
  unfold prependPad. now rewrite plain_cons, stripLeading_plain.
Qed.

Lemma removeNSpaces_from_id rem line :
  rem <= 0 -> removeNSpaces_from rem line = line.
Proof.
  intros H. induction line as [|seg rest IH]; simpl; [reflexivity|].
  destruct (Z.ltb_spec 0 rem); [lia|]. now rewrite IH.
Qed.

Lemma removeNSpaces_from_plain line : forall rem,
  0 <= rem <= Z.of_nat (countSpaces (plain line)) ->
  plain (removeNSpaces_from rem line) = skipn (Z.to_nat rem) (plain line).
Proof.
  induction line as [|seg rest IH]; intros rem H.
  - simpl. now rewrite skipn_nil.
  - simpl removeNSpaces_from. rewrite plain_cons in *.
    destruct (Z.ltb_spec 0 rem) as [Hpos | Hzero].
    + rewrite cutSpaces_min.
      pose proof (countSpaces_le (text seg)) as Hle.
      set (cut := Nat.min (countSpaces (text seg)) (Z.to_nat rem)).
      rewrite sliceFrom_suffix by (unfold len; lia).
      rewrite Nat2Z.id.
      assert (Htail : plain (removeNSpaces_from (rem - Z.of_nat cut) rest)
                      = skipn (Z.to_nat rem - length (text seg)) (plain rest)
                      /\ skipn cut (text seg)
                         = skipn (Z.to_nat rem) (text seg)).
      { destruct (Nat.lt_ge_cases (countSpaces (text seg))
                    (length (text seg))) as [Hshort | Hfull].
        - rewrite countSpaces_app_short in H by assumption.
          assert (cut = Z.to_nat rem) by lia.
          rewrite removeNSpaces_from_id by lia.
          replace (Z.to_nat rem - length (text seg))%nat with O by lia.
          split; [reflexivity | congruence].
        - rewrite countSpaces_app_full in H by lia.
          destruct (Z.leb_spec rem (Z.of_nat (length (text seg))))
            as [Hin | Hout].
          + assert (cut = Z.to_nat rem) by lia.
            rewrite removeNSpaces_from_id by lia.
            replace (Z.to_nat rem - length (text seg))%nat with O by lia.
            split; [reflexivity | congruence].
          + assert (cut = length (text seg)) by lia.
            rewrite IH by lia. split; [f_equal; lia|].
            rewrite !skipn_all2 by lia. reflexivity. }
      destruct Htail as [Ht Hs].
      rewrite skipn_app, <- Hs, <- Ht.
      destruct ((0 <? len (skipn cut (text seg))) || truthy (open seg)) eqn:E.
      * now rewrite plain_cons.
      * apply orb_false_elim in E. destruct E as [E _].
        apply Z.ltb_ge in E.
        destruct (skipn cut (text seg)); [reflexivity|].
        rewrite len_cons in E. pose proof (len_nonneg l). lia.
    + assert (rem = 0) by lia. subst rem.
      rewrite removeNSpaces_from_id by lia. reflexivity.
Qed.

Lemma removeNSpaces_plain line n :
  n <= Z.of_nat (countSpaces (plain line)) ->
  plain (removeNSpaces line n) = skipn (Z.to_nat n) (plain line).
Proof.
  intros H. unfold removeNSpaces.
  destruct (Z.leb_spec n 0) as [Hneg | Hpos].
  - replace (Z.to_nat n) with O by lia. reflexivity.
  - apply removeNSpaces_from_plain. lia.
Qed.

(** ** Line breaker *)

Lemma tryBreak_inv cols budget lang indent fb s rem st :
  tryBreak cols budget lang indent fb s rem = Some st ->
  exists r,
    scanChunk (plain rem) lang (Z.max 0 (searchNonWhite (plain rem))) budget s
      = Some r /\
    budget < len (plain rem) /\ bp r < len (plain rem) - 1 /\
    before st = fst (splitAt rem (bp r)) /\
    after st = snd (splitAt rem (bp r)) /\
    stepPs st = ps r /\ stepSep st = hasArgSep r /\
    stepRem st = prependPad (after st) (stepCi st) /\
    stepCi st
    = (let ci := continuationIndent (ps r) (depth s) indent fb cols in
       if (0 <? depth (ps r)) && (fb <? ci) && negb (hasArgSep r)
       then Z.min fb (sar1 cols) else ci).
Proof.
  unfold tryBreak.
  destruct (Z.leb_spec (len (plain rem)) budget) as [Hfit | Hover];
    [discriminate|].
  destruct (scanChunk (plain rem) lang (Z.max 0 (searchNonWhite (plain rem)))
              budget s) as [r|]; [|discriminate].
  destruct (Z.leb_spec (len (plain rem) - 1) (bp r)) as [Hend | Hin];
    [discriminate|].
  intros H. injection H as <-. exists r. simpl.
  conjs; try assumption; reflexivity.
Qed.

(** An accepted break cuts the remainder at an eligible offset. *)
Lemma tryBreak_split cols budget lang indent fb s rem st :
  tryBreak cols budget lang indent fb s rem = Some st ->
  exists b,
    0 < b /\ Z.max 0 (searchNonWhite (plain rem)) < b /\ b <= budget /\
    b < len (plain rem) - 1 /\
    plain (before st) = firstn (Z.to_nat b) (plain rem) /\
    plain (after st) = skipn (Z.to_nat b) (plain rem) /\
    quoteAt (plain rem) (Z.to_nat b) = None /\
    psAt (plain rem) s (stepPs st) (Z.to_nat b).
Proof.
  intros H. apply tryBreak_inv in H.
  destruct H as (r & Hscan & Hover & Hend & Hb & Ha & Hps & _).
  apply scanChunk_good in Hscan.
  destruct Hscan as (Hfloor & Hrange & Hmax & Hq & Hpsat).
  destruct (splitAt_plain rem (bp r) ltac:(lia)) as (Sb & Sa & _).
  exists (bp r). rewrite Hb, Ha, Hps.
  conjs; try assumption; lia.
Qed.

Lemma tryBreak_chunk cols budget lang indent fb s rem st :
  tryBreak cols budget lang indent fb s rem = Some st ->
  chunkOf st = plain rem /\
  0 < len (plain (before st)) <= budget /\
  len (plain (before st)) < len (plain rem) - 1 /\
  psAt (plain rem) s (stepPs st) (length (plain (before st))).
Proof.
  intros H. apply tryBreak_split in H.
  destruct H as (b & Hpos & _ & Hmax & Hend & Hb & Ha & _ & Hps).
  assert (Hlen : length (plain (before st)) = Z.to_nat b).
  { rewrite Hb, length_firstn. unfold len in *. lia. }
  unfold chunkOf, len. rewrite Hlen.
  conjs; try (unfold len in *; lia); try assumption.
  rewrite Hb, Ha. apply firstn_skipn.
Qed.

Lemma breakTrace_chain cols budget lang indent fb splits :
  forall s rem prevLen steps final,
    breakTrace splits cols budget lang indent fb s rem prevLen
      = (steps, final) ->
    Chain cols budget lang indent fb s rem steps final.
Proof.
  induction splits as [|splits IH]; intros s rem prevLen steps final H;
    simpl in H.
  - injection H as <- <-. constructor.
  - destruct (tryBreak cols budget lang indent fb s rem) as [st|] eqn:Htry.
    + destruct (prevLen <=? len (plain (stepRem st))).
      * injection H as <- <-. econstructor; [eassumption | constructor].
      * destruct (breakTrace splits cols budget lang indent fb (stepPs st)
                    (stepRem st) (len (plain (stepRem st))))
          as [steps' final'] eqn:Hrec.
        injection H as <- <-. econstructor; [eassumption|].
        eapply IH. eassumption.
    + injection H as <- <-. constructor.
Qed.

Lemma breakSteps_chain line cols lang steps final :
  breakSteps line cols lang = Some (steps, final) ->
  Chain cols (budgetFor cols lang) lang (leadingSpaces line)
    (defaultContIndent lang (plain line) (leadingSpaces line))
    (mkPS 0 (-1)) line steps final.
Proof.
  unfold breakSteps.
  destruct (len (plain line) <=? budgetFor cols lang); [discriminate|].
  intros H.
  eapply breakTrace_chain
    with (splits := MAX_SPLITS) (prevLen := len (plain line)).
  congruence.
Qed.

(** The rendered pieces of [breakLine] are the accepted breaks of
    [breakSteps], each first half rendered and followed by the marker, and
    the rendered last remainder. *)
Lemma breakLoop_trace cols budget lang ab indent fb splits :
  forall s rem prevLen,
    breakLoop splits cols budget lang ab indent fb s rem prevLen
    = (map (fun st => toHTML (before st) ++ marker ab)
         (fst (breakTrace splits cols budget lang indent fb s rem prevLen)),
       snd (breakTrace splits cols budget lang indent fb s rem prevLen)).
Proof.
  induction splits as [|splits IH]; intros s rem prevLen; simpl;
    [reflexivity|].
  destruct (tryBreak cols budget lang indent fb s rem) as [st|];
    [|reflexivity].
  destruct (prevLen <=? len (plain (stepRem st))); [reflexivity|].
  rewrite IH.
  destruct (breakTrace splits cols budget lang indent fb (stepPs st)
              (stepRem st) (len (plain (stepRem st)))) as [steps final].
  reflexivity.
Qed.

Lemma breakLine_trace line cols lang :
  breakLine line cols lang
  = match breakSteps line cols lang with
    | Some (st :: steps, final) =>
        Some (join [newline]
                (map (fun st => toHTML (before st)
                                ++ marker (hasKey BACKSLASH_LANGS lang))
                   (st :: steps) ++ [toHTML final]))
    | _ => None
    end.
Proof.
  unfold breakLine, breakSteps.
  destruct (len (plain line) <=? budgetFor cols lang); [reflexivity|].
  rewrite breakLoop_trace.
  destruct (breakTrace MAX_SPLITS cols (budgetFor cols lang) lang
              (leadingSpaces line)
              (defaultContIndent lang (plain line) (leadingSpaces line))
              (mkPS 0 (-1)) line (len (plain line))) as [[|st steps] final];
    reflexivity.
Qed.

Lemma ps_ok_init : ps_ok (mkPS 0 (-1)).
Proof. unfold ps_ok. simpl. repeat split; lia. Qed.

Lemma chain_budget cols budget lang indent fb s rem steps final :
  Chain cols budget lang indent fb s rem steps final ->
  Forall (fun st => 0 < len (plain (before st)) <= budget) steps.
Proof.
  induction 1 as [|s rem st steps final Htry Hchain IH]; constructor;
    [|assumption].
  now destruct (tryBreak_chunk _ _ _ _ _ _ _ _ Htry) as (_ & ? & _).
Qed.

Lemma budgetFor_le cols lang : budgetFor cols lang <= cols.
Proof.
  unfold budgetFor, BACKSLASH_RESERVE.
  destruct (hasKey BACKSLASH_LANGS lang); lia.
Qed.

Lemma printable_budget cols lang l :
  len (plain l) <= budgetFor cols lang -> printable lang l <= cols.
Proof.
  unfold printable, budgetFor, marker, BACKSLASH_RESERVE.
  rewrite len_app. destruct (hasKey BACKSLASH_LANGS lang); cbn; lia.
Qed.

Lemma last_cons {A} (l : list A) : forall a d, last (a :: l) d = last l a.
Proof.
  induction l as [|x l IH]; intros a d; [reflexivity|].
  change (last (a :: x :: l) d) with (last (x :: l) d).
  now rewrite (IH x d), (IH x a).
Qed.

Lemma sar1_bounds cols :
  0 <= cols < 2 ^ 31 -> 0 <= sar1 cols /\ 2 * sar1 cols <= cols.
Proof.
  intros H. rewrite sar1_half by assumption.
  pose proof (Z.div_pos cols 2 ltac:(lia) ltac:(lia)).
  pose proof (Z.mul_div_le cols 2 ltac:(lia)). lia.
Qed.

Lemma defaultContIndent_nonneg lang u indent :
  0 <= indent -> 0 <= defaultContIndent lang u indent.
Proof.
  intros H. unfold defaultContIndent, LD_COLON_OFFSET, CONT_INDENT.
  destruct (str_eqb lang (lit "ld")); [|lia].
  destruct (Z.leb_spec 0 (indexOf u (lit ": "))); lia.
Qed.

(** The continuation indent of an accepted break, by the bracket state the
    scanner returns for it. *)
Lemma tryBreak_ci cols budget lang indent fb s rem st :
  tryBreak cols budget lang indent fb s rem = Some st ->
  ps_ok s -> 0 <= indent -> 0 <= fb -> budget <= cols -> cols < 2 ^ 31 ->
  0 <= stepCi st <= sar1 cols /\
  2 * stepCi st <= cols /\
  stepCi st
  = (if 0 <? depth (stepPs st)
     then if stepSep st
          then Z.min (col (stepPs st) + PAREN_OFFSET) (sar1 cols)
          else Z.min fb (Z.min (col (stepPs st) + PAREN_OFFSET) (sar1 cols))
     else Z.min (if 0 <? depth s then indent else fb) (sar1 cols)).
Proof.
  intros Htry Hok Hind Hfb Hbud Hcols.
  destruct (tryBreak_chunk _ _ _ _ _ _ _ _ Htry) as (_ & Hlen & _ & Hps).
  destruct (Hps Hok) as [(Hd & Hcol & Hge) _].
  apply tryBreak_inv in Htry.
  destruct Htry as (r & _ & _ & _ & _ & _ & Epsr & Esep & _ & Eci).
  rewrite <- Epsr, <- Esep in Eci. clear Epsr Esep r.
  destruct (sar1_bounds cols ltac:(lia)) as [Hs0 Hs2].
  unfold continuationIndent, PAREN_OFFSET in *.
  cbv zeta in Eci.
  destruct (Z.ltb_spec 0 (depth (stepPs st))) as [Hin | Hout].
  - assert (Hc0 : 0 <= col (stepPs st)) by lia.
    destruct (Z.leb_spec 0 (col (stepPs st))); [|lia]. simpl andb in Eci.
    destruct (Z.ltb_spec fb (Z.min (col (stepPs st) + 1) (sar1 cols)))
      as [Hdeep | Hshallow];
      destruct (stepSep st); simpl in Eci; rewrite Eci; conjs; lia.
  - simpl andb in Eci. cbv iota in Eci.
    destruct (Z.ltb_spec 0 (depth s)) as [Hs | Hs].
    + destruct (Z.eqb_spec (depth (stepPs st)) 0) as [_ | Hne]; [|lia].
      simpl andb in Eci. rewrite Eci. conjs; lia.
    + simpl andb in Eci. rewrite Eci. conjs; lia.
Qed.

(** The continuation indent passed to [prependPad] is never negative. *)
Lemma tryBreak_ci_nonneg cols budget lang indent fb s rem st :
  tryBreak cols budget lang indent fb s rem = Some st ->
  ps_ok s -> 0 <= indent -> 0 <= fb -> budget <= cols -> cols < 2 ^ 31 ->
  0 <= stepCi st.
Proof.
  intros Htry Hok Hind Hfb Hbud Hcols.
  now destruct (tryBreak_ci _ _ _ _ _ _ _ _ Htry Hok Hind Hfb Hbud Hcols)
    as [[? _] _].
Qed.

(** ** Content of a continuation chain *)










(** ** Indent compression *)

Lemma countSpaces_nth u : forall i,
  (i < countSpaces u)%nat -> nth_error u i = Some space.
Proof.
  induction u as [|c u IH]; intros i H; simpl in H; [lia|].
  destruct (isSpace c) eqn:E; [|lia].
  unfold isSpace in E. apply Ascii.eqb_eq in E. subst c.
  destruct i as [|i]; [reflexivity|]. simpl. apply IH. lia.
Qed.

Lemma contentAt_past_spaces u sp :
  contentAt u sp = true -> Z.of_nat (countSpaces u) <= sp.
Proof.
  unfold contentAt, charAt. destruct (Z.ltb_spec sp 0); [discriminate|].
  destruct (Z.le_gt_cases (Z.of_nat (countSpaces u)) sp) as [?|Hlt];
    [easy|].
  rewrite (countSpaces_nth u (Z.to_nat sp)) by lia. discriminate.
Qed.

Lemma hasPrevContent_contentAt st po sp :
  0 <= sp -> prevOrig st = Some po ->
  hasPrevContent st sp = contentAt po sp.
Proof.
  intros Hsp Hpo. unfold hasPrevContent, contentAt, charIs. rewrite Hpo.
  rewrite charAt_nth by assumption.
  destruct (Z.ltb_spec sp (len po)) as [Hin | Hout].
  - destruct (nth_error po (Z.to_nat sp)) eqn:E; [reflexivity|].
    apply nth_error_None in E. unfold len in Hin. lia.
  - destruct (nth_error po (Z.to_nat sp)) eqn:E; [|reflexivity].
    assert (nth_error po (Z.to_nat sp) <> None) as Hn by congruence.
    apply nth_error_Some in Hn. unfold len in Hout. lia.
Qed.

Lemma alignedAt_S step lines j :
  alignedAt step lines (S j)
  = match nth_error lines j, nth_error lines (S j) with
    | Some prev, Some line =>
        (0 <? leadingSpaces line)
        && contentAt (plain prev) (leadingSpaces line)
        && ((step <? leadingSpaces line - leadingSpaces prev)
            || alignedAt step lines j)
    | _, _ => false
    end.
Proof. reflexivity. Qed.

Section IndentLoop.

Variable step : Z.
Variable factor : Q.
Variable lines : list Line.
Hypothesis step_pos : 0 < step.
Hypothesis lines_spaces : Forall spaceIndented lines.

Lemma spaceIndented_nth j line :
  nth_error lines j = Some line -> spaceIndented line.
Proof.
  intros H. apply nth_error_In in H.
  rewrite Forall_forall in lines_spaces. now apply lines_spaces.
Qed.

(** The test of the loop is the classification of the specification. *)
Lemma isAligned_alignedAt k st line :
  indentStAt step factor lines k st ->
  nth_error lines k = Some line ->
  0 < leadingSpaces line ->
  isAligned step st (leadingSpaces line) = alignedAt step lines k.
Proof.
  intros Hst Hline Hsp. destruct k as [|j].
  - simpl in Hst. subst st. reflexivity.
  - destruct Hst as (prev & Hprev & ->). rewrite alignedAt_S.
    rewrite Hprev, Hline. unfold isAligned.
    rewrite (hasPrevContent_contentAt _ (plain prev)) by (simpl; lia || easy).
    simpl prevSp. simpl prevAligned.
    destruct (Z.ltb_spec 0 (leadingSpaces line)); [|lia]. simpl andb.
    destruct (contentAt (plain prev) (leadingSpaces line)) eqn:Hc;
      [|reflexivity].
    apply contentAt_past_spaces in Hc.
    pose proof (spaceIndented_nth _ _ Hprev) as Hsi. unfold spaceIndented in Hsi.
    simpl andb.
    destruct (Z.leb_spec (leadingSpaces prev) (leadingSpaces line)); [|lia].
    rewrite andb_true_r.
    destruct (Z.ltb_spec step (leadingSpaces line - leadingSpaces prev));
      [|now rewrite andb_false_r].
    destruct (Z.ltb_spec (leadingSpaces prev) (leadingSpaces line)); [|lia].
    reflexivity.
Qed.

Lemma removeNSpaces_nonpos line n : n <= 0 -> removeNSpaces line n = line.
Proof.
  intros H. unfold removeNSpaces. destruct (Z.leb_spec n 0); [easy | lia].
Qed.

Lemma alignedAt_indented j line :
  nth_error lines j = Some line -> leadingSpaces line <= 0 ->
  alignedAt step lines j = false.
Proof.
  intros Hline Hsp. destruct j as [|j]; [reflexivity|].
  rewrite alignedAt_S, Hline. destruct (nth_error lines j); [|reflexivity].
  destruct (Z.ltb_spec 0 (leadingSpaces line)); [lia | reflexivity].
Qed.

(** One turn of the loop writes the line with [removalAt] spaces off. *)
Lemma indentLine_spec k st line :
  indentStAt step factor lines k st ->
  nth_error lines k = Some line ->
  fst (fst (indentLine step factor st line))
  = removeNSpaces line (removalAt step factor lines k) /\
  indentStAt step factor lines (S k) (snd (indentLine step factor st line)).
Proof.
  intros Hst Hline. unfold indentLine.
  change (Z.max 0 (searchNonWhite (plain line))) with (leadingSpaces line).
  assert (Hrem : removalAt step factor lines k
                 = if alignedAt step lines k
                   then match k with
                        | O => 0
                        | S j => removalAt step factor lines j
                        end
                   else structuralRemoval factor lines k).
  { destruct k; [reflexivity|]. reflexivity. }
  destruct (Z.ltb_spec 0 (leadingSpaces line)) as [Hpos | Hzero].
  - rewrite (isAligned_alignedAt k st line Hst Hline Hpos).
    assert (Hremove :
              (if alignedAt step lines k then prevRemoved st
               else leadingSpaces line
                    - jsRound (inject_Z (leadingSpaces line) * factor))
              = removalAt step factor lines k).
    { rewrite Hrem. unfold structuralRemoval. rewrite Hline.
      destruct (Z.ltb_spec 0 (leadingSpaces line)); [|lia].
      destruct (alignedAt step lines k) eqn:Ha; [|reflexivity].
      destruct k as [|j]; [discriminate|].
      destruct Hst as (prev & _ & ->). reflexivity. }
    rewrite Hremove. simpl. split.
    + destruct (Z.ltb_spec 0 (removalAt step factor lines k));
        [reflexivity|].
      now rewrite removeNSpaces_nonpos.
    + exists line. split; [assumption | reflexivity].
  - simpl. split.
    + rewrite Hrem, (alignedAt_indented k line Hline Hzero).
      unfold structuralRemoval. rewrite Hline.
      destruct (Z.ltb_spec 0 (leadingSpaces line)); [lia|].
      now rewrite removeNSpaces_nonpos.
    + exists line. split; [assumption|].
      rewrite (alignedAt_indented k line Hline Hzero).
      rewrite Hrem, (alignedAt_indented k line Hline Hzero).
      unfold structuralRemoval. rewrite Hline.
      destruct (Z.ltb_spec 0 (leadingSpaces line)); [lia|].
      replace (leadingSpaces line) with 0
        by (pose proof (leadingSpaces_nonneg line); lia).
      reflexivity.
Qed.

Lemma indentLoop_spec rest : forall k st,
  skipn k lines = rest ->
  indentStAt step factor lines k st ->
  forall i line,
    nth_error rest i = Some line ->
    nth_error (fst (indentLoop step factor st rest)) i
    = Some (removeNSpaces line (removalAt step factor lines (k + i))).
Proof.
  induction rest as [|l rest IH]; intros k st Hskip Hst i line Hi.
  - destruct i; discriminate.
  - assert (Hk : nth_error lines k = Some l).
    { rewrite <- (Nat.add_0_r k), <- nth_error_skipn, Hskip. reflexivity. }
    assert (Hskip' : skipn (S k) lines = rest).
    { change (S k) with (1 + k)%nat. now rewrite <- skipn_skipn, Hskip. }
    destruct (indentLine_spec k st l Hst Hk) as [Hout Hst'].
    simpl indentLoop.
    destruct (indentLine step factor st l) as [[l' ch] st'].
    simpl in Hout, Hst'.
    specialize (IH (S k) st').
    destruct (indentLoop step factor st' rest) as [rest' ch'].
    simpl fst in *.
    destruct i as [|i]; simpl in *.
    + injection Hi as <-. rewrite Nat.add_0_r. now rewrite Hout.
    + rewrite Nat.add_succ_r. now apply IH.
Qed.

End IndentLoop.

Lemma removalAt_S step factor lines j :
  removalAt step factor lines (S j)
  = if alignedAt step lines (S j) then removalAt step factor lines j
    else structuralRemoval factor lines (S j).
Proof. reflexivity. Qed.

Lemma jsRound_nonneg q : (0 <= q)%Q -> 0 <= jsRound q.
Proof.
  intros H. unfold jsRound.
  change 0 with (Qfloor 0). apply Qfloor_resp_le.
  apply Qle_trans with q; [assumption|].
  rewrite <- (Qplus_0_r q) at 1. apply Qplus_le_r. discriminate.
Qed.

Lemma structuralRemoval_le factor lines j line :
  (0 <= factor)%Q ->
  nth_error lines j = Some line ->
  structuralRemoval factor lines j <= leadingSpaces line.
Proof.
  intros Hf Hline. unfold structuralRemoval. rewrite Hline.
  destruct (Z.ltb_spec 0 (leadingSpaces line)) as [Hpos | Hzero];
    [|apply leadingSpaces_nonneg].
  assert (0 <= jsRound (inject_Z (leadingSpaces line) * factor)); [|lia].
  apply jsRound_nonneg. apply Qmult_le_0_compat; [|assumption].
  change 0%Q with (inject_Z 0). rewrite <- Zle_Qle. lia.
Qed.

Lemma alignedAt_true step lines j cur :
  Forall spaceIndented lines ->
  nth_error lines (S j) = Some cur ->
  alignedAt step lines (S j) = true ->
  exists prev,
    nth_error lines j = Some prev /\
    leadingSpaces prev <= leadingSpaces cur /\ 0 < leadingSpaces cur.
Proof.
  intros Hsp Hcur H. rewrite alignedAt_S, Hcur in H.
  destruct (nth_error lines j) as [prev|] eqn:Hprev; [|discriminate].
  apply andb_prop in H. destruct H as [H _].
  apply andb_prop in H. destruct H as [Hpos Hc].
  apply Z.ltb_lt in Hpos. apply contentAt_past_spaces in Hc.
  pose proof (spaceIndented_nth lines Hsp j prev Hprev) as Hsi.
  unfold spaceIndented in Hsi.
  exists prev. conjs; [reflexivity | lia | assumption].
Qed.

Lemma removalAt_le step factor lines :
  Forall spaceIndented lines -> (0 <= factor)%Q ->
  forall j line,
    nth_error lines j = Some line ->
    removalAt step factor lines j <= leadingSpaces line.
Proof.
  intros Hsp Hf. induction j as [|j IH]; intros line Hline.
  - now apply structuralRemoval_le.
  - rewrite removalAt_S.
    destruct (alignedAt step lines (S j)) eqn:Ha;
      [|now apply structuralRemoval_le].
    destruct (alignedAt_true step lines j line Hsp Hline Ha)
      as (prev & Hprev & Hle & _).
    specialize (IH prev Hprev). lia.
Qed.

Lemma applyIndentFactor_nth lines factor j line :
  Forall spaceIndented lines ->
  nth_error lines j = Some line ->
  nth_error (fst (applyIndentFactor lines factor)) j
  = Some (removeNSpaces line
            (removalAt (detectIndentStep lines) factor lines j)).
Proof.
  intros Hsp Hline.
  change (applyIndentFactor lines factor)
    with (indentLoop (detectIndentStep lines) factor initIndentSt lines).
  apply (indentLoop_spec (detectIndentStep lines) factor lines
           (detectIndentStep_pos lines) Hsp lines O initIndentSt);
    [reflexivity | reflexivity | assumption].
Qed.

Lemma alignment_kept lines factor :
  Forall spaceIndented lines -> (0 <= factor)%Q ->
  alignmentKept lines factor.
Proof.
  intros Hsp Hf i prev cur Hprev Hcur Ha.
  exists (removalAt (detectIndentStep lines) factor lines i).
  destruct (alignedAt_true _ lines i cur Hsp Hcur Ha)
    as (prev' & Hprev' & Hle & _).
  assert (prev' = prev) by congruence. subst prev'.
  pose proof (removalAt_le (detectIndentStep lines) factor lines Hsp Hf
                i prev Hprev) as Hr.
  pose proof (spaceIndented_nth lines Hsp i prev Hprev) as Sp.
  pose proof (spaceIndented_nth lines Hsp (S i) cur Hcur) as Sc.
  unfold spaceIndented in Sp, Sc.
  conjs; try assumption.
  - now apply applyIndentFactor_nth.
  - rewrite (applyIndentFactor_nth lines factor (S i) cur Hsp Hcur).
    now rewrite removalAt_S, Ha.
  - apply removeNSpaces_plain. lia.
  - apply removeNSpaces_plain. lia.
Qed.

Lemma searchFrom_shift u : forall i,
  searchFrom i u
  = if searchFrom 0 u =? -1 then -1 else i + searchFrom 0 u.
Proof.
  induction u as [|c u IH]; intros i; simpl; [reflexivity|].
  destruct (isWhite c).
  - rewrite (IH (i + 1)), (IH 1).
    destruct (searchFrom_bound u 0) as [-> | Hb]; [reflexivity|].
    destruct (Z.eqb_spec (searchFrom 0 u) (-1)); [lia|].
    destruct (Z.eqb_spec (1 + searchFrom 0 u) (-1)); lia.
  - simpl. lia.
Qed.

Lemma searchFrom_spaces u : forall r i,
  (r <= countSpaces u)%nat ->
  searchFrom i u = searchFrom (i + Z.of_nat r) (skipn r u).
Proof.
  induction u as [|c u IH]; intros r i Hr; simpl in Hr.
  - replace r with O by lia. now rewrite Z.add_0_r.
  - destruct r as [|r]; [now rewrite Z.add_0_r|].
    destruct (isSpace c) eqn:E; [|lia].
    unfold isSpace in E. apply Ascii.eqb_eq in E. subst c.
    simpl. rewrite (IH r (i + 1)) by lia. f_equal. lia.
Qed.

Lemma leadingSpaces_removed line o r :
  spaceIndented line -> 0 < leadingSpaces line ->
  0 <= r <= leadingSpaces line ->
  plain o = skipn (Z.to_nat r) (plain line) ->
  leadingSpaces o = leadingSpaces line - r.
Proof.
  unfold spaceIndented, leadingSpaces, searchNonWhite.
  intros Hsi Hpos Hr Ho. rewrite Ho.
  pose proof (searchFrom_spaces (plain line) (Z.to_nat r) 0 ltac:(lia)) as A.
  rewrite (searchFrom_shift (skipn (Z.to_nat r) (plain line))) in A.
  destruct (searchFrom_bound (skipn (Z.to_nat r) (plain line)) 0)
    as [E | Hb].
  - rewrite E in A. simpl in A. lia.
  - destruct (Z.eqb_spec (searchFrom 0 (skipn (Z.to_nat r) (plain line)))
                (-1)); lia.
Qed.

Lemma jsRound_half sp :
  jsRound (inject_Z sp * (inject_Z 2 / inject_Z 4)) = (sp + 1) / 2.
Proof.
  unfold jsRound. rewrite (Qfloor_comp _ ((sp + 1) # 2)); [reflexivity|].
  unfold Qeq. simpl. lia.
Qed.

Lemma blockFactor_half lines cols :
  detectIndentStep lines = 4 -> cols < COMPRESS_AGGRESSIVE ->
  blockFactor lines cols = (inject_Z 2 / inject_Z 4)%Q.
Proof.
  unfold blockFactor, COMPRESS_AGGRESSIVE. intros -> Hc.
  unfold computeCompressedStep, COMPRESS_THRESHOLD, COMPRESS_AGGRESSIVE.
  destruct (Z.leb_spec 55 cols); [lia|].
  destruct (Z.ltb_spec cols 35); [|lia]. reflexivity.
Qed.

Lemma indent_at_least_unit lines j line :
  nth_error lines j = Some line -> 0 < leadingSpaces line ->
  detectIndentStep lines <= leadingSpaces line.
Proof.
  intros Hline Hpos.
  assert (Hin : In (leadingSpaces line) (positiveIndents lines)).
  { unfold positiveIndents. apply filter_In. split.
    - apply in_map. eapply nth_error_In. eassumption.
    - now apply Z.ltb_lt. }
  pose proof (detectIndentStep_unit lines) as Hu. unfold isIndentUnit in Hu.
  destruct (positiveIndents lines) as [|n ns] eqn:E; [contradiction|].
  destruct Hu as [_ Hall]. rewrite Forall_forall in Hall. now apply Hall.
Qed.

Lemma structural_halved lines cols :
  Forall spaceIndented lines ->
  detectIndentStep lines = 4 -> cols < COMPRESS_AGGRESSIVE ->
  structuralHalved lines (blockFactor lines cols).
Proof.
  intros Hsp Hstep Hcols j line Hline Hpos Ha.
  pose proof (indent_at_least_unit lines j line Hline Hpos) as Hunit.
  rewrite Hstep in Hunit.
  pose proof (spaceIndented_nth lines Hsp j line Hline) as Hsi.
  assert (Hr : removalAt (detectIndentStep lines) (blockFactor lines cols)
                 lines j = leadingSpaces line / 2).
  { assert (E : removalAt (detectIndentStep lines) (blockFactor lines cols)
                  lines j
                = structuralRemoval (blockFactor lines cols) lines j).
    { destruct j as [|j]; [reflexivity|]. now rewrite removalAt_S, Ha. }
    rewrite E. unfold structuralRemoval. rewrite Hline.
    destruct (Z.ltb_spec 0 (leadingSpaces line)); [|lia].
    rewrite (blockFactor_half lines cols Hstep Hcols), jsRound_half.
    pose proof (Z.div_mod (leadingSpaces line) 2 ltac:(lia)).
    pose proof (Z.mod_pos_bound (leadingSpaces line) 2 ltac:(lia)).
    pose proof (Z.div_mod (leadingSpaces line + 1) 2 ltac:(lia)).
    pose proof (Z.mod_pos_bound (leadingSpaces line + 1) 2 ltac:(lia)).
    lia. }
  exists (removeNSpaces line (leadingSpaces line / 2)).
  assert (Hhalf : 0 <= leadingSpaces line / 2 <= leadingSpaces line
                  /\ leadingSpaces line - leadingSpaces line / 2
                     = (leadingSpaces line + 1) / 2
                  /\ 2 <= (leadingSpaces line + 1) / 2).
  { pose proof (Z.div_mod (leadingSpaces line) 2 ltac:(lia)).
    pose proof (Z.mod_pos_bound (leadingSpaces line) 2 ltac:(lia)).
    pose proof (Z.div_mod (leadingSpaces line + 1) 2 ltac:(lia)).
    pose proof (Z.mod_pos_bound (leadingSpaces line + 1) 2 ltac:(lia)).
    lia. }
  destruct Hhalf as (Hh1 & Hh2 & Hh3).
  assert (Hplain : plain (removeNSpaces line (leadingSpaces line / 2))
                   = skipn (Z.to_nat (leadingSpaces line / 2)) (plain line)).
  { apply removeNSpaces_plain. unfold spaceIndented in Hsi. lia. }
  assert (Hlead : leadingSpaces (removeNSpaces line (leadingSpaces line / 2))
                  = (leadingSpaces line + 1) / 2).
  { rewrite <- Hh2. now apply leadingSpaces_removed. }
  conjs; try assumption.
  - rewrite (applyIndentFactor_nth lines _ j line Hsp Hline). now rewrite Hr.
  - now rewrite Hlead.
Qed.

Lemma small_jump_scaled lines factor :
  Forall spaceIndented lines -> smallJumpScaled lines factor.
Proof.
  intros Hsp i prev cur Hprev Hcur Hpos Hjump Hna.
  assert (Ha : alignedAt (detectIndentStep lines) lines (S i) = false).
  { rewrite alignedAt_S, Hprev, Hcur, Hna.
    destruct (Z.ltb_spec (detectIndentStep lines)
                (leadingSpaces cur - leadingSpaces prev)); [lia|].
    now rewrite andb_false_r. }
  split; [exact Ha|].
  rewrite (applyIndentFactor_nth lines factor (S i) cur Hsp Hcur).
  rewrite removalAt_S, Ha. unfold structuralRemoval. rewrite Hcur.
  destruct (Z.ltb_spec 0 (leadingSpaces cur)); [reflexivity | lia].
Qed.

(** C6, as the code has it.  In a block indented with spaces, a line
    classified as alignment-indented loses exactly the leading spaces the
    line before it loses, whatever the factor would give for its own indent;
    under the factor computed from a block of unit 4 below 35 columns every
    other indented line of that block keeps half its indentation, at least
    2 spaces; and a line indented by no more than the unit past the line
    before it is one of those other lines, hand-aligned or not, unless the
    line before is alignment-indented. *)
Theorem alignment_copies_removal lines factor cols :
  Forall spaceIndented lines -> (0 <= factor)%Q ->
  alignmentKept lines factor /\
  (detectIndentStep lines = 4 -> cols < COMPRESS_AGGRESSIVE ->
   structuralHalved lines (blockFactor lines cols)) /\
  smallJumpScaled lines factor.
Proof.
  intros Hsp Hf. conjs.
  - now apply alignment_kept.
  - now apply structural_halved.
  - now apply small_jump_scaled.
Qed.

Lemma alignment_copies_removal_witness :
  let lines := [[mkSeg (lit "int main() {") [] []];
                [mkSeg (lit "    foobar(alpha,") [] []];
                [mkSeg (lit "           beta);") [] []];
                [mkSeg (lit "}") [] []]] in
  Forall spaceIndented lines /\ (0 <= 1 # 2)%Q /\
  alignmentKept lines (1 # 2) /\
  (detectIndentStep lines = 4 -> 30 < COMPRESS_AGGRESSIVE ->
   structuralHalved lines (blockFactor lines 30)) /\
  smallJumpScaled lines (1 # 2).
Proof.
  intros lines.
  assert (H1 : Forall spaceIndented lines)
    by (repeat constructor; vm_compute; discriminate).
  assert (H2 : (0 <= 1 # 2)%Q) by (vm_compute; discriminate).
  exact (conj H1 (conj H2 (alignment_copies_removal lines (1 # 2) 30 H1 H2))).
Defined.

(** Scenario C on that block: the structural level of 4 spaces becomes 2,
    and the line aligned under [alpha] moves by the same 2 columns. *)
Example scenario_C :
  let lines := [[mkSeg (lit "int main() {") [] []];
                [mkSeg (lit "    foobar(alpha,") [] []];
                [mkSeg (lit "           beta);") [] []];
                [mkSeg (lit "}") [] []]] in
  alignedAt (detectIndentStep lines) lines 2 = true /\
  map plain (fst (applyIndentFactor lines (blockFactor lines 30)))
  = [lit "int main() {"; lit "  foobar(alpha,"; lit "         beta);";
     lit "}"].
Proof. split; vm_compute; reflexivity. Qed.

(** Why the statement is about blocks indented with spaces: a tab counts as
    indentation and is not removed, and what was to be removed is taken off
    the spaces that start the next segments. *)
Example tab_indentation :
  let tab := ascii_of_nat 9 in
  let line := [mkSeg ([tab; tab] ++ lit "int") (lit "<b>") (lit "</b>");
               mkSeg (lit " x;") [] []] in
  leadingSpaces line = 2 /\
  map plain (fst (applyIndentFactor [line] (1 # 2)))
  = [[tab; tab] ++ lit "intx;"].
Proof. split; vm_compute; reflexivity. Qed.

(** Scenario E with an escaped quote: the comma after the backslash-quote is
    still inside the run, and the break is taken after the bracket. *)
Example scenario_E_escaped :
  let t := [dquote] ++ lit "a\" ++ [dquote] ++ lit ", b" ++ [dquote]
           ++ lit " + f(c, d)" in
  insideQuotes t 6 = true /\
  option_map bp (scanChunk t (lit "c") 0 14 (mkPS 0 (-1))) = Some 13.
Proof. split; vm_compute; reflexivity. Qed.

(** C6 as stated fails in two ways the code chooses.  The factor is
    computed once per page, from the first block: a first block of unit 3
    gives the factor 2/3 at 30 columns, under which the level of 4 spaces of
    a block of unit 4 becomes 3 spaces, not 2.  And a line is classified as
    alignment-indented by the size of its indent jump: in a block of unit 4
    the line [    b) {], hand-aligned under the [a] that follows the open
    bracket of [if (a &&], is 4 columns past the line before it, is
    classified structural and is halved, so [b] moves to column 2 while [a]
    stays at column 4. *)
Lemma scenario_C_fails :
  (let first := mkPre (Some (lit "c"))
                  (Some (mkCode (lit "if (a) {" ++ [newline] ++ lit "   b();"
                                 ++ [newline] ++ lit "}") None)) in
   let markup := lit "void f() {" ++ [newline] ++ lit "    g();"
                 ++ [newline] ++ lit "}" in
   let second := mkPre (Some (lit "c")) (Some (mkCode markup None)) in
   let lines := extractLines (textOnly markup) in
   let factor := pageFactor textOnly [first; second] 30 in
   detectIndentStep lines = 4 /\
   30 < COMPRESS_AGGRESSIVE /\
   factor == 2 # 3 /\
   formatBlock textOnly second 30 factor
   = mkPre (Some (lit "c"))
       (Some (mkCode (lit "void f() {" ++ [newline] ++ lit "   g();"
                      ++ [newline] ++ lit "}") (Some markup))) /\
   ~ structuralHalved lines factor) /\
  (let lines := [[mkSeg (lit "if (a &&") [] []];
                 [mkSeg (lit "    b) {") [] []];
                 [mkSeg (lit "        c();") [] []];
                 [mkSeg (lit "}") [] []]] in
   detectIndentStep lines = 4 /\
   blockFactor lines 30 == 1 # 2 /\
   nth_error (plain [mkSeg (lit "if (a &&") [] []]) 3 = Some "("%char /\
   contentAt (plain [mkSeg (lit "if (a &&") [] []])
     (leadingSpaces [mkSeg (lit "    b) {") [] []]) = true /\
   alignedAt (detectIndentStep lines) lines 1 = false /\
   map plain (fst (applyIndentFactor lines (blockFactor lines 30)))
   = [lit "if (a &&"; lit "  b) {"; lit "    c();"; lit "}"]).
Proof.
  split.
  - intros first markup second lines factor.
    conjs; try (vm_compute; reflexivity).
    intros H.
    destruct (H 1%nat [mkSeg (lit "    g();") [] []])
      as (o & Ho & _ & Hl & _); try (vm_compute; reflexivity).
    vm_compute in Ho. injection Ho as <-. vm_compute in Hl. discriminate.
  - intros lines. conjs; vm_compute; reflexivity.
Qed.


(** * Further properties

    Properties of the helper functions, the parser, the scanner and the
    page pass, read off the code. *)

(** ** Segment helpers *)

Lemma len_nil_eq : len [] = 0.
Proof. reflexivity. Qed.

Lemma visible_app a b : visible (a ++ b) = visible a ++ visible b.
Proof. unfold visible. apply filter_app. Qed.

Lemma visible_skip_spaces u : forall k,
  (k <= countSpaces u)%nat -> visible (skipn k u) = visible u.
Proof.
  induction u as [|c u IH]; intros k Hk; simpl in Hk.
  - now rewrite skipn_nil.
  - destruct k as [|k]; [reflexivity|].
    destruct (isSpace c) eqn:E; [|lia].
    simpl skipn. unfold visible at 2. simpl. rewrite E. simpl.
    apply IH. lia.
Qed.

Lemma removeNSpaces_from_keeps line : forall rem,
  visible (plain (removeNSpaces_from rem line)) = visible (plain line) /\
  styles (removeNSpaces_from rem line) = styles line /\
  len (plain line) - Z.max rem 0 <= len (plain (removeNSpaces_from rem line))
    <= len (plain line).
Proof.
  induction line as [|seg rest IH]; intros rem.
  - simpl. conjs; try reflexivity; unfold len; simpl; lia.
  - simpl removeNSpaces_from. rewrite plain_cons.
    destruct (Z.ltb_spec 0 rem) as [Hpos | Hzero].
    + rewrite cutSpaces_min.
      set (cut := Nat.min (countSpaces (text seg)) (Z.to_nat rem)).
      pose proof (countSpaces_le (text seg)) as Hle.
      rewrite sliceFrom_suffix by (unfold len; lia). rewrite Nat2Z.id.
      destruct (IH (rem - Z.of_nat cut)) as (Iv & Is & Il).
      assert (Hv : visible (skipn cut (text seg)) = visible (text seg))
        by (apply visible_skip_spaces; lia).
      assert (Hl : len (skipn cut (text seg))
                   = len (text seg) - Z.of_nat cut)
        by (unfold len; rewrite length_skipn; lia).
      rewrite visible_app, len_app.
      destruct (0 <? len (skipn cut (text seg))) eqn:Hne; cbn [orb]; cbv iota.
      * rewrite plain_cons, visible_app, len_app. simpl text.
        rewrite Hv, Iv, Hl. conjs; try reflexivity; try lia.
        unfold styles in *. simpl filter.
        destruct (truthy (open seg)); simpl; now rewrite Is.
      * apply Z.ltb_ge in Hne.
        assert (Hnil : skipn cut (text seg) = []).
        { destruct (skipn cut (text seg)) as [|x l]; [reflexivity|].
          rewrite len_cons in Hne. pose proof (len_nonneg l). lia. }
        assert (Hv' : visible (text seg) = [])
          by (rewrite <- Hv, Hnil; reflexivity).
        assert (Hl' : len (text seg) = Z.of_nat cut)
          by (rewrite Hnil, len_nil_eq in Hl; lia).
        rewrite Hv'. clear Hv Hl.
        destruct (truthy (open seg)) eqn:Ht.
        -- rewrite plain_cons, visible_app, len_app. simpl text.
           rewrite Hnil, Iv, len_nil_eq. change (visible []) with (@nil ascii).
           conjs; try reflexivity; try lia.
           unfold styles in *. simpl filter. rewrite Ht. simpl.
           now rewrite Is.
        -- rewrite Iv. conjs; try reflexivity; try lia.
           unfold styles in *. simpl filter. now rewrite Ht.
    + rewrite removeNSpaces_from_id by lia. rewrite plain_cons.
      conjs; try reflexivity; lia.
Qed.

Lemma removeNSpaces_keeps (line : Line) (n : Z) :
  visible (plain (removeNSpaces line n)) = visible (plain line) /\
  styles (removeNSpaces line n) = styles line /\
  len (plain line) - Z.max n 0
    <= len (plain (removeNSpaces line n)) <= len (plain line).
Proof.
  unfold removeNSpaces. destruct (Z.leb_spec n 0) as [Hn | Hn].
  - conjs; try reflexivity; lia.
  - apply removeNSpaces_from_keeps.
Qed.

(** X1. [removeNSpaces] deletes nothing but space characters, at most [n]
    of them, and keeps the markup of every styled segment, in order, even
    of one whose text it has emptied. *)
Theorem removeNSpaces_only_spaces (line : Line) (n : Z) :
  visible (plain (removeNSpaces line n)) = visible (plain line) /\
  styles (removeNSpaces line n) = styles line /\
  len (plain line) - Z.max n 0
    <= len (plain (removeNSpaces line n)) <= len (plain line).
Proof.
  unfold removeNSpaces. destruct (Z.leb_spec n 0) as [Hn | Hn].
  - conjs; try reflexivity; lia.
  - destruct (removeNSpaces_from_keeps line n) as (Hv & Hs & Hl).
    conjs; [exact Hv | exact Hs | lia | lia].
Qed.

(** X2. When the line starts with at least [n] spaces, [removeNSpaces]
    takes exactly the first [n] characters off its text. *)
Theorem removeNSpaces_exact (line : Line) (n : Z) :
  0 <= n <= Z.of_nat (countSpaces (plain line)) ->
  plain (removeNSpaces line n) = skipn (Z.to_nat n) (plain line) /\
  countSpaces (plain (removeNSpaces line n))
    = (countSpaces (plain line) - Z.to_nat n)%nat.
Proof.
  intros [H0 Hn].
  assert (E : plain (removeNSpaces line n) = skipn (Z.to_nat n) (plain line)).
  { destruct (Z.eq_dec n 0) as [-> | Hne].
    - reflexivity.
    - apply removeNSpaces_plain. lia. }
  split; [exact E|]. rewrite E.
  assert (G : forall u k, (k <= countSpaces u)%nat ->
            countSpaces (skipn k u) = (countSpaces u - k)%nat).
  { induction u as [|c u IH]; intros k Hk.
    - now rewrite skipn_nil.
    - destruct k as [|k]; [now rewrite Nat.sub_0_r|].
      simpl in Hk |- *. destruct (isSpace c); [|lia]. apply IH. lia. }
  apply G. lia.
Qed.

Lemma removeNSpaces_exact_witness :
  plain (removeNSpaces [mkSeg (lit "  ") [] []; mkSeg (lit "  x") (lit "<span>") (lit "</span>")] 3)
    = lit " x".
Proof.
  exact (proj1 (removeNSpaces_exact
    [mkSeg (lit "  ") [] []; mkSeg (lit "  x") (lit "<span>") (lit "</span>")]
    3 ltac:(vm_compute; split; discriminate))).
Defined.

Lemma countSpaces_dropSpaces u : countSpaces (dropSpaces u) = O.
Proof.
  unfold dropSpaces. induction u as [|c u IH]; [reflexivity|].
  simpl. destruct (isSpace c) eqn:E; [exact IH|]. simpl. now rewrite E.
Qed.

Lemma stripLeading_from_false line : stripLeading_from false line = line.
Proof. induction line as [|seg rest IH]; simpl; [reflexivity|]. now rewrite IH. Qed.

Lemma stripLeading_from_idem line :
  stripLeading_from true (stripLeading_from true line)
  = stripLeading_from true line.
Proof.
  induction line as [|seg rest IH]; [reflexivity|].
  simpl. destruct (Z.ltb_spec (Z.of_nat (countSpaces (text seg)))
                              (len (text seg))) as [Hlt | Hge]; [|exact IH].
  rewrite !stripLeading_from_false. simpl.
  rewrite sliceFrom_suffix by (pose proof (Nat2Z.is_nonneg (countSpaces (text seg))); lia).
  rewrite Nat2Z.id. fold (dropSpaces (text seg)).
  rewrite countSpaces_dropSpaces.
  assert (Hl : 0 < len (dropSpaces (text seg))).
  { unfold dropSpaces, len in *. rewrite length_skipn. lia. }
  destruct (Z.ltb_spec (Z.of_nat 0) (len (dropSpaces (text seg)))) as [_|Hc];
    [|simpl in Hc; lia].
  rewrite stripLeading_from_false.
  rewrite sliceFrom_suffix by (simpl; lia). reflexivity.
Qed.

(** X3. [stripLeading] takes the leading run of spaces, and nothing else,
    off the text of a line; what it returns does not start with a space,
    and stripping again changes nothing. *)
Theorem stripLeading_strips (line : Line) :
  plain (stripLeading line) = dropSpaces (plain line) /\
  countSpaces (plain (stripLeading line)) = O /\
  stripLeading (stripLeading line) = stripLeading line.
Proof.
  conjs.
  - apply stripLeading_plain.
  - rewrite stripLeading_plain. apply countSpaces_dropSpaces.
  - apply stripLeading_from_idem.
Qed.

(** X4. The text of [prependPad line n], for [n >= 0], is [n] spaces
    followed by the text of the line without its leading spaces; when that
    text is not empty the new line has exactly [n] leading spaces. *)
Theorem prependPad_indent (line : Line) (n : Z) :
  0 <= n ->
  plain (prependPad line n) = spaces n ++ dropSpaces (plain line) /\
  countSpaces (plain (prependPad line n)) = Z.to_nat n /\
  len (plain (prependPad line n))
    = n + len (plain line) - Z.of_nat (countSpaces (plain line)).
Proof.
  intros Hn. rewrite prependPad_plain. conjs.
  - reflexivity.
  - unfold spaces. rewrite countSpaces_spaces, countSpaces_dropSpaces. lia.
  - rewrite len_app. unfold spaces, dropSpaces, len.
    rewrite repeat_length, length_skipn.
    pose proof (countSpaces_le (plain line)). lia.
Qed.

Lemma prependPad_indent_witness :
  plain (prependPad [mkSeg (lit "  a b") [] []] 4) = lit "    a b".
Proof.
  exact (proj1 (prependPad_indent [mkSeg (lit "  a b") [] []] 4
                  ltac:(vm_compute; discriminate))).
Defined.

(** ** Rendering *)

Lemma escapeHTML_app a b : escapeHTML (a ++ b) = escapeHTML a ++ escapeHTML b.
Proof. unfold escapeHTML, replaceAll. now rewrite !flat_map_app. Qed.

Lemma escapeHTML_char c :
  escapeHTML [c] =
  if Ascii.eqb c "&"%char then lit "&amp;"
  else if Ascii.eqb c "<"%char then lit "&lt;"
  else if Ascii.eqb c ">"%char then lit "&gt;"
  else [c].
Proof.
  destruct (Ascii.eqb c "&"%char) eqn:Ea;
    [apply Ascii.eqb_eq in Ea; now subst|].
  destruct (Ascii.eqb c "<"%char) eqn:El;
    [apply Ascii.eqb_eq in El; now subst|].
  destruct (Ascii.eqb c ">"%char) eqn:Eg;
    [apply Ascii.eqb_eq in Eg; now subst|].
  unfold escapeHTML, replaceAll. simpl. rewrite Ea. simpl. rewrite El. simpl.
  now rewrite Eg.
Qed.

Lemma escapeHTML_cons c t : escapeHTML (c :: t) = escapeHTML [c] ++ escapeHTML t.
Proof. apply (escapeHTML_app [c] t). Qed.

Lemma toHTML_unstyled line :
  Forall (fun s => open s = []) line -> toHTML line = escapeHTML (plain line).
Proof.
  induction 1 as [|seg rest Hs _ IH]; [reflexivity|].
  rewrite plain_cons, escapeHTML_app, <- IH.
  unfold toHTML at 1. simpl. unfold segHTML at 1. now rewrite Hs.
Qed.

Lemma escapeHTML_unescape (t : str) :
  unescapeHTML (escapeHTML t) = t /\
  Forall (fun c => c <> "<"%char /\ c <> ">"%char) (escapeHTML t).
Proof.
  induction t as [|c t [IHr IHf]]; [split; [reflexivity | constructor]|].
  rewrite escapeHTML_cons, escapeHTML_char.
  destruct (Ascii.eqb c "&"%char) eqn:Ea.
  { apply Ascii.eqb_eq in Ea. subst c. split.
    - simpl. now rewrite IHr.
    - repeat (constructor; [split; discriminate|]). exact IHf. }
  destruct (Ascii.eqb c "<"%char) eqn:El.
  { apply Ascii.eqb_eq in El. subst c. split.
    - simpl. now rewrite IHr.
    - repeat (constructor; [split; discriminate|]). exact IHf. }
  destruct (Ascii.eqb c ">"%char) eqn:Eg.
  { apply Ascii.eqb_eq in Eg. subst c. split.
    - simpl. now rewrite IHr.
    - repeat (constructor; [split; discriminate|]). exact IHf. }
  split.
  - simpl. rewrite Ea, IHr. reflexivity.
  - constructor; [|exact IHf].
    split; intros ->; [now rewrite Ascii.eqb_refl in El
                      | now rewrite Ascii.eqb_refl in Eg].
Qed.

(** X5. Escaping loses nothing and leaves no markup character: reading the
    three entities back gives the text again, so two texts escaped alike
    are the same text, and the escaped text holds neither [<] nor [>]. *)
Theorem escapeHTML_round_trip (t : str) :
  unescapeHTML (escapeHTML t) = t /\
  (forall u, escapeHTML u = escapeHTML t -> u = t) /\
  Forall (fun c => c <> "<"%char /\ c <> ">"%char) (escapeHTML t).
Proof.
  destruct (escapeHTML_unescape t) as [Hr Hf]. conjs.
  - exact Hr.
  - intros u Hu. destruct (escapeHTML_unescape u) as [Hru _].
    rewrite <- Hru, Hu. exact Hr.
  - exact Hf.
Qed.

(** X6. The markup [toHTML] writes for a line without styled segments is
    the escaped text of the line whatever its division into segments, and
    reads back as that text. *)
Theorem toHTML_unstyled_text (line : Line) :
  Forall (fun s => open s = []) line ->
  toHTML line = escapeHTML (plain line) /\
  unescapeHTML (toHTML line) = plain line.
Proof.
  intros H. rewrite (toHTML_unstyled line H).
  split; [reflexivity | apply escapeHTML_unescape].
Qed.

Lemma toHTML_unstyled_text_witness :
  toHTML [mkSeg (lit "a<") [] []; mkSeg (lit "b&&c") [] []]
    = escapeHTML (lit "a<b&&c").
Proof.
  exact (proj1 (toHTML_unstyled_text
    [mkSeg (lit "a<") [] []; mkSeg (lit "b&&c") [] []]
    ltac:(repeat constructor))).
Defined.

Lemma splitAt_from_past line : forall pos count,
  count + len (plain line) < pos ->
  splitAt_from pos count false line = (line, []).
Proof.
  induction line as [|seg rest IH]; intros pos count H; [reflexivity|].
  rewrite plain_cons, len_app in H.
  pose proof (len_nonneg (text seg)). pose proof (len_nonneg (plain rest)).
  simpl.
  destruct (Z.leb_spec (count + len (text seg)) pos) as [_ | Hc]; [|lia].
  destruct (Z.eqb_spec (count + len (text seg)) pos) as [Hc | _]; [lia|].
  rewrite IH by lia. reflexivity.
Qed.

(** X7. A position past the end of the line splits nothing off: every
    segment goes to the first half as it is and the second half is
    empty. *)
Theorem splitAt_past_end (line : Line) (pos : Z) :
  len (plain line) < pos -> splitAt line pos = (line, []).
Proof. intros H. apply splitAt_from_past. lia. Qed.

Lemma splitAt_past_end_witness :
  splitAt [mkSeg (lit "ab") (lit "<span>") (lit "</span>")] 3
    = ([mkSeg (lit "ab") (lit "<span>") (lit "</span>")], []).
Proof.
  exact (splitAt_past_end [mkSeg (lit "ab") (lit "<span>") (lit "</span>")] 3
           ltac:(vm_compute; reflexivity)).
Defined.

Lemma searchFrom_spec t : forall i,
  (searchFrom i t = -1 /\ Forall (fun c => isWhite c = true) t) \/
  (exists k c, searchFrom i t = i + Z.of_nat k /\ nth_error t k = Some c /\
     isWhite c = false /\ Forall (fun c => isWhite c = true) (firstn k t)).
Proof.
  induction t as [|x t IH]; intros i; simpl.
  - left. split; [reflexivity | constructor].
  - destruct (isWhite x) eqn:E.
    + destruct (IH (i + 1)) as [[H1 H2] | (k & c & H1 & H2 & H3 & H4)].
      * left. split; [exact H1 | now constructor].
      * right. exists (S k), c. conjs; [lia | exact H2 | exact H3 |].
        simpl. now constructor.
    + right. exists O, x. conjs; [simpl; lia | reflexivity | exact E |].
      constructor.
Qed.

(** X8. [leadingSpaces] is the index of the first character of the line
    that is not white space, all the characters before it being white
    space; for a line of white space only, and for an empty one, it is 0. *)
Theorem leadingSpaces_first_content (line : Line) :
  (Forall (fun c => isWhite c = true) (plain line) /\ leadingSpaces line = 0)
  \/
  (exists k c, leadingSpaces line = Z.of_nat k /\
     nth_error (plain line) k = Some c /\ isWhite c = false /\
     Forall (fun c => isWhite c = true) (firstn k (plain line))).
Proof.
  unfold leadingSpaces, searchNonWhite.
  destruct (searchFrom_spec (plain line) 0)
    as [[H1 H2] | (k & c & H1 & H2 & H3 & H4)].
  - left. rewrite H1. split; [exact H2 | reflexivity].
  - right. exists k, c. rewrite H1. conjs; [lia | exact H2 | exact H3 | exact H4].
Qed.

(** ** Parsing *)

Lemma join_cons sep p ps :
  join sep (p :: ps) = p ++ flat_map (fun q => sep ++ q) ps.
Proof.
  revert p. induction ps as [|q ps IH]; intros p.
  - simpl. now rewrite app_nil_r.
  - change (join sep (p :: q :: ps)) with (p ++ sep ++ join sep (q :: ps)).
    rewrite IH. simpl. now rewrite <- app_assoc.
Qed.

Lemma splitLines_nonempty t : splitLines t <> [].
Proof.
  destruct t as [|c t]; simpl; [discriminate|].
  destruct (Ascii.eqb c newline); [discriminate|].
  destruct (splitLines t); discriminate.
Qed.

Lemma splitLines_join t : join [newline] (splitLines t) = t.
Proof.
  induction t as [|c t IH]; [reflexivity|].
  simpl splitLines. destruct (Ascii.eqb c newline) eqn:E.
  - apply Ascii.eqb_eq in E. subst c.
    destruct (splitLines t) as [|p ps] eqn:Es;
      [now apply splitLines_nonempty in Es|].
    change (join [newline] ([] :: p :: ps))
      with ([] ++ [newline] ++ join [newline] (p :: ps)).
    now rewrite IH.
  - destruct (splitLines t) as [|p ps] eqn:Es;
      [now apply splitLines_nonempty in Es|].
    rewrite join_cons. rewrite join_cons in IH. now rewrite <- IH.
Qed.

Lemma splitLines_unique ps : forall p,
  Forall (fun q => ~ In newline q) (p :: ps) ->
  splitLines (join [newline] (p :: ps)) = p :: ps.
Proof.
  induction ps as [|q ps IH]; intros p H; inversion H as [|? ? Hp Hps]; subst.
  - simpl. clear H Hps. induction p as [|c p IHp]; [reflexivity|].
    simpl. destruct (Ascii.eqb_spec c newline) as [-> | _];
      [exfalso; apply Hp; now left|].
    rewrite IHp; [reflexivity|]. intros Hin. apply Hp. now right.
  - change (join [newline] (p :: q :: ps))
      with (p ++ newline :: join [newline] (q :: ps)).
    specialize (IH q Hps). clear H Hps.
    induction p as [|c p IHp].
    + change (splitLines ([] ++ newline :: join [newline] (q :: ps)))
        with ([] :: splitLines (join [newline] (q :: ps))).
      now rewrite IH.
    + cbn [app splitLines].
      destruct (Ascii.eqb_spec c newline) as [-> | _];
        [exfalso; apply Hp; now left|].
      rewrite IHp; [reflexivity|]. intros Hin. apply Hp. now right.
Qed.

Lemma splitLines_clean t : Forall (fun q => ~ In newline q) (splitLines t).
Proof.
  induction t as [|c t IH]; simpl.
  - constructor; [easy | constructor].
  - destruct (Ascii.eqb_spec c newline) as [-> | Hc].
    + constructor; [easy | exact IH].
    + destruct (splitLines t) as [|p ps]; [repeat constructor; simpl; intuition|].
      inversion IH as [|? ? Hp Hps]; subst. constructor; [|exact Hps].
      simpl. intros [E | Hin]; [now apply Hc | now apply Hp].
Qed.

Lemma linesText_snoc finished cur :
  linesText (finished ++ [cur])
  = flat_map (fun l => plain l ++ [newline]) finished ++ plain cur.
Proof.
  unfold linesText. induction finished as [|l finished IH]; [reflexivity|].
  change ((l :: finished) ++ [cur]) with (l :: (finished ++ [cur])).
  simpl map.
  destruct (map plain (finished ++ [cur])) as [|x xs] eqn:E.
  { rewrite map_app in E. now destruct (map plain finished). }
  change (join [newline] (plain l :: x :: xs))
    with (plain l ++ [newline] ++ join [newline] (x :: xs)).
  rewrite IH. simpl. now rewrite <- !app_assoc.
Qed.

Lemma len_le0_nil (p : str) : len p <= 0 -> p = [].
Proof.
  destruct p as [|x p]; [reflexivity|]. rewrite len_cons.
  pose proof (len_nonneg p). lia.
Qed.

Lemma plain_pushed cur p opn cls (b : bool) :
  plain (if (0 <? len p) || b then cur ++ [mkSeg p opn cls] else cur)
  = plain cur ++ p.
Proof.
  destruct (Z.ltb_spec 0 (len p)) as [Hp | Hp]; cbn [orb]; cbv iota.
  - rewrite plain_app. unfold plain at 2. simpl. now rewrite app_nil_r.
  - assert (p = []) as ->.
    { destruct p as [|x p]; [reflexivity|]. rewrite len_cons in Hp.
      pose proof (len_nonneg p). lia. }
    destruct b; [|now rewrite app_nil_r].
    rewrite plain_app. reflexivity.
Qed.

Lemma pushParts_text opn cls parts : forall first finished cur f c,
  pushParts parts first opn cls finished cur = (f, c) ->
  flat_map (fun l => plain l ++ [newline]) f ++ plain c
  = (flat_map (fun l => plain l ++ [newline]) finished ++ plain cur)
    ++ (if first then join [newline] parts
        else flat_map (fun q => [newline] ++ q) parts).
Proof.
  induction parts as [|p rest IH]; intros first finished cur f c H.
  - simpl in H. injection H as <- <-. destruct first; now rewrite app_nil_r.
  - simpl in H. destruct first; apply IH in H; rewrite H; clear H.
    + rewrite plain_pushed, join_cons. now rewrite <- !app_assoc.
    + rewrite flat_map_app.
      destruct (Z.ltb_spec 0 (len p)) as [Hp | Hp].
      * unfold plain at 3. simpl. rewrite !app_nil_r.
        now rewrite <- !app_assoc.
      * apply len_le0_nil in Hp. subst p. simpl. rewrite !app_nil_r.
        now rewrite <- !app_assoc.
Qed.

Lemma pushParts_clean opn cls parts : forall first finished cur f c,
  pushParts parts first opn cls finished cur = (f, c) ->
  Forall (fun q => ~ In newline q) parts ->
  Forall (fun l => ~ In newline (plain l)) (finished ++ [cur]) ->
  Forall (fun l => ~ In newline (plain l)) (f ++ [c]).
Proof.
  induction parts as [|p rest IH]; intros first finished cur f c H Hp Hl.
  - simpl in H. now injection H as <- <-.
  - simpl in H. inversion Hp as [|? ? Hp1 Hp2]; subst.
    apply Forall_app in Hl. destruct Hl as [Hf Hc].
    inversion Hc as [|? ? Hc1 _]; subst.
    destruct first; apply IH in H; try exact H; try exact Hp2;
      apply Forall_app; split.
    + exact Hf.
    + constructor; [|constructor]. rewrite plain_pushed.
      intros Hin. apply in_app_or in Hin. tauto.
    + apply Forall_app. split; [exact Hf | now constructor].
    + constructor; [|constructor].
      destruct (Z.ltb_spec 0 (len p)) as [Hlp | Hlp]; simpl.
      * unfold plain. simpl. now rewrite app_nil_r.
      * tauto.
Qed.

Lemma extractNode_text nodes : forall finished cur f c,
  fold_left extractNode nodes (finished, cur) = (f, c) ->
  Forall (fun l => ~ In newline (plain l)) (finished ++ [cur]) ->
  flat_map (fun l => plain l ++ [newline]) f ++ plain c
  = (flat_map (fun l => plain l ++ [newline]) finished ++ plain cur)
    ++ concat (map nodeText nodes) /\
  Forall (fun l => ~ In newline (plain l)) (f ++ [c]).
Proof.
  induction nodes as [|node nodes IH]; intros finished cur f c H Hl.
  - simpl in H. injection H as <- <-. simpl. now rewrite app_nil_r.
  - cbn [fold_left] in H.
    destruct (extractNode (finished, cur) node) as [f1 c1] eqn:E.
    assert (G : flat_map (fun l => plain l ++ [newline]) f1 ++ plain c1
                = (flat_map (fun l => plain l ++ [newline]) finished
                   ++ plain cur) ++ nodeText node /\
                Forall (fun l => ~ In newline (plain l)) (f1 ++ [c1])).
    { destruct node as [t | html t |]; simpl in E.
      - split.
        + rewrite (pushParts_text _ _ _ _ _ _ _ _ E), splitLines_join.
          reflexivity.
        + eapply pushParts_clean; eauto using splitLines_clean.
      - split.
        + rewrite (pushParts_text _ _ _ _ _ _ _ _ E), splitLines_join.
          reflexivity.
        + eapply pushParts_clean; eauto using splitLines_clean.
      - injection E as <- <-. simpl. now rewrite app_nil_r. }
    destruct G as [G1 G2]. destruct (IH _ _ _ _ H G2) as [I1 I2].
    split; [|exact I2]. rewrite I1, G1. simpl. now rewrite <- !app_assoc.
Qed.

Lemma extractLines_joined (childNodes : list Node) :
  linesText (extractLines childNodes) = concat (map nodeText childNodes) /\
  Forall (fun l => ~ In newline (plain l)) (extractLines childNodes).
Proof.
  unfold extractLines.
  destruct (fold_left extractNode childNodes ([], [])) as [f c] eqn:E.
  destruct (extractNode_text _ _ _ _ _ E) as [H1 H2].
  { repeat constructor. simpl. tauto. }
  split; [|exact H2]. rewrite linesText_snoc, H1. reflexivity.
Qed.

(** X9. [extractLines] loses no text and cuts exactly at the line breaks:
    the texts of the lines it returns are the text content of the text and
    [<span>] children, in order, split at its newlines; joined by newlines
    they give that text content again. *)
Theorem extractLines_text (childNodes : list Node) :
  map plain (extractLines childNodes)
    = splitLines (concat (map nodeText childNodes)) /\
  linesText (extractLines childNodes) = concat (map nodeText childNodes).
Proof.
  destruct (extractLines_joined childNodes) as [T H2].
  split; [|exact T]. rewrite <- T. unfold linesText.
  assert (H3 : Forall (fun q => ~ In newline q)
                 (map plain (extractLines childNodes)))
    by (apply Forall_map; exact H2).
  destruct (map plain (extractLines childNodes)) as [|p ps] eqn:Em.
  - exfalso. unfold extractLines in Em.
    destruct (fold_left extractNode childNodes ([], [])) as [f c].
    rewrite map_app in Em. now destruct (map plain f).
  - symmetry. now apply splitLines_unique.
Qed.

Lemma pushParts_unstyled cls parts : forall first finished cur f c,
  pushParts parts first [] cls finished cur = (f, c) ->
  Forall (Forall (fun s => open s = [])) (finished ++ [cur]) ->
  Forall (Forall (fun s => open s = [])) (f ++ [c]).
Proof.
  induction parts as [|p rest IH]; intros first finished cur f c H Hl.
  - simpl in H. now injection H as <- <-.
  - simpl in H. apply Forall_app in Hl. destruct Hl as [Hf Hc].
    inversion Hc as [|? ? Hc1 _]; subst.
    destruct first; apply IH in H; try exact H; apply Forall_app; split.
    + exact Hf.
    + constructor; [|constructor].
      destruct (0 <? len p); simpl; [|exact Hc1].
      apply Forall_app. split; [exact Hc1 | now repeat constructor].
    + apply Forall_app. split; [exact Hf | now constructor].
    + constructor; [|constructor].
      destruct (0 <? len p); simpl; now repeat constructor.
Qed.

Lemma extractNode_unstyled nodes : forall finished cur f c,
  fold_left extractNode nodes (finished, cur) = (f, c) ->
  Forall (fun n => match n with SpanNode _ _ => False | _ => True end) nodes ->
  Forall (Forall (fun s => open s = [])) (finished ++ [cur]) ->
  Forall (Forall (fun s => open s = [])) (f ++ [c]).
Proof.
  induction nodes as [|node nodes IH]; intros finished cur f c H Hn Hl.
  - simpl in H. now injection H as <- <-.
  - cbn [fold_left] in H. inversion Hn as [|? ? Hn1 Hn2]; subst.
    destruct (extractNode (finished, cur) node) as [f1 c1] eqn:E.
    apply (IH _ _ _ _ H Hn2).
    destruct node as [t | html t |]; simpl in E.
    + eapply pushParts_unstyled; eauto.
    + contradiction.
    + now injection E as <- <-.
Qed.

Lemma escapeHTML_join ps :
  escapeHTML (join [newline] ps) = join [newline] (map escapeHTML ps).
Proof.
  destruct ps as [|p ps]; [reflexivity|].
  simpl map. rewrite !join_cons, escapeHTML_app. f_equal.
  induction ps as [|q ps IH]; [reflexivity|].
  simpl map. cbn [flat_map]. rewrite !escapeHTML_app, IH. reflexivity.
Qed.

(** X10. A block that holds text only is rendered back as it was read:
    the markup of its lines, joined by newlines, is the escaped text
    content of its nodes. *)
Theorem toHTML_extractLines (childNodes : list Node) :
  Forall (fun n => match n with SpanNode _ _ => False | _ => True end)
    childNodes ->
  join [newline] (map toHTML (extractLines childNodes))
    = escapeHTML (concat (map nodeText childNodes)).
Proof.
  intros Hn.
  destruct (extractLines_joined childNodes) as [T _]. rewrite <- T.
  unfold linesText. rewrite escapeHTML_join, map_map. f_equal.
  apply map_ext_in. intros line Hin. apply toHTML_unstyled.
  revert line Hin. apply Forall_forall.
  unfold extractLines.
  destruct (fold_left extractNode childNodes ([], [])) as [f c] eqn:E.
  eapply extractNode_unstyled; eauto. repeat constructor.
Qed.

Lemma toHTML_extractLines_witness :
  join [newline]
    (map toHTML (extractLines [TextNode (lit "a<b"); OtherNode;
                               TextNode (newline :: lit "c")]))
  = escapeHTML (lit "a<b" ++ [] ++ newline :: lit "c" ++ []).
Proof.
  exact (toHTML_extractLines
           [TextNode (lit "a<b"); OtherNode; TextNode (newline :: lit "c")]
           ltac:(repeat constructor)).
Defined.

(** ** Brackets *)

Lemma countChar_app c a b : countChar c (a ++ b) = countChar c a + countChar c b.
Proof. unfold countChar. rewrite filter_app. apply len_app. Qed.

Lemma between_S_some t i n c :
  (i <= n)%nat -> nth_error t n = Some c ->
  between t i (S n) = between t i n ++ [c].
Proof.
  intros Hi Hc. unfold between.
  assert (Hn : (n < length t)%nat) by (apply nth_error_Some; congruence).
  assert (E : firstn (S n) t = firstn n t ++ [c]).
  { clear Hi. revert n Hc Hn. induction t as [|x t IH]; intros n Hc Hn.
    - simpl in Hn. lia.
    - destruct n as [|n]; simpl in Hc |- *; [now injection Hc as ->|].
      f_equal. change (firstn (S n) t = firstn n t ++ [c]).
      apply IH; [exact Hc | simpl in Hn; lia]. }
  rewrite E. rewrite skipn_app.
  replace (i - length (firstn n t))%nat with O
    by (rewrite length_firstn; lia).
  reflexivity.
Qed.

Lemma between_S_none t i n :
  nth_error t n = None -> between t i (S n) = between t i n.
Proof.
  intros Hc. unfold between. apply nth_error_None in Hc.
  now rewrite !firstn_all2 by lia.
Qed.

Lemma findOpen_loop_spec cls opn t : cls <> opn -> forall n depth,
  findOpen_loop cls opn t depth n = -1 \/
  exists i, findOpen_loop cls opn t depth n = Z.of_nat i /\ (i < n)%nat /\
    nth_error t i = Some opn /\
    depth + countChar cls (between t i n) - countChar opn (between t i n) = 0.
Proof.
  intros Hne. induction n as [|n IH]; intros depth; [now left|].
  simpl findOpen_loop. destruct (nth_error t n) as [c|] eqn:Ec.
  - destruct (Ascii.eqb_spec c cls) as [-> | Hc].
    + destruct (IH (depth + 1)) as [H | (i & H1 & H2 & H3 & H4)]; [now left|].
      right. exists i. conjs; [exact H1 | lia | exact H3 |].
      rewrite (between_S_some t i n cls) by (try lia; exact Ec).
      rewrite !countChar_app. unfold countChar at 2 4. simpl.
      rewrite Ascii.eqb_refl.
      destruct (Ascii.eqb_spec opn cls) as [E | _]; [now symmetry in E|].
      simpl. change (len [cls]) with 1. change (len []) with 0. lia.
    + destruct (Ascii.eqb_spec c opn) as [-> | Ho].
      * destruct (Z.eqb_spec (depth - 1) 0) as [Hd | Hd].
        -- right. exists n. conjs; [reflexivity | lia | exact Ec |].
           rewrite (between_S_some t n n opn) by (try lia; exact Ec).
           assert (B : between t n n = []).
           { unfold between. apply skipn_all2. rewrite length_firstn. lia. }
           rewrite B. unfold countChar. simpl. rewrite Ascii.eqb_refl.
           destruct (Ascii.eqb_spec cls opn) as [E | _]; [now apply Hne in E|].
           simpl. change (len [opn]) with 1. change (len []) with 0. lia.
        -- destruct (IH (depth - 1)) as [H | (i & H1 & H2 & H3 & H4)];
             [now left|].
           right. exists i. conjs; [exact H1 | lia | exact H3 |].
           rewrite (between_S_some t i n opn) by (try lia; exact Ec).
           rewrite !countChar_app. unfold countChar at 2 4. simpl.
           rewrite Ascii.eqb_refl.
           destruct (Ascii.eqb_spec cls opn) as [E | _]; [now apply Hne in E|].
           simpl. change (len [opn]) with 1. change (len []) with 0. lia.
      * destruct (IH depth) as [H | (i & H1 & H2 & H3 & H4)]; [now left|].
        right. exists i. conjs; [exact H1 | lia | exact H3 |].
        rewrite (between_S_some t i n c) by (try lia; exact Ec).
        rewrite !countChar_app. unfold countChar at 2 4. simpl.
        destruct (Ascii.eqb_spec cls c) as [E | _]; [now symmetry in E|].
        destruct (Ascii.eqb_spec opn c) as [E | _]; [now symmetry in E|].
        simpl. change (len []) with 0. lia.
  - destruct (IH depth) as [H | (i & H1 & H2 & H3 & H4)]; [now left|].
    right. exists i. conjs; [exact H1 | lia | exact H3 |].
    now rewrite between_S_none.
Qed.

Lemma CLOSERS_pair cls opn : CLOSERS cls = Some opn -> cls <> opn.
Proof.
  unfold CLOSERS. intros H E. subst opn.
  destruct (Ascii.eqb_spec cls ")"%char) as [E | _]; [subst; discriminate|].
  destruct (Ascii.eqb_spec cls "]"%char) as [E | _]; [subst; discriminate|].
  destruct (Ascii.eqb_spec cls "}"%char) as [E | _]; [subst|]; discriminate.
Qed.

(** X11. [findMatchingOpen] returns [-1] or the index, before [closePos],
    of an opening bracket of the kind closed at [closePos]; from that index
    to [closePos], both included, there are as many brackets of that kind
    opened as closed. *)
Theorem findMatchingOpen_balanced (t : str) (closePos : Z) :
  findMatchingOpen t closePos = -1 \/
  exists cls opn (i : nat),
    findMatchingOpen t closePos = Z.of_nat i /\
    Z.of_nat i < closePos /\
    charAt t closePos = Some cls /\ CLOSERS cls = Some opn /\
    nth_error t i = Some opn /\
    countChar opn (between t i (S (Z.to_nat closePos)))
      = countChar cls (between t i (S (Z.to_nat closePos))).
Proof.
  unfold findMatchingOpen.
  destruct (charAt t closePos) as [cls|] eqn:Ec; [|now left].
  destruct (CLOSERS cls) as [opn|] eqn:Ep; [|now left].
  pose proof (CLOSERS_pair _ _ Ep) as Hne.
  assert (H0 : 0 <= closePos).
  { unfold charAt in Ec. destruct (Z.ltb_spec closePos 0); [discriminate | lia]. }
  rewrite charAt_nth in Ec by exact H0.
  destruct (findOpen_loop_spec cls opn t Hne (S (Z.to_nat closePos)) 0)
    as [H | (i & H1 & H2 & H3 & H4)]; [now left|].
  right. exists cls, opn, i. conjs; try assumption; try reflexivity.
  - assert (i <> Z.to_nat closePos) by (intros ->; congruence). lia.
  - lia.
Qed.

Lemma countChar_cons c x t :
  countChar c (x :: t) = (if Ascii.eqb c x then 1 else 0) + countChar c t.
Proof.
  unfold countChar. simpl. destruct (Ascii.eqb c x); [|lia].
  rewrite len_cons. lia.
Qed.

Lemma depth_one d : (d - 1 =? 0) = true \/ (d - 1 =? 0) = false.
Proof. destruct (d - 1 =? 0); [now left | now right]. Qed.

Lemma singleArg_loop_false opn cls :
  opn <> cls -> comma <> opn -> comma <> cls -> forall u d,
  singleArg_loop opn cls d u = false ->
  exists k, nth_error u k = Some comma /\
    d + countChar opn (firstn k u) - countChar cls (firstn k u) = 1.
Proof.
  intros Hoc Hco Hcc. induction u as [|c u IH]; intros d H; [discriminate|].
  simpl in H. destruct (Ascii.eqb_spec c opn) as [-> | Ho].
  - destruct (IH _ H) as (k & K1 & K2). exists (S k). split; [exact K1|].
    simpl firstn. rewrite !countChar_cons, Ascii.eqb_refl.
    destruct (Ascii.eqb_spec cls opn) as [E | _]; [now symmetry in E|]. lia.
  - destruct (Ascii.eqb_spec c cls) as [-> | Hc].
    + destruct (depth_one d) as [E | E]; rewrite E in H; [discriminate|].
      destruct (IH _ H) as (k & K1 & K2). exists (S k). split; [exact K1|].
      simpl firstn. rewrite !countChar_cons, Ascii.eqb_refl.
      destruct (Ascii.eqb_spec opn cls) as [E' | _]; [now apply Hoc in E'|].
      lia.
    + destruct (Ascii.eqb_spec c comma) as [-> | Hm]; simpl in H.
      * destruct (Z.eqb_spec d 1) as [Hd | _].
        -- exists O. split; [reflexivity|]. simpl firstn.
           unfold countChar. simpl. change (len []) with 0. lia.
        -- destruct (IH _ H) as (k & K1 & K2). exists (S k).
           split; [exact K1|]. simpl firstn. rewrite !countChar_cons.
           destruct (Ascii.eqb_spec opn comma) as [E | _]; [now symmetry in E|].
           destruct (Ascii.eqb_spec cls comma) as [E | _]; [now symmetry in E|].
           lia.
      * destruct (IH _ H) as (k & K1 & K2). exists (S k).
        split; [exact K1|]. simpl firstn. rewrite !countChar_cons.
        destruct (Ascii.eqb_spec opn c) as [E | _]; [now symmetry in E|].
        destruct (Ascii.eqb_spec cls c) as [E | _]; [now symmetry in E|].
        lia.
Qed.

Lemma OPENERS_pair opn cls :
  OPENERS opn = Some cls -> opn <> cls /\ comma <> opn /\ comma <> cls.
Proof.
  unfold OPENERS. intros H.
  destruct (Ascii.eqb_spec opn "("%char) as [E | _];
    [subst; injection H as <-; conjs; discriminate|].
  destruct (Ascii.eqb_spec opn "["%char) as [E | _];
    [subst; injection H as <-; conjs; discriminate|].
  destruct (Ascii.eqb_spec opn "{"%char) as [E | _];
    [subst; injection H as <-; conjs; discriminate | discriminate].
Qed.

(** X12. [singleArgContainer] answers [false] only where there is no
    opening bracket at [openPos], or where a comma follows it at nesting
    depth one: between the bracket and the comma, brackets of its kind are
    opened once more than closed.  So a bracket followed by no comma at all
    is always a single-argument container. *)
Theorem singleArgContainer_false (t : str) (openPos : Z) :
  singleArgContainer t openPos = false ->
  (forall opn, charAt t openPos = Some opn -> OPENERS opn = None) \/
  exists opn cls (k : nat),
    charAt t openPos = Some opn /\ OPENERS opn = Some cls /\
    (0 < k)%nat /\
    nth_error (skipn (Z.to_nat openPos) t) k = Some comma /\
    countChar opn (firstn k (skipn (Z.to_nat openPos) t))
      = 1 + countChar cls (firstn k (skipn (Z.to_nat openPos) t)).
Proof.
  unfold singleArgContainer. intros H.
  destruct (charAt t openPos) as [opn|] eqn:Ec; [|left; discriminate].
  destruct (OPENERS opn) as [cls|] eqn:Eo;
    [|left; intros o Ho; injection Ho as <-; exact Eo].
  right. destruct (OPENERS_pair _ _ Eo) as (Hoc & Hco & Hcc).
  destruct (singleArg_loop_false opn cls Hoc Hco Hcc _ _ H) as (k & K1 & K2).
  exists opn, cls, k. conjs; try assumption; try reflexivity; [|lia].
  destruct k as [|k]; [|lia]. exfalso.
  assert (H0 : 0 <= openPos).
  { unfold charAt in Ec. destruct (Z.ltb_spec openPos 0); [discriminate | lia]. }
  rewrite charAt_nth in Ec by exact H0.
  rewrite nth_error_skipn, Nat.add_0_r in K1. congruence.
Qed.

Lemma singleArgContainer_false_witness :
  (forall opn, charAt (lit "f(a, b)") 1 = Some opn -> OPENERS opn = None) \/
  exists opn cls (k : nat),
    charAt (lit "f(a, b)") 1 = Some opn /\ OPENERS opn = Some cls /\
    (0 < k)%nat /\
    nth_error (skipn (Z.to_nat 1) (lit "f(a, b)")) k = Some comma /\
    countChar opn (firstn k (skipn (Z.to_nat 1) (lit "f(a, b)")))
      = 1 + countChar cls (firstn k (skipn (Z.to_nat 1) (lit "f(a, b)"))).
Proof.
  exact (singleArgContainer_false (lit "f(a, b)") 1
           ltac:(vm_compute; reflexivity)).
Defined.

(** ** Continuation indent *)

Lemma indexOfFrom_spec p t : forall i,
  (indexOfFrom i p t = -1 /\
   forall j, (j <= length t)%nat -> prefixb p (skipn j t) = false) \/
  (exists k, indexOfFrom i p t = i + Z.of_nat k /\ (k <= length t)%nat /\
     prefixb p (skipn k t) = true /\
     forall j, (j < k)%nat -> prefixb p (skipn j t) = false).
Proof.
  induction t as [|c t IH]; intros i.
  - simpl indexOfFrom. destruct (prefixb p []) eqn:E.
    + right. exists O. conjs; [lia | simpl; lia | exact E | intros j Hj; lia].
    + left. split; [reflexivity|]. intros j Hj. now rewrite skipn_nil.
  - simpl indexOfFrom. destruct (prefixb p (c :: t)) eqn:E.
    + right. exists O. conjs; [lia | simpl; lia | exact E | intros j Hj; lia].
    + destruct (IH (i + 1)) as [[H1 H2] | (k & H1 & H2 & H3 & H4)].
      * left. split; [exact H1|]. intros [|j] Hj; [exact E|].
        apply H2. simpl in Hj. lia.
      * right. exists (S k). conjs; [lia | simpl; lia | exact H3 |].
        intros [|j] Hj; [exact E|]. apply H4. lia.
Qed.

(** X13. For a linker script the fallback continuation indent is the
    column just past the first colon followed by a space, when there is
    one; in every other case it is the indentation of the line plus 4. *)
Theorem defaultContIndent_cases (lang t : str) (indent : Z) :
  (lang <> lit "ld" -> defaultContIndent lang t indent = indent + 4) /\
  (lang = lit "ld" ->
   (defaultContIndent lang t indent = indent + 4 /\
    forall j, (j <= length t)%nat -> prefixb (lit ": ") (skipn j t) = false)
   \/
   exists k : nat,
     defaultContIndent lang t indent = Z.of_nat k + 2 /\
     prefixb (lit ": ") (skipn k t) = true /\
     forall j, (j < k)%nat -> prefixb (lit ": ") (skipn j t) = false).
Proof.
  unfold defaultContIndent, CONT_INDENT, LD_COLON_OFFSET, indexOf. split.
  - intros Hl. destruct (str_eqb lang (lit "ld")) eqn:E; [|reflexivity].
    apply str_eqb_eq in E. contradiction.
  - intros ->.
    destruct (str_eqb (lit "ld") (lit "ld")) eqn:E; [|discriminate].
    destruct (indexOfFrom_spec (lit ": ") t 0)
      as [[H1 H2] | (k & H1 & H2 & H3 & H4)].
    + left. rewrite H1. split; [reflexivity | exact H2].
    + right. exists k. rewrite H1.
      destruct (Z.leb_spec 0 (0 + Z.of_nat k)); [|lia].
      conjs; [lia | exact H3 | exact H4].
Qed.

Lemma defaultContIndent_cases_witness :
  defaultContIndent (lit "c") (lit "a: b") 2 = 2 + 4.
Proof.
  exact (proj1 (defaultContIndent_cases (lit "c") (lit "a: b") 2)
           ltac:(discriminate)).
Defined.

(** ** Line breaking *)

Lemma breakTrace_length cols budget lang indent fb splits :
  forall s rem prevLen steps final,
    breakTrace splits cols budget lang indent fb s rem prevLen
      = (steps, final) ->
    (length steps <= splits)%nat /\
    shrinking prevLen steps /\
    final = last (map stepRem steps) rem.
Proof.
  induction splits as [|splits IH]; intros s rem prevLen steps final H;
    simpl in H.
  - injection H as <- <-. simpl. auto.
  - destruct (tryBreak cols budget lang indent fb s rem) as [st|] eqn:Htry.
    + destruct (Z.leb_spec prevLen (len (plain (stepRem st)))) as [Hs | Hs].
      * injection H as <- <-. simpl. conjs; [lia | exact I | reflexivity].
      * destruct (breakTrace splits cols budget lang indent fb (stepPs st)
                    (stepRem st) (len (plain (stepRem st))))
          as [steps' final'] eqn:Hrec.
        injection H as <- <-. destruct (IH _ _ _ _ _ Hrec) as (I1 & I2 & I3).
        conjs.
        -- simpl. lia.
        -- destruct steps' as [|st' steps']; [exact I|].
           split; [exact Hs | exact I2].
        -- rewrite I3. simpl map. now rewrite last_cons.
    + injection H as <- <-. simpl. conjs; [lia | exact I | reflexivity].
Qed.

Lemma breakTrace_pad cols budget lang indent fb splits :
  forall s rem prevLen steps final,
    breakTrace splits cols budget lang indent fb s rem prevLen
      = (steps, final) ->
    Forall (fun st =>
              stepRem st = prependPad (after st) (stepCi st) /\
              countSpaces (plain (stepRem st)) = Z.to_nat (stepCi st) /\
              visible (plain (stepRem st)) = visible (plain (after st)))
      steps.
Proof.
  assert (K : forall s rem st,
            tryBreak cols budget lang indent fb s rem = Some st ->
            stepRem st = prependPad (after st) (stepCi st) /\
            countSpaces (plain (stepRem st)) = Z.to_nat (stepCi st) /\
            visible (plain (stepRem st)) = visible (plain (after st))).
  { intros s rem st H. apply tryBreak_inv in H.
    destruct H as (r & _ & _ & _ & _ & _ & _ & _ & Hrem & _).
    rewrite Hrem, prependPad_plain. conjs.
    - reflexivity.
    - unfold spaces. now rewrite countSpaces_spaces, countSpaces_dropSpaces,
        Nat.add_0_r.
    - rewrite visible_app.
      assert (E : visible (spaces (stepCi st)) = []).
      { unfold spaces. induction (Z.to_nat (stepCi st)) as [|k IHk];
          [reflexivity | exact IHk]. }
      rewrite E. simpl. unfold dropSpaces. now apply visible_skip_spaces. }
  induction splits as [|splits IH]; intros s rem prevLen steps final H;
    simpl in H.
  - injection H as <- <-. constructor.
  - destruct (tryBreak cols budget lang indent fb s rem) as [st|] eqn:Htry.
    + destruct (prevLen <=? len (plain (stepRem st))).
      * injection H as <- <-. constructor; [eauto | constructor].
      * destruct (breakTrace splits cols budget lang indent fb (stepPs st)
                    (stepRem st) (len (plain (stepRem st))))
          as [steps' final'] eqn:Hrec.
        injection H as <- <-. constructor; eauto.
    + injection H as <- <-. constructor.
Qed.

Lemma breakLine_steps line cols lang out :
  breakLine line cols lang = Some out ->
  exists st steps final,
    breakTrace MAX_SPLITS cols (budgetFor cols lang) lang
      (leadingSpaces line)
      (defaultContIndent lang (plain line) (leadingSpaces line))
      (mkPS 0 (-1)) line (len (plain line)) = (st :: steps, final) /\
    breakSteps line cols lang = Some (st :: steps, final) /\
    budgetFor cols lang < len (plain line) /\
    out = join [newline]
            (map (fun st => toHTML (before st)
                            ++ marker (hasKey BACKSLASH_LANGS lang))
               (st :: steps) ++ [toHTML final]).
Proof.
  rewrite breakLine_trace. unfold breakSteps.
  destruct (Z.leb_spec (len (plain line)) (budgetFor cols lang)) as [|Hb];
    [discriminate|].
  destruct (breakTrace _ _ _ _ _ _ _ _ _) as [[|st steps] final] eqn:E;
    [discriminate|].
  intros H. injection H as <-. exists st, steps, final.
  conjs; try reflexivity. exact Hb.
Qed.

(** X14. A line that [breakLine] breaks is longer than the budget, gets
    at most 10 breaks, so is written on at most 11 lines, and every break
    but the last leaves a text strictly shorter than the one it was made
    in.  What is written is the markup of the part before each break, with
    the continuation marker of the language, then the markup of what the
    last break leaves, joined by newlines. *)
Theorem breakLine_progress (line : Line) (cols : Z) (lang out : str) :
  breakLine line cols lang = Some out ->
  exists st steps final,
    breakSteps line cols lang = Some (st :: steps, final) /\
    out = join [newline]
            (map (fun st => toHTML (before st)
                            ++ marker (hasKey BACKSLASH_LANGS lang))
               (st :: steps) ++ [toHTML final]) /\
    (length (st :: steps) <= MAX_SPLITS)%nat /\
    shrinking (len (plain line)) (st :: steps) /\
    final = last (map stepRem (st :: steps)) line /\
    budgetFor cols lang < len (plain line).
Proof.
  intros H. apply breakLine_steps in H.
  destruct H as (st & steps & final & E & Es & Hb & Ho).
  exists st, steps, final. apply breakTrace_length in E.
  destruct E as (H1 & H2 & H3). conjs; assumption.
Qed.

Lemma breakLine_progress_witness :
  exists st steps final,
    breakSteps [mkSeg (lit "x = foo(a, b) + bar(c, d);") [] []] 16 (lit "c")
      = Some (st :: steps, final) /\
    match breakLine [mkSeg (lit "x = foo(a, b) + bar(c, d);") [] []] 16
            (lit "c") with Some o => o | None => [] end
    = join [newline]
        (map (fun st => toHTML (before st)
                        ++ marker (hasKey BACKSLASH_LANGS (lit "c")))
           (st :: steps) ++ [toHTML final]) /\
    (length (st :: steps) <= MAX_SPLITS)%nat /\
    shrinking (len (plain [mkSeg (lit "x = foo(a, b) + bar(c, d);") [] []]))
      (st :: steps) /\
    final = last (map stepRem (st :: steps))
              [mkSeg (lit "x = foo(a, b) + bar(c, d);") [] []] /\
    budgetFor 16 (lit "c")
      < len (plain [mkSeg (lit "x = foo(a, b) + bar(c, d);") [] []]).
Proof.
  exact (breakLine_progress
    [mkSeg (lit "x = foo(a, b) + bar(c, d);") [] []] 16 (lit "c")
    (match breakLine [mkSeg (lit "x = foo(a, b) + bar(c, d);") [] []] 16
             (lit "c") with Some o => o | None => [] end)
    ltac:(vm_compute; reflexivity)).
Defined.

(** X15. Every continuation line [breakLine] makes is the part after the
    break without its leading spaces, behind a pad of the continuation
    indent: it starts with exactly that many spaces and has the other
    characters of that part, in order. *)
Theorem breakLine_continuation_pad (line : Line) (cols : Z) (lang out : str) :
  breakLine line cols lang = Some out ->
  exists steps final,
    breakSteps line cols lang = Some (steps, final) /\
    Forall (fun st =>
              stepRem st = prependPad (after st) (stepCi st) /\
              countSpaces (plain (stepRem st)) = Z.to_nat (stepCi st) /\
              visible (plain (stepRem st)) = visible (plain (after st)))
      steps.
Proof.
  intros H. apply breakLine_steps in H.
  destruct H as (st & steps & final & E & Es & _).
  exists (st :: steps), final. split; [exact Es|].
  exact (breakTrace_pad _ _ _ _ _ _ _ _ _ _ _ E).
Qed.

Lemma breakLine_continuation_pad_witness :
  exists steps final,
    breakSteps [mkSeg (lit "x = foo(a, b) + bar(c, d);") [] []] 16 (lit "c")
      = Some (steps, final) /\
    Forall (fun st =>
              stepRem st = prependPad (after st) (stepCi st) /\
              countSpaces (plain (stepRem st)) = Z.to_nat (stepCi st) /\
              visible (plain (stepRem st)) = visible (plain (after st)))
      steps.
Proof.
  exact (breakLine_continuation_pad
    [mkSeg (lit "x = foo(a, b) + bar(c, d);") [] []] 16 (lit "c")
    (match breakLine [mkSeg (lit "x = foo(a, b) + bar(c, d);") [] []] 16
             (lit "c") with Some o => o | None => [] end)
    ltac:(vm_compute; reflexivity)).
Defined.

(** ** Blocks and pages *)

Lemma breakAll_fits cols lang lines :
  Forall (fun l => len (plain l) <= budgetFor cols lang) lines ->
  breakAll lines cols lang = (map toHTML lines, false).
Proof.
  induction 1 as [|line rest Hl _ IH]; [reflexivity|].
  simpl breakAll. rewrite IH. unfold breakLine.
  destruct (Z.leb_spec (len (plain line)) (budgetFor cols lang)); [|lia].
  reflexivity.
Qed.

Lemma toInt32_le z : 0 <= z -> toInt32 z <= z.
Proof.
  intros H. unfold toInt32.
  pose proof (Z.mod_le (z + 2 ^ 31) (2 ^ 32) ltac:(lia) ltac:(lia)). lia.
Qed.

Lemma sar1_le z : 0 < z -> sar1 z <= z.
Proof.
  intros H. unfold sar1. rewrite Z.shiftr_div_pow2 by lia.
  pose proof (toInt32_le z ltac:(lia)).
  change (2 ^ 1) with 2.
  destruct (Z_lt_le_dec (toInt32 z) 0) as [Hn | Hp].
  - pose proof (Z.div_lt_upper_bound (toInt32 z) 2 0 ltac:(lia) ltac:(lia)).
    lia.
  - pose proof (Z.div_le_upper_bound (toInt32 z) 2 (toInt32 z) ltac:(lia)
                  ltac:(lia)). lia.
Qed.

Lemma computeCompressedStep_range step cols :
  0 < step -> 0 < computeCompressedStep step cols <= step.
Proof.
  intros H. unfold computeCompressedStep, MIN_COMPRESSED_STEP.
  destruct (COMPRESS_THRESHOLD <=? cols); simpl orb; [lia|].
  destruct (Z.leb_spec step 2); [lia|].
  pose proof (sar1_le step H).
  destruct (cols <? COMPRESS_AGGRESSIVE); lia.
Qed.

Lemma ratio_range a b :
  0 < a <= b -> (0 < inject_Z a / inject_Z b)%Q /\
                (inject_Z a / inject_Z b <= 1)%Q.
Proof.
  intros H.
  assert (Hb : (0 < inject_Z b)%Q)
    by (change 0%Q with (inject_Z 0); rewrite <- Zlt_Qlt; lia).
  split.
  - apply Qlt_shift_div_l; [exact Hb|]. rewrite Qmult_0_l.
    change 0%Q with (inject_Z 0). rewrite <- Zlt_Qlt. lia.
  - apply Qle_shift_div_r; [exact Hb|]. rewrite Qmult_1_l.
    rewrite <- Zle_Qle. lia.
Qed.

Lemma belowOne_ratio a : 0 < a -> belowOne (inject_Z a / inject_Z a) = false.
Proof.
  intros H. unfold belowOne.
  assert (E : Qle_bool 1 (inject_Z a / inject_Z a) = true).
  { apply Qle_bool_iff. apply Qle_shift_div_l.
    - change 0%Q with (inject_Z 0). rewrite <- Zlt_Qlt. lia.
    - rewrite Qmult_1_l. apply Qle_refl. }
  now rewrite E.
Qed.

Section PageProperties.

Variable parseHTML : str -> list Node.

Lemma formatBlock_unchanged (pre : Pre) (c : CodeEl) (cols : Z) (factor : Q) :
  code pre = Some c ->
  belowOne factor = false ->
  Forall (fun l => len (plain l) <= budgetFor cols (langOf pre))
    (extractLines (parseHTML (innerHTML c))) ->
  formatBlock parseHTML pre cols factor = pre.
Proof.
  intros Hc Hf Hl. unfold formatBlock. rewrite Hc.
  destruct (hasKey SKIP_LANGS (langOf pre)); [reflexivity|].
  unfold reflow. rewrite Hf.
  destruct (MAX_LINES <? len_lines (extractLines (parseHTML (innerHTML c))));
    [reflexivity|].
  rewrite (breakAll_fits _ _ _ Hl). reflexivity.
Qed.

(** X16. [formatBlock] leaves a block exactly as it is, markup and
    snapshot, when it has more than 500 lines, and when the factor is 1 or
    more and every line fits the budget of its language. *)
Theorem formatBlock_fits (pre : Pre) (c : CodeEl) (cols : Z) (factor : Q) :
  code pre = Some c ->
  MAX_LINES < len_lines (extractLines (parseHTML (innerHTML c))) \/
  (belowOne factor = false /\
   Forall (fun l => len (plain l) <= budgetFor cols (langOf pre))
     (extractLines (parseHTML (innerHTML c)))) ->
  formatBlock parseHTML pre cols factor = pre.
Proof.
  intros Hc [Hm | [Hf Hl]]; [|now apply (formatBlock_unchanged pre c)].
  unfold formatBlock. rewrite Hc.
  destruct (hasKey SKIP_LANGS (langOf pre)); [reflexivity|].
  unfold reflow.
  destruct (Z.ltb_spec MAX_LINES
              (len_lines (extractLines (parseHTML (innerHTML c)))));
    [reflexivity | lia].
Qed.

Lemma pageFactor_wide (pres : list Pre) (cols : Z) :
  COMPRESS_THRESHOLD <= cols ->
  belowOne (pageFactor parseHTML pres cols) = false.
Proof.
  intros Hc. induction pres as [|pre rest IH]; simpl; [reflexivity|].
  destruct (hasKey SKIP_LANGS (langOf pre)); [exact IH|].
  destruct (code pre) as [c|]; [|exact IH].
  destruct (MAX_LINES <? len_lines (extractLines (parseHTML (innerHTML c))));
    [exact IH|].
  unfold computeCompressedStep.
  destruct (Z.leb_spec COMPRESS_THRESHOLD cols); [|lia]. simpl orb.
  apply belowOne_ratio. apply detectIndentStep_pos.
Qed.

(** X17. The indentation factor [formatAll] computes for a page is
    positive and at most 1, whatever the blocks and the width: indentation
    is compressed or kept, never widened. *)
Theorem pageFactor_range (pres : list Pre) (cols : Z) :
  (0 < pageFactor parseHTML pres cols)%Q /\
  (pageFactor parseHTML pres cols <= 1)%Q.
Proof.
  induction pres as [|pre rest IH]; simpl.
  - split; [reflexivity | apply Qle_refl].
  - destruct (hasKey SKIP_LANGS (langOf pre)); [exact IH|].
    destruct (code pre) as [c|]; [|exact IH].
    destruct (MAX_LINES <? len_lines (extractLines (parseHTML (innerHTML c))));
      [exact IH|].
    apply ratio_range. apply computeCompressedStep_range.
    apply detectIndentStep_pos.
Qed.

Variable measureColumns : Pre -> Z.

Lemma restore_frame pre :
  dataLang (restore pre) = dataLang pre /\
  option_map pristine (code (restore pre)) = option_map pristine (code pre).
Proof. destruct pre as [l [[h [o|]]|]]; split; reflexivity. Qed.

Lemma formatBlock_frame pre cols factor :
  dataLang (formatBlock parseHTML pre cols factor) = dataLang pre /\
  option_map pristine (code (formatBlock parseHTML pre cols factor))
    = option_map pristine (code pre).
Proof.
  destruct pre as [l [c|]]; [|split; reflexivity].
  destruct (formatBlock_cases parseHTML l c cols factor) as [E | (out & E)];
    rewrite E; split; reflexivity.
Qed.

Lemma formatAll_blockwise page :
  exists g,
    formatAll parseHTML measureColumns page = map g (restoreAll page) /\
    forall pre, g pre = pre \/
      (hasLang pre = true /\
       exists cols factor, g pre = formatBlock parseHTML pre cols factor).
Proof.
  unfold formatAll.
  destruct (filter hasLang (restoreAll page)) as [|first rest].
  - exists (fun pre => pre). split; [now rewrite map_id | now left].
  - unfold formatPass.
    destruct ((measureColumns first <=? 0) || (MAX_COLS <=? measureColumns first)).
    + exists (fun pre => pre). split; [now rewrite map_id | now left].
    + eexists. split; [reflexivity|]. intros pre. cbv beta.
      destruct (hasLang pre); [right | now left].
      split; [reflexivity|]. now eexists _, _.
Qed.

(** X18. A pass of [formatAll] keeps the blocks of the page, their tags
    and their pristine markup, the snapshot where there is one and the
    markup otherwise; and a block without a [data-lang] attribute is only
    restored. *)
Theorem formatAll_frame (page : list Pre) :
  map dataLang (formatAll parseHTML measureColumns page) = map dataLang page /\
  map (fun pre => option_map pristine (code pre))
      (formatAll parseHTML measureColumns page)
    = map (fun pre => option_map pristine (code pre)) page /\
  forall i pre, nth_error page i = Some pre -> hasLang pre = false ->
    nth_error (formatAll parseHTML measureColumns page) i = Some (restore pre).
Proof.
  destruct (formatAll_blockwise page) as (g & -> & Hg).
  unfold restoreAll. rewrite !map_map. conjs.
  - apply map_ext. intros pre.
    destruct (Hg (restore pre)) as [-> | (_ & cols & factor & ->)].
    + apply restore_frame.
    + destruct (formatBlock_frame (restore pre) cols factor) as [-> _].
      apply restore_frame.
  - apply map_ext. intros pre.
    destruct (Hg (restore pre)) as [-> | (_ & cols & factor & ->)].
    + apply restore_frame.
    + destruct (formatBlock_frame (restore pre) cols factor) as [_ ->].
      apply restore_frame.
  - intros i pre Hi Hl. rewrite nth_error_map, Hi. simpl. f_equal.
    destruct (Hg (restore pre)) as [E | (Hl' & _)]; [exact E|].
    unfold hasLang in *. destruct (restore_frame pre) as [Ed _].
    rewrite Ed in Hl'. congruence.
Qed.

Lemma restoreAll_pristine page :
  Forall (fun pre => forall c, code pre = Some c -> dataOriginal c = None) page ->
  restoreAll page = page.
Proof.
  induction 1 as [|pre rest Hp _ IH]; [reflexivity|].
  simpl. rewrite IH. f_equal.
  destruct pre as [l [[h o]|]]; [|reflexivity].
  specialize (Hp _ eq_refl). simpl in Hp. now subst o.
Qed.

(** X19. A page without snapshots comes out of [formatAll] exactly as it
    went in when no block has a [data-lang] attribute, when the measured
    width is not between 1 and 199 columns, or when that width is at least
    55 columns and every line of every tagged block fits its budget. *)
Theorem formatAll_unchanged (page : list Pre) :
  Forall (fun pre => forall c, code pre = Some c -> dataOriginal c = None) page ->
  match filter hasLang page with
  | [] => True
  | first :: _ =>
      let cols := measureColumns first in
      cols <= 0 \/ MAX_COLS <= cols \/
      (COMPRESS_THRESHOLD <= cols /\
       Forall (fun pre => forall c, code pre = Some c ->
                 Forall (fun l => len (plain l) <= budgetFor cols (langOf pre))
                   (extractLines (parseHTML (innerHTML c))))
         (filter hasLang page))
  end ->
  formatAll parseHTML measureColumns page = page.
Proof.
  intros Hp H. unfold formatAll. rewrite (restoreAll_pristine page Hp).
  destruct (filter hasLang page) as [|first rest] eqn:Ef; [reflexivity|].
  cbv zeta in H. unfold formatPass.
  destruct (Z.leb_spec (measureColumns first) 0) as [|H0]; [reflexivity|].
  destruct (Z.leb_spec MAX_COLS (measureColumns first)) as [|H1];
    [reflexivity|].
  simpl orb. destruct H as [H | [H | [Hw Hfit]]]; [lia | lia |].
  rewrite <- (map_id page) at 2. apply map_ext_in. intros pre Hin.
  destruct (hasLang pre) eqn:El; [|reflexivity].
  destruct (code pre) as [c|] eqn:Ec;
    [|unfold formatBlock; now rewrite Ec].
  apply (formatBlock_unchanged pre c); [exact Ec | | ].
  - now apply pageFactor_wide.
  - rewrite Forall_forall in Hfit. apply Hfit; [|exact Ec].
    rewrite <- Ef. apply filter_In. now split.
Qed.

End PageProperties.

Lemma formatAll_unchanged_witness :
  formatAll textOnly (fun _ => 80)
    [mkPre (Some (lit "c")) (Some (mkCode (lit "int x;") None));
     mkPre None (Some (mkCode (lit "plain") None))]
  = [mkPre (Some (lit "c")) (Some (mkCode (lit "int x;") None));
     mkPre None (Some (mkCode (lit "plain") None))].
Proof.
  apply (formatAll_unchanged textOnly (fun _ => 80)).
  - repeat constructor; intros c E; injection E as <-; reflexivity.
  - simpl. right. right. split; [vm_compute; discriminate|].
    repeat constructor. intros c E. injection E as <-.
    vm_compute. repeat constructor. discriminate.
Defined.

Lemma formatBlock_fits_witness :
  formatBlock textOnly
    (mkPre (Some (lit "c")) (Some (mkCode (lit "int x;") None))) 40 1
  = mkPre (Some (lit "c")) (Some (mkCode (lit "int x;") None)).
Proof.
  exact (formatBlock_fits textOnly
    (mkPre (Some (lit "c")) (Some (mkCode (lit "int x;") None)))
    (mkCode (lit "int x;") None) 40 1 eq_refl
    ltac:(right; split; [reflexivity|];
          vm_compute; repeat constructor; discriminate)).
Defined.

(** ** Indent compression *)

Lemma indentLoop_frame step factor lines : forall st,
  Forall2 (fun l l' => visible (plain l') = visible (plain l) /\
                       styles l' = styles l /\
                       len (plain l') <= len (plain l))
    lines (fst (indentLoop step factor st lines)) /\
  (snd (indentLoop step factor st lines) = false ->
   fst (indentLoop step factor st lines) = lines).
Proof.
  induction lines as [|line rest IH]; intros st.
  - simpl. split; [constructor | reflexivity].
  - simpl indentLoop.
    destruct (indentLine step factor st line) as [[line' ch] st'] eqn:E.
    specialize (IH st').
    destruct (indentLoop step factor st' rest) as [rest' ch'].
    simpl fst in *. simpl snd in *. destruct IH as [I1 I2].
    unfold indentLine in E.
    destruct (0 <? Z.max 0 (searchNonWhite (plain line))).
    + set (remove := if isAligned step st (Z.max 0 (searchNonWhite (plain line)))
                     then prevRemoved st
                     else Z.max 0 (searchNonWhite (plain line))
                          - jsRound (inject_Z (Z.max 0 (searchNonWhite (plain line)))
                                     * factor)) in E.
      injection E as <- <- _. split.
      * constructor; [|exact I1].
        destruct (0 <? remove); [|conjs; try reflexivity; lia].
        destruct (removeNSpaces_keeps line remove) as (K1 & K2 & K3).
        conjs; [exact K1 | exact K2 | lia].
      * intros Hch. apply orb_false_iff in Hch. destruct Hch as [Hr Hc].
        rewrite Hr. now rewrite (I2 Hc).
    + injection E as <- <- _. split.
      * constructor; [|exact I1]. conjs; try reflexivity; lia.
      * intros Hch. simpl in Hch. now rewrite (I2 Hch).
Qed.

(** X20. [applyIndentFactor] keeps the lines of the block, in number and
    in order, and takes nothing but space characters off any of them: the
    other characters and the markup of the styled segments stay, and no
    line gets longer.  When it reports no change, the lines are as they
    were. *)
Theorem applyIndentFactor_frame (lines : list Line) (factor : Q) :
  Forall2 (fun l l' => visible (plain l') = visible (plain l) /\
                       styles l' = styles l /\
                       len (plain l') <= len (plain l))
    lines (fst (applyIndentFactor lines factor)) /\
  (snd (applyIndentFactor lines factor) = false ->
   fst (applyIndentFactor lines factor) = lines).
Proof. unfold applyIndentFactor. apply indentLoop_frame. Qed.

(** ** Chunk scanner *)

Lemma ruleStep_proposal t floor maxCols i prev now b bps ls r :
  fst (fst (ruleStep t floor maxCols i prev now (b, bps, ls) r))
  = match proposal t floor i r with
    | Some c => if (c <=? maxCols) && (b <? c) then c else b
    | None => b
    end /\
  snd (ruleStep t floor maxCols i prev now (b, bps, ls) r)
  = match proposal t floor i r with
    | Some c => if sep r && (ls <? c) then c else ls
    | None => ls
    end.
Proof.
  unfold ruleStep, proposal.
  destruct (negb (ruleMatches t i r)); [split; reflexivity|].
  set (c := match mode r with After => i + len (pat r) | Before => i end).
  destruct ((c <=? floor) || (len t <=? c)); [split; reflexivity|].
  destruct (if singleIn isOpener (pat r) then singleArgContainer t i
            else if singleIn isCloser (pat r)
                 then (0 <=? findMatchingOpen t i)
                      && singleArgContainer t (findMatchingOpen t i)
                 else false); [split; reflexivity|].
  destruct ((c <=? maxCols) && (b <? c)); split; reflexivity.
Qed.

Lemma proposal_range t floor i r c :
  0 <= i -> proposal t floor i r = Some c ->
  i <= c /\ floor < c < len t /\ i < len t.
Proof.
  unfold proposal. intros Hi H.
  destruct (ruleMatches t i r) eqn:Em; [|discriminate]. simpl in H.
  set (b := match mode r with After => i + len (pat r) | Before => i end) in H.
  destruct (Z.leb_spec b floor); [discriminate|].
  destruct (Z.leb_spec (len t) b); [discriminate|]. simpl in H.
  destruct (if singleIn isOpener (pat r) then _ else _); [discriminate|].
  injection H as <-.
  assert (i <= b)
    by (unfold b; pose proof (len_nonneg (pat r)); destruct (mode r); lia).
  conjs; lia.
Qed.

Section Rightmost.

Variable t : str.
Variable rules : list Rule.
Variables floor maxCols : Z.
Variable init : PS.
Hypothesis rules_good : forallb goodRule rules = true.

Lemma bestOver_ext (P Q : nat -> Rule -> Prop) b :
  (forall i r, P i r <-> Q i r) ->
  bestOver t floor maxCols P b -> bestOver t floor maxCols Q b.
Proof.
  intros E [[H1 | (i & r & Hp & Hc & Hm)] H2]; split.
  - now left.
  - intros i r c Hq. apply (H2 i r c). now apply E.
  - right. exists i, r. split; [now apply E | now split].
  - intros i' r' c Hq. apply (H2 i' r' c). now apply E.
Qed.

Lemma sepOver_ext (P Q : nat -> Rule -> Prop) ls :
  (forall i r, P i r <-> Q i r) ->
  sepOver t floor P ls -> sepOver t floor Q ls.
Proof.
  intros E [[H1 | (i & r & Hp & Hc & Hm)] H2]; split.
  - now left.
  - intros i r c Hq. apply (H2 i r c). now apply E.
  - right. exists i, r. split; [now apply E | now split].
  - intros i' r' c Hq. apply (H2 i' r' c). now apply E.
Qed.

Lemma ruleStep_over (P : nat -> Rule -> Prop) i prev now acc r :
  quoted t i = false ->
  bestOver t floor maxCols P (fst (fst acc)) ->
  sepOver t floor P (snd acc) ->
  bestOver t floor maxCols (fun i' r' => P i' r' \/ (i' = i /\ r' = r))
    (fst (fst (ruleStep t floor maxCols (Z.of_nat i) prev now acc r))) /\
  sepOver t floor (fun i' r' => P i' r' \/ (i' = i /\ r' = r))
    (snd (ruleStep t floor maxCols (Z.of_nat i) prev now acc r)).
Proof.
  destruct acc as [[b bps] ls]. cbn [fst snd].
  intros Hq [B1 B2] [S1 S2].
  destruct (ruleStep_proposal t floor maxCols (Z.of_nat i) prev now b bps ls r)
    as [E1 E2].
  rewrite E1, E2. clear E1 E2.
  assert (Ec : candidate t floor i r = proposal t floor (Z.of_nat i) r)
    by (unfold candidate; now rewrite Hq).
  destruct (proposal t floor (Z.of_nat i) r) as [c|].
  - split.
    + destruct (Z.leb_spec c maxCols) as [Hm | Hm]; simpl andb.
      * destruct (Z.ltb_spec b c) as [Hb | Hb]; split.
        -- right. exists i, r. split; [right; now split | now split].
        -- intros i' r' c' [Hp | [-> ->]] Hc' Hm'.
           ++ specialize (B2 _ _ _ Hp Hc' Hm'). lia.
           ++ rewrite Ec in Hc'. injection Hc' as <-. lia.
        -- destruct B1 as [B1 | (i0 & r0 & K1 & K2 & K3)]; [now left|].
           right. exists i0, r0. split; [now left | now split].
        -- intros i' r' c' [Hp | [-> ->]] Hc' Hm'.
           ++ exact (B2 _ _ _ Hp Hc' Hm').
           ++ rewrite Ec in Hc'. injection Hc' as <-. lia.
      * split.
        -- destruct B1 as [B1 | (i0 & r0 & K1 & K2 & K3)]; [now left|].
           right. exists i0, r0. split; [now left | now split].
        -- intros i' r' c' [Hp | [-> ->]] Hc' Hm'.
           ++ exact (B2 _ _ _ Hp Hc' Hm').
           ++ rewrite Ec in Hc'. injection Hc' as <-. lia.
    + destruct (sep r) eqn:Es; simpl andb.
      * destruct (Z.ltb_spec ls c) as [Hb | Hb]; split.
        -- right. exists i, r. split; [right; now split | now split].
        -- intros i' r' c' [Hp | [-> ->]] Hs' Hc'.
           ++ specialize (S2 _ _ _ Hp Hs' Hc'). lia.
           ++ rewrite Ec in Hc'. injection Hc' as <-. lia.
        -- destruct S1 as [S1 | (i0 & r0 & K1 & K2 & K3)]; [now left|].
           right. exists i0, r0. split; [now left | now split].
        -- intros i' r' c' [Hp | [-> ->]] Hs' Hc'.
           ++ exact (S2 _ _ _ Hp Hs' Hc').
           ++ rewrite Ec in Hc'. injection Hc' as <-. lia.
      * split.
        -- destruct S1 as [S1 | (i0 & r0 & K1 & K2 & K3)]; [now left|].
           right. exists i0, r0. split; [now left | now split].
        -- intros i' r' c' [Hp | [-> ->]] Hs' Hc'.
           ++ exact (S2 _ _ _ Hp Hs' Hc').
           ++ congruence.
  - split; split.
    + destruct B1 as [B1 | (i0 & r0 & K1 & K2 & K3)]; [now left|].
      right. exists i0, r0. split; [now left | now split].
    + intros i' r' c' [Hp | [-> ->]] Hc' Hm';
        [exact (B2 _ _ _ Hp Hc' Hm') | congruence].
    + destruct S1 as [S1 | (i0 & r0 & K1 & K2 & K3)]; [now left|].
      right. exists i0, r0. split; [now left | now split].
    + intros i' r' c' [Hp | [-> ->]] Hs' Hc';
        [exact (S2 _ _ _ Hp Hs' Hc') | congruence].
Qed.

Lemma ruleFold_over i prev now : forall rs (P : nat -> Rule -> Prop) acc,
  quoted t i = false ->
  bestOver t floor maxCols P (fst (fst acc)) ->
  sepOver t floor P (snd acc) ->
  bestOver t floor maxCols (fun i' r' => P i' r' \/ (i' = i /\ In r' rs))
    (fst (fst (fold_left (ruleStep t floor maxCols (Z.of_nat i) prev now)
                 rs acc))) /\
  sepOver t floor (fun i' r' => P i' r' \/ (i' = i /\ In r' rs))
    (snd (fold_left (ruleStep t floor maxCols (Z.of_nat i) prev now) rs acc)).
Proof.
  induction rs as [|r rs IH]; intros P acc Hq HB HS.
  - simpl fold_left. split.
    + apply (bestOver_ext P); [|exact HB]. intros i' r'. simpl. tauto.
    + apply (sepOver_ext P); [|exact HS]. intros i' r'. simpl. tauto.
  - cbn [fold_left].
    destruct (ruleStep_over P i prev now acc r Hq HB HS) as [HB1 HS1].
    destruct (IH _ _ Hq HB1 HS1) as [HB2 HS2]. split.
    + eapply bestOver_ext; [|exact HB2]. intros i' r'. simpl.
      split; [intros [[H | [H1 H2]] | [H1 H2]] | intros [H | [H1 [H2 | H2]]]];
        subst; auto.
    + eapply sepOver_ext; [|exact HS2]. intros i' r'. simpl.
      split; [intros [[H | [H1 H2]] | [H1 H2]] | intros [H | [H1 [H2 | H2]]]];
        subst; auto.
Qed.

Lemma over_skip n b ls :
  (forall r, candidate t floor n r = None) ->
  bestOver t floor maxCols (fun i r => (i < n)%nat /\ In r rules) b ->
  sepOver t floor (fun i r => (i < n)%nat /\ In r rules) ls ->
  bestOver t floor maxCols (fun i r => (i < S n)%nat /\ In r rules) b /\
  sepOver t floor (fun i r => (i < S n)%nat /\ In r rules) ls.
Proof.
  intros Hn [B1 B2] [S1 S2].
  assert (K : forall i r c, (i < S n)%nat -> candidate t floor i r = Some c ->
                            (i < n)%nat).
  { intros i r c Hi Hc. destruct (Nat.eq_dec i n) as [-> | Hne]; [|lia].
    rewrite Hn in Hc. discriminate. }
  split; split.
  - destruct B1 as [B1 | (i & r & [K1 K1'] & K2 & K3)]; [now left|].
    right. exists i, r. split; [split; [lia | exact K1'] | now split].
  - intros i r c [Hi Hr] Hc Hm. apply (B2 i r c); [|exact Hc | exact Hm].
    split; [exact (K _ _ _ Hi Hc) | exact Hr].
  - destruct S1 as [S1 | (i & r & [K1 K1'] & K2 & K3)]; [now left|].
    right. exists i, r. split; [split; [lia | exact K1'] | now split].
  - intros i r c [Hi Hr] Hs Hc. apply (S2 i r c); [|exact Hs | exact Hc].
    split; [exact (K _ _ _ Hi Hc) | exact Hr].
Qed.

Lemma scanStep_over st n :
  (n < length t)%nat ->
  quoteInv t st n ->
  bestOver t floor maxCols (fun i r => (i < n)%nat /\ In r rules) (best st) ->
  sepOver t floor (fun i r => (i < n)%nat /\ In r rules) (lastSepPos st) ->
  bestOver t floor maxCols (fun i r => (i < S n)%nat /\ In r rules)
    (best (scanStep t rules floor maxCols st (Z.of_nat n))) /\
  sepOver t floor (fun i r => (i < S n)%nat /\ In r rules)
    (lastSepPos (scanStep t rules floor maxCols st (Z.of_nat n))).
Proof.
  intros Hn Hq HB HS. unfold scanStep. rewrite charAt_of_nat.
  destruct (nth_error t n) as [c|] eqn:Ec;
    [|apply nth_error_None in Ec; lia].
  unfold quoteInv in Hq.
  destruct (inStr st) eqn:Ei.
  - assert (Hn' : forall r, candidate t floor n r = None).
    { intros r. unfold candidate, quoted. now rewrite Hq. }
    destruct (Ascii.eqb c (strChar st)
              && ((Z.of_nat n =? 0)
                  || negb (charIs t (Z.of_nat n - 1) backslash)));
      apply over_skip; assumption.
  - destruct (Ascii.eqb c dquote || Ascii.eqb c squote) eqn:Eq.
    + assert (Hn' : forall r, candidate t floor n r = None).
      { intros r. unfold candidate, quoted. rewrite Hq, Ec.
        unfold isQuote. now rewrite Eq. }
      apply over_skip; assumption.
    + assert (Hn' : quoted t n = false).
      { unfold quoted. rewrite Hq, Ec. exact Eq. }
      destruct (ruleFold_over n (cur st) (bracketStep (cur st) (Z.of_nat n) c)
                  rules _ (best st, bestPs st, lastSepPos st) Hn' HB HS)
        as [HB' HS'].
      destruct (fold_left _ rules _) as [[b bps] ls]. simpl in HB', HS' |- *.
      split.
      * eapply bestOver_ext; [|exact HB']. intros i r. simpl.
        split; [intros [[H1 H2] | [H1 H2]] | intros [H1 H2]]; subst.
        -- split; [lia | exact H2].
        -- split; [lia | exact H2].
        -- destruct (Nat.eq_dec i n) as [-> | Hne];
             [right; now split | left; split; [lia | exact H2]].
      * eapply sepOver_ext; [|exact HS']. intros i r. simpl.
        split; [intros [[H1 H2] | [H1 H2]] | intros [H1 H2]]; subst.
        -- split; [lia | exact H2].
        -- split; [lia | exact H2].
        -- destruct (Nat.eq_dec i n) as [-> | Hne];
             [right; now split | left; split; [lia | exact H2]].
Qed.

Lemma scanUpTo_over n :
  (n <= length t)%nat ->
  bestOver t floor maxCols (fun i r => (i < n)%nat /\ In r rules)
    (best (scanUpTo t rules floor maxCols init n)) /\
  sepOver t floor (fun i r => (i < n)%nat /\ In r rules)
    (lastSepPos (scanUpTo t rules floor maxCols init n)).
Proof.
  induction n as [|n IH]; intros Hn.
  - split; (split; [now left | intros i r c [Hi _]; lia]).
  - rewrite scanUpTo_S. destruct IH as [HB HS]; [lia|].
    apply scanStep_over; try assumption.
    now destruct (scanUpTo_inv t rules floor maxCols init rules_good n
                    ltac:(lia)) as (Hq & _).
Qed.

End Rightmost.

Lemma candidate_range t floor i r c :
  candidate t floor i r = Some c ->
  (i < length t)%nat /\ 0 <= c.
Proof.
  unfold candidate. destruct (quoted t i); [discriminate|]. intros H.
  apply proposal_range in H; [|lia]. unfold len in H. lia.
Qed.

(** X21. Among the offsets that the rules of the language propose at the
    characters outside the quoted runs, [scanChunk] returns the greatest
    one within [maxCols], and returns none only when there is none.  Its
    flag [hasArgSep] tells whether a rule that separates arguments
    proposes an offset at or after the one returned. *)
Theorem scanChunk_rightmost (t lang : str) (floor maxCols : Z) (init : PS) :
  match scanChunk t lang floor maxCols init with
  | Some res =>
      (exists i r, In r (rulesFor lang) /\
         candidate t floor i r = Some (bp res)) /\
      bp res <= maxCols /\
      (forall i r c, In r (rulesFor lang) ->
         candidate t floor i r = Some c -> c <= maxCols -> c <= bp res) /\
      (hasArgSep res = true <->
       exists i r c, In r (rulesFor lang) /\ sep r = true /\
         candidate t floor i r = Some c /\ bp res <= c)
  | None =>
      forall i r c, In r (rulesFor lang) ->
        candidate t floor i r = Some c -> maxCols < c
  end.
Proof.
  destruct (scanUpTo_over t (rulesFor lang) floor maxCols init
              (rulesFor_good lang) (length t) (Nat.le_refl _))
    as [[B1 B2] [S1 S2]].
  pose proof (scan_best_ps t lang floor maxCols init) as Hps.
  unfold scanChunk. cbv zeta in Hps.
  set (st := scanUpTo t (rulesFor lang) floor maxCols init (length t)) in *.
  destruct (Z.ltb_spec (best st) 0) as [Hneg | Hpos].
  - intros i r c Hr Hc.
    destruct (Z_lt_le_dec maxCols c) as [|Hm]; [assumption|]. exfalso.
    destruct (candidate_range _ _ _ _ _ Hc) as [Hi H0].
    specialize (B2 i r c (conj Hi Hr) Hc Hm). lia.
  - destruct (bestPs st) as [p|]; [|now destruct (Hps Hpos)].
    simpl bp. simpl hasArgSep.
    destruct B1 as [B1 | (i & r & [K1 K1'] & K2 & K3)]; [lia|].
    split; [|split; [|split]].
    + exists i, r. now split.
    + exact K3.
    + intros i' r' c Hr Hc Hm.
      destruct (candidate_range _ _ _ _ _ Hc) as [Hi H0].
      exact (B2 i' r' c (conj Hi Hr) Hc Hm).
    + split.
      * intros Hle. apply Z.leb_le in Hle.
        destruct S1 as [S1 | (i' & r' & [L1 L1'] & L2 & L3)]; [lia|].
        exists i', r', (lastSepPos st). conjs; assumption.
      * intros (i' & r' & c & Hr & Hs & Hc & Hle). apply Z.leb_le.
        destruct (candidate_range _ _ _ _ _ Hc) as [Hi H0].
        specialize (S2 i' r' c (conj Hi Hr) Hs Hc). lia.
Qed.

(** * Brackets, continuation indents and the last line

    The bracket state of the scanner against the brackets open in the
    text, the continuation indents told from the text, and the bound on the
    last line of a chain of breaks. *)

(** ** The depth of the scanner is the number of open brackets *)

Lemma rulesFor_strict lang : forallb strictRule (rulesFor lang) = true.
Proof.
  unfold rulesFor, RULES.
  repeat match goal with
         | |- context [if ?g then _ else _] => destruct g
         end; reflexivity.
Qed.

Section ScannerDepth.

Variable t : str.
Variable rules : list Rule.
Variables floor maxCols : Z.
Variable init : PS.
Variable inh : list Z.
Hypothesis rules_good : forallb goodRule rules = true.
Hypothesis rules_strict : forallb strictRule rules = true.
Hypothesis init_depth : depth init = Z.of_nat (length inh).

Lemma stack_quoted n :
  quoted t n = true -> openStackFrom inh t (S n) = openStackFrom inh t n.
Proof. intros H. simpl. unfold openerAt, closerAt. now rewrite H. Qed.

Lemma stack_run m : forall n,
  (forall j, (j < m)%nat ->
     exists c, nth_error t (n + j) = Some c /\
               isOpener c = false /\ isCloser c = false) ->
  openStackFrom inh t (n + m) = openStackFrom inh t n.
Proof.
  induction m as [|m IH]; intros n H.
  - now rewrite Nat.add_0_r.
  - rewrite Nat.add_succ_r. simpl.
    destruct (H m ltac:(lia)) as (c & Hc & Ho & Hcl).
    unfold openerAt, closerAt. rewrite Hc, Ho, Hcl, !andb_false_r.
    apply IH. intros j Hj. apply H. lia.
Qed.

Lemma bracketStep_depth prev n c :
  nth_error t n = Some c -> quoteAt t n = None -> isQuote c = false ->
  depth prev = Z.of_nat (length (openStackFrom inh t n)) ->
  depth (bracketStep prev (Z.of_nat n) c)
  = Z.of_nat (length (openStackFrom inh t (S n))).
Proof.
  intros Hc Hq Hnq Hd. unfold bracketStep. simpl openStackFrom.
  unfold openerAt, closerAt, quoted. rewrite Hq, Hc, Hnq. simpl negb.
  simpl andb.
  destruct (isOpener c).
  - simpl. lia.
  - destruct (isCloser c); [|exact Hd].
    destruct (openStackFrom inh t n) as [|x stack]; simpl in *.
    + destruct (Z.leb_spec (depth prev - 1) 0); simpl; lia.
    + destruct (Z.leb_spec (depth prev - 1) 0); simpl; lia.
Qed.

Lemma ruleStep_depth n c prev r b bps ls :
  nth_error t n = Some c -> quoteAt t n = None -> isQuote c = false ->
  goodRule r = true -> strictRule r = true ->
  depth prev = Z.of_nat (length (openStackFrom inh t n)) ->
  (forall p, bps = Some p ->
     0 <= b /\ depth p = Z.of_nat (length (openStackFrom inh t (Z.to_nat b)))) ->
  forall p,
    snd (fst (ruleStep t floor maxCols (Z.of_nat n) prev
                (bracketStep prev (Z.of_nat n) c) (b, bps, ls) r)) = Some p ->
    0 <= fst (fst (ruleStep t floor maxCols (Z.of_nat n) prev
                     (bracketStep prev (Z.of_nat n) c) (b, bps, ls) r)) /\
    depth p
    = Z.of_nat (length (openStackFrom inh t
         (Z.to_nat (fst (fst (ruleStep t floor maxCols (Z.of_nat n) prev
                                (bracketStep prev (Z.of_nat n) c)
                                (b, bps, ls) r)))))).
Proof.
  intros Hc Hq Hnq Hr Hs Hprev Hbest.
  pose proof (bracketStep_depth prev n c Hc Hq Hnq Hprev) as Hnow.
  unfold ruleStep.
  destruct (ruleMatches t (Z.of_nat n) r) eqn:Hm; simpl negb; cbv iota;
    [|exact Hbest].
  match goal with |- context [if ?g then _ else _] =>
    destruct g eqn:Hbound; [exact Hbest|] end.
  match goal with |- context [if ?g then _ else _] =>
    destruct g; [exact Hbest|] end.
  match goal with |- context [if ?g then _ else _] =>
    destruct g eqn:Hnew; [|exact Hbest] end.
  cbn [fst snd]. intros p Hp. injection Hp as <-.
  unfold ruleMatches in Hm. unfold goodRule in Hr. unfold strictRule in Hs.
  destruct (pat r) as [|x rest] eqn:Hpat; [discriminate|].
  pose proof (patMatches_chars t (x :: rest) (Z.of_nat n) 0
                ltac:(lia) ltac:(lia) Hm) as Hchars.
  rewrite Z.add_0_r, Nat2Z.id in Hchars.
  assert (Hx : c = x).
  { specialize (Hchars O ltac:(simpl; lia)). rewrite Nat.add_0_r in Hchars.
    simpl in Hchars. congruence. }
  subst x. pose proof (len_nonneg (c :: rest)) as Hl.
  destruct (mode r).
  - (* After *)
    apply andb_prop in Hr. destruct Hr as [_ Hrest].
    rewrite forallb_forall in Hrest. rewrite forallb_forall in Hs.
    assert (Hto : Z.to_nat (Z.of_nat n + len (c :: rest))
                  = (S n + length rest)%nat) by (unfold len; simpl; lia).
    rewrite Hto. split; [lia|]. rewrite Hnow.
    rewrite stack_run; [reflexivity|]. intros j Hj.
    replace (S n + j)%nat with (n + S j)%nat by lia.
    rewrite Hchars by (simpl; lia). simpl.
    destruct (nth_error rest j) as [y|] eqn:Hy.
    + exists y. split; [reflexivity|].
      apply nth_error_In in Hy. pose proof (Hrest _ Hy) as H1.
      pose proof (Hs _ Hy) as H2.
      apply andb_prop in H1. destruct H1 as [_ H1].
      apply negb_true_iff in H1. apply negb_true_iff in H2. now split.
    + apply nth_error_None in Hy. lia.
  - (* Before *)
    rewrite Nat2Z.id. split; [lia|].
    destruct (singleIn isCloser (c :: rest)) eqn:Hsc; [exact Hprev|].
    simpl in Hr. apply andb_prop in Hr. destruct Hr as [Ho Hcl].
    apply negb_true_iff in Ho. apply negb_true_iff in Hcl.
    unfold bracketStep. rewrite Ho, Hcl. exact Hprev.
Qed.

Lemma ruleFold_depth n c prev :
  nth_error t n = Some c -> quoteAt t n = None -> isQuote c = false ->
  depth prev = Z.of_nat (length (openStackFrom inh t n)) ->
  forall rs acc,
    forallb goodRule rs = true -> forallb strictRule rs = true ->
    (forall p, snd (fst acc) = Some p ->
       0 <= fst (fst acc) /\
       depth p
       = Z.of_nat (length (openStackFrom inh t (Z.to_nat (fst (fst acc)))))) ->
    forall p,
      snd (fst (fold_left (ruleStep t floor maxCols (Z.of_nat n) prev
                             (bracketStep prev (Z.of_nat n) c)) rs acc))
      = Some p ->
      0 <= fst (fst (fold_left (ruleStep t floor maxCols (Z.of_nat n) prev
                                  (bracketStep prev (Z.of_nat n) c)) rs acc))
      /\
      depth p
      = Z.of_nat (length (openStackFrom inh t
           (Z.to_nat (fst (fst (fold_left
              (ruleStep t floor maxCols (Z.of_nat n) prev
                 (bracketStep prev (Z.of_nat n) c)) rs acc)))))).
Proof.
  intros Hc Hq Hnq Hprev.
  induction rs as [|r rs IH]; intros [[b bps] ls] Hrs Hss Hacc;
    cbn [fold_left]; [exact Hacc|].
  simpl in Hrs, Hss. apply andb_prop in Hrs. destruct Hrs as [Hr Hrs].
  apply andb_prop in Hss. destruct Hss as [Hs Hss].
  apply IH; [assumption | assumption |].
  pose proof (ruleStep_depth n c prev r b bps ls Hc Hq Hnq Hr Hs Hprev Hacc)
    as HS.
  destruct (ruleStep t floor maxCols (Z.of_nat n) prev
              (bracketStep prev (Z.of_nat n) c) (b, bps, ls) r)
    as [[b' bps'] ls'].
  exact HS.
Qed.

Lemma scanStep_depth st n :
  (n < length t)%nat ->
  quoteInv t st n ->
  depth (cur st) = Z.of_nat (length (openStackFrom inh t n)) ->
  (forall p, bestPs st = Some p ->
     0 <= best st /\
     depth p = Z.of_nat (length (openStackFrom inh t (Z.to_nat (best st))))) ->
  depth (cur (scanStep t rules floor maxCols st (Z.of_nat n)))
  = Z.of_nat (length (openStackFrom inh t (S n))) /\
  (forall p, bestPs (scanStep t rules floor maxCols st (Z.of_nat n)) = Some p ->
     0 <= best (scanStep t rules floor maxCols st (Z.of_nat n)) /\
     depth p
     = Z.of_nat (length (openStackFrom inh t
          (Z.to_nat (best (scanStep t rules floor maxCols st (Z.of_nat n))))))).
Proof.
  intros Hn Hq Hcur Hbest.
  destruct (nth_error t n) as [c|] eqn:Hc;
    [|apply nth_error_None in Hc; lia].
  unfold scanStep. rewrite charAt_of_nat, Hc.
  unfold quoteInv in Hq.
  destruct (inStr st) eqn:Hin.
  - assert (Hquoted : quoted t n = true) by (unfold quoted; now rewrite Hq).
    destruct (Ascii.eqb c (strChar st)
              && ((Z.of_nat n =? 0)
                  || negb (charIs t (Z.of_nat n - 1) backslash)));
      cbn [cur best bestPs]; rewrite stack_quoted by assumption;
      split; assumption.
  - change (Ascii.eqb c dquote || Ascii.eqb c squote) with (isQuote c).
    destruct (isQuote c) eqn:Hnq.
    + cbn [cur best bestPs]. rewrite stack_quoted; [split; assumption|].
      unfold quoted. now rewrite Hq, Hc.
    + pose proof (ruleFold_depth n c (cur st) Hc Hq Hnq Hcur rules
                    (best st, bestPs st, lastSepPos st) rules_good
                    rules_strict Hbest) as F.
      destruct (fold_left
                  (ruleStep t floor maxCols (Z.of_nat n) (cur st)
                     (bracketStep (cur st) (Z.of_nat n) c)) rules
                  (best st, bestPs st, lastSepPos st)) as [[b' bps'] ls'].
      cbn [fst snd] in F. cbn [cur best bestPs]. split; [|exact F].
      now apply bracketStep_depth.
Qed.

Lemma scanUpTo_depth n :
  (n <= length t)%nat ->
  depth (cur (scanUpTo t rules floor maxCols init n))
  = Z.of_nat (length (openStackFrom inh t n)) /\
  (forall p, bestPs (scanUpTo t rules floor maxCols init n) = Some p ->
     0 <= best (scanUpTo t rules floor maxCols init n) /\
     depth p
     = Z.of_nat (length (openStackFrom inh t
          (Z.to_nat (best (scanUpTo t rules floor maxCols init n)))))).
Proof.
  induction n as [|n IH]; intros Hn.
  - split; [exact init_depth | discriminate].
  - rewrite scanUpTo_S. destruct IH as [I1 I2]; [lia|].
    apply scanStep_depth; try assumption.
    now destruct (scanUpTo_inv t rules floor maxCols init rules_good n
                    ltac:(lia)) as (Hq & _).
Qed.

End ScannerDepth.

Lemma scanChunk_depth t lang floor maxCols init inh r :
  depth init = Z.of_nat (length inh) ->
  scanChunk t lang floor maxCols init = Some r ->
  depth (ps r) = Z.of_nat (length (openStackFrom inh t (Z.to_nat (bp r)))).
Proof.
  intros Hd. unfold scanChunk.
  destruct (scanUpTo_depth t (rulesFor lang) floor maxCols init inh
              (rulesFor_good lang) (rulesFor_strict lang) Hd (length t)
              (Nat.le_refl _)) as [_ H].
  destruct (best _ <? 0); [discriminate|].
  destruct (bestPs _) as [p|]; [|discriminate].
  intros E. injection E as <-. simpl. now apply H.
Qed.

(** [scanChunk] by the offsets the rules propose. *)
Lemma scanChunk_cases (t lang : str) (floor maxCols : Z) (init : PS) :
  match scanChunk t lang floor maxCols init with
  | Some res =>
      (exists i r, In r (rulesFor lang) /\
         candidate t floor i r = Some (bp res)) /\
      bp res <= maxCols /\
      (forall i r c, In r (rulesFor lang) ->
         candidate t floor i r = Some c -> c <= maxCols -> c <= bp res) /\
      (hasArgSep res = true <->
       exists i r c, In r (rulesFor lang) /\ sep r = true /\
         candidate t floor i r = Some c /\ bp res <= c)
  | None =>
      forall i r c, In r (rulesFor lang) ->
        candidate t floor i r = Some c -> maxCols < c
  end.
Proof.
  destruct (scanUpTo_over t (rulesFor lang) floor maxCols init
              (rulesFor_good lang) (length t) (Nat.le_refl _))
    as [[B1 B2] [S1 S2]].
  pose proof (scan_best_ps t lang floor maxCols init) as Hps.
  unfold scanChunk. cbv zeta in Hps.
  set (st := scanUpTo t (rulesFor lang) floor maxCols init (length t)) in *.
  destruct (Z.ltb_spec (best st) 0) as [Hneg | Hpos].
  - intros i r c Hr Hc.
    destruct (Z_lt_le_dec maxCols c) as [|Hm]; [assumption|]. exfalso.
    destruct (candidate_range _ _ _ _ _ Hc) as [Hi H0].
    specialize (B2 i r c (conj Hi Hr) Hc Hm). lia.
  - destruct (bestPs st) as [p|]; [|now destruct (Hps Hpos)].
    simpl bp. simpl hasArgSep.
    destruct B1 as [B1 | (i & r & [K1 K1'] & K2 & K3)]; [lia|].
    split; [|split; [|split]].
    + exists i, r. now split.
    + exact K3.
    + intros i' r' c Hr Hc Hm.
      destruct (candidate_range _ _ _ _ _ Hc) as [Hi H0].
      exact (B2 i' r' c (conj Hi Hr) Hc Hm).
    + split.
      * intros Hle. apply Z.leb_le in Hle.
        destruct S1 as [S1 | (i' & r' & [L1 L1'] & L2 & L3)]; [lia|].
        exists i', r', (lastSepPos st). conjs; assumption.
      * intros (i' & r' & c & Hr & Hs & Hc & Hle). apply Z.leb_le.
        destruct (candidate_range _ _ _ _ _ Hc) as [Hi H0].
        specialize (S2 i' r' c (conj Hi Hr) Hs Hc). lia.
Qed.

(** ** Continuation indents, from the text *)

Lemma stack_no_open t : forall k,
  lastOpened t k = None -> openStackFrom [] t k = [].
Proof.
  induction k as [|k IH]; intros H; [reflexivity|].
  simpl in H |- *. destruct (openerAt t k); [discriminate|].
  rewrite (IH H). now destruct (closerAt t k).
Qed.

Lemma tryBreak_text cols budget lang indent fb s rem st inh inhLast :
  tryBreak cols budget lang indent fb s rem = Some st ->
  ps_ok s -> depth s = Z.of_nat (length inh) ->
  (0 < depth s -> col s = inhLast) ->
  0 <= indent -> 0 <= fb -> budget <= cols -> cols < 2 ^ 31 ->
  ps_ok (stepPs st) /\
  depth (stepPs st)
  = Z.of_nat (length (openStackFrom inh (chunkOf st)
                        (length (plain (before st))))) /\
  (0 < depth (stepPs st) ->
   col (stepPs st)
   = lastOpenedOr (chunkOf st) inhLast (length (plain (before st)))) /\
  (hd_error (openStackFrom inh (chunkOf st) (length (plain (before st))))
   = None \/
   hd_error (openStackFrom inh (chunkOf st) (length (plain (before st))))
   = Some (lastOpenedOr (chunkOf st) inhLast (length (plain (before st)))) ->
   indentFor cols indent fb
     (hd_error (openStackFrom inh (chunkOf st) (length (plain (before st)))))
     (match inh with [] => false | _ :: _ => true end)
     (sepFollows lang (chunkOf st) (Z.of_nat (length (plain (before st)))))
     (stepCi st)).
Proof.
  intros Htry Hok Hd Hcol Hind Hfb Hbud Hcols.
  destruct (tryBreak_chunk _ _ _ _ _ _ _ _ Htry) as (Hchunk & Hlen & _ & Hps).
  destruct (Hps Hok) as [Hok' Hlast].
  destruct (tryBreak_ci _ _ _ _ _ _ _ _ Htry Hok Hind Hfb Hbud Hcols)
    as (_ & _ & Eci).
  pose proof Htry as Hinv. apply tryBreak_inv in Hinv.
  destruct Hinv as (r & Hscan & _ & Hend & Hb & _ & Epsr & Esep & _).
  pose proof (scanChunk_good _ _ _ _ _ _ Hscan)
    as (Hfloor & Hrange & _ & _ & _).
  destruct (splitAt_plain rem (bp r) ltac:(lia)) as (Sb & _ & _).
  assert (Hk : length (plain (before st)) = Z.to_nat (bp r)).
  { rewrite Hb, Sb, length_firstn. unfold len in *. lia. }
  rewrite Hchunk in *. rewrite Hk in *.
  pose proof (scanChunk_depth _ _ _ _ _ inh _ Hd Hscan) as Hdepth.
  rewrite <- Epsr in Hdepth.
  set (stack := openStackFrom inh (plain rem) (Z.to_nat (bp r))) in *.
  assert (Hl : 0 < depth (stepPs st) ->
               col (stepPs st)
               = lastOpenedOr (plain rem) inhLast (Z.to_nat (bp r))).
  { intros Hpos. rewrite (Hlast Hpos). unfold lastOpenedOr.
    destruct (lastOpened (plain rem) (Z.to_nat (bp r))) as [j|] eqn:El;
      [reflexivity|].
    destruct (Z.ltb_spec 0 (depth s)) as [Hs | Hs]; [now apply Hcol|].
    exfalso. destruct inh as [|x inh]; [|simpl in Hd; lia].
    unfold stack in Hdepth. rewrite (stack_no_open _ _ El) in Hdepth.
    simpl in Hdepth. lia. }
  split; [exact Hok'|]. split; [exact Hdepth|]. split; [exact Hl|].
  intros Hhd.
  pose proof (scanChunk_cases (plain rem) lang
                (Z.max 0 (searchNonWhite (plain rem))) budget s) as Hcases.
  rewrite Hscan in Hcases. destruct Hcases as (_ & _ & _ & Hsep).
  rewrite <- Esep in Hsep.
  replace (Z.of_nat (Z.to_nat (bp r))) with (bp r) by lia.
  destruct stack as [|c stack'] eqn:Es; unfold indentFor; cbn [hd_error];
    cbn [hd_error] in Hhd; simpl length in Hdepth.
  - destruct (Z.ltb_spec 0 (depth (stepPs st))) as [Hp | Hp]; [lia|].
    rewrite Eci.
    destruct inh as [|x inh]; simpl in Hd.
    + destruct (Z.ltb_spec 0 (depth s)); [lia | reflexivity].
    + destruct (Z.ltb_spec 0 (depth s)); [reflexivity | lia].
  - destruct Hhd as [Hhd | Hhd]; [discriminate|]. injection Hhd as Hc.
    assert (Hpos : 0 < depth (stepPs st)) by lia.
    specialize (Hl Hpos). rewrite <- Hc in Hl.
    destruct (Z.ltb_spec 0 (depth (stepPs st))) as [Hp | Hp]; [|lia].
    rewrite Hl in Eci. unfold sepFollows. split.
    + intros Hf. apply Hsep in Hf. now rewrite Hf in Eci.
    + intros Hf. destruct (stepSep st); [|exact Eci].
      exfalso. apply Hf. now apply Hsep.
Qed.

Lemma chain_text cols budget lang indent fb s rem steps final :
  Chain cols budget lang indent fb s rem steps final ->
  forall inh inhLast,
  ps_ok s -> depth s = Z.of_nat (length inh) ->
  (0 < depth s -> col s = inhLast) ->
  0 <= indent -> 0 <= fb -> budget <= cols -> cols < 2 ^ 31 ->
  Forall (fun st => 0 <= stepCi st <= sar1 cols /\ 2 * stepCi st <= cols)
    steps /\
  indentsByText cols lang indent fb inh inhLast steps.
Proof.
  induction 1 as [|s rem st steps final Htry Hchain IH];
    intros inh inhLast Hok Hd Hcol Hind Hfb Hbud Hcols.
  - split; [constructor | exact I].
  - destruct (tryBreak_text _ _ _ _ _ _ _ _ inh inhLast Htry Hok Hd Hcol
                Hind Hfb Hbud Hcols) as (Hok' & Hd' & Hcol' & Hci).
    destruct (tryBreak_ci _ _ _ _ _ _ _ _ Htry Hok Hind Hfb Hbud Hcols)
      as (B1 & B2 & _).
    destruct (IH _ _ Hok' Hd' Hcol' Hind Hfb Hbud Hcols) as [I1 I2].
    split; [constructor; [split; assumption | exact I1]|].
    simpl. split; [exact Hci | exact I2].
Qed.

(** C3, as the code has it.  The continuation indent of every accepted
    break is between 0 and half the column count.  At a break that lies in
    an open bracket, that bracket being the one opened last before the
    break, it is the column of the bracket plus 1 under that cap when an
    argument separator is at or after the break, and the smaller of that and
    the default indent when none is.  At a break that lies in no open
    bracket it is, under the same cap, the indentation of the line when the
    break before lay in a bracket, and the default indent otherwise. *)
Theorem continuation_indent_bounds line cols lang steps final :
  cols < 2 ^ 31 ->
  breakSteps line cols lang = Some (steps, final) ->
  Forall (fun st => 0 <= stepCi st <= sar1 cols /\ 2 * stepCi st <= cols)
    steps /\
  indentsByText cols lang (leadingSpaces line)
    (defaultContIndent lang (plain line) (leadingSpaces line)) [] (-1) steps.
Proof.
  intros Hcols H. apply breakSteps_chain in H.
  pose proof (leadingSpaces_nonneg line) as Hind.
  eapply chain_text; try eassumption.
  - apply ps_ok_init.
  - reflexivity.
  - simpl. lia.
  - now apply defaultContIndent_nonneg.
  - apply budgetFor_le.
Qed.

Lemma continuation_indent_bounds_witness :
  let line := [mkSeg (lit "f(alpha, beta, gamma)") [] []] in
  let steps := [mkStep [mkSeg (lit "f(alpha, ") [] []]
                  [mkSeg (lit "beta, gamma)") [] []] (mkPS 1 1) true 2
                  [mkSeg (lit "  ") [] []; mkSeg (lit "beta, gamma)") [] []]] in
  Forall (fun st => 0 <= stepCi st <= sar1 14 /\ 2 * stepCi st <= 14) steps /\
  indentsByText 14 (lit "c") (leadingSpaces line)
    (defaultContIndent (lit "c") (plain line) (leadingSpaces line)) [] (-1)
    steps.
Proof.
  intros line steps.
  exact (continuation_indent_bounds line 14 (lit "c") steps
           [mkSeg (lit "  ") [] []; mkSeg (lit "beta, gamma)") [] []]
           ltac:(vm_compute; reflexivity) ltac:(vm_compute; reflexivity)).
Defined.

(** C3 as stated fails in two ways the code chooses.  The indent is capped
    at half the column count: at 20 columns the break after
    [long_function(a, b, ] lies in the bracket of column 13 and the indent
    is 10.  And a bracket with no argument separator at or after the break
    gets the default indent when that is smaller: at 30 columns the break
    before [ && beta_value)] lies in the bracket of column 14, half the
    column count is 15, and the indent is 4. *)
Lemma indent_below_bracket_column :
  (let line := [mkSeg (lit "long_function(a, b, c, d, e, f, g, h)") [] []] in
   exists st steps final,
     breakSteps line 20 (lit "c") = Some (st :: steps, final) /\
     plain (before st) = lit "long_function(a, b, " /\
     innermostOpen (chunkOf st) (len (plain (before st))) = Some 13 /\
     stepCi st = 10 /\
     ~ 13 + 1 <= stepCi st) /\
  (let line := [mkSeg (lit "some_long_call(alpha_value && beta_value)") [] []] in
   exists st steps final,
     breakSteps line 30 (lit "c") = Some (st :: steps, final) /\
     plain (before st) = lit "some_long_call(alpha_value" /\
     innermostOpen (chunkOf st) (len (plain (before st))) = Some 14 /\
     14 + 1 <= sar1 30 /\
     stepCi st = 4 /\
     ~ 14 + 1 <= stepCi st).
Proof.
  split; intros line; eexists; eexists; eexists;
    (split; [vm_compute; reflexivity|]);
    repeat split; try (vm_compute; reflexivity);
    vm_compute; intros H; try discriminate; now apply H.
Qed.

(** ** The column kept once an inner bracket has closed *)

(** C8.  The scanner keeps one column and no stack of open brackets: once
    an inner bracket has closed inside an outer one, the column stays that
    of the closed bracket.  After [f(a, g(b), ] the break lies in the
    bracket of column 1 and the state returned has column 6; at 20 columns,
    with a separator after the break and room for column 2, the
    continuation lines of [f(a, g(b), cccccccc, dddddddd)] are indented by
    7, under the closed bracket of [g(b)]. *)
Theorem bracket_column_stale :
  (let line := [mkSeg (lit "f(a, g(b), c, d)") [] []] in
   exists st steps final,
     breakSteps line 11 (lit "c") = Some (st :: steps, final) /\
     plain (before st) = lit "f(a, g(b), " /\
     openStack (chunkOf st) (length (plain (before st))) = [1] /\
     depth (stepPs st) = 1 /\
     col (stepPs st) = 6 /\
     innermostOpen (chunkOf st) (len (plain (before st)))
     <> Some (col (stepPs st))) /\
  (let line := [mkSeg (lit "f(a, g(b), cccccccc, dddddddd)") [] []] in
   exists st steps final,
     breakSteps line 20 (lit "c") = Some (st :: steps, final) /\
     plain (before st) = lit "f(a, g(b), " /\
     innermostOpen (chunkOf st) (len (plain (before st))) = Some 1 /\
     stepSep st = true /\
     1 + PAREN_OFFSET <= sar1 20 /\
     stepCi st = 7 /\
     map (fun s => plain (stepRem s)) (st :: steps)
     = [lit "       cccccccc, dddddddd)"; lit "       dddddddd)"]).
Proof.
  split; intros line; eexists; eexists; eexists;
    (split; [vm_compute; reflexivity|]);
    repeat split; try (vm_compute; reflexivity);
    vm_compute; intros H; try discriminate; now apply H.
Qed.

(** ** The last line of a chain *)

Lemma tryBreak_none cols budget lang indent fb s rem :
  tryBreak cols budget lang indent fb s rem = None ->
  len (plain rem) <= budget
  \/ (forall i r c, In r (rulesFor lang) ->
        candidate (plain rem) (Z.max 0 (searchNonWhite (plain rem))) i r
        = Some c -> budget < c)
  \/ (len (plain rem) = budget + 1 /\
      exists i r, In r (rulesFor lang) /\
        candidate (plain rem) (Z.max 0 (searchNonWhite (plain rem))) i r
        = Some budget).
Proof.
  unfold tryBreak. intros H.
  destruct (Z.leb_spec (len (plain rem)) budget) as [Hfit | Hover];
    [now left|].
  right.
  pose proof (scanChunk_cases (plain rem) lang
                (Z.max 0 (searchNonWhite (plain rem))) budget s) as Hcases.
  destruct (scanChunk (plain rem) lang (Z.max 0 (searchNonWhite (plain rem)))
              budget s) as [r|] eqn:Hscan; [|now left].
  right.
  destruct (Z.leb_spec (len (plain rem) - 1) (bp r)) as [Hend | Hin];
    [|discriminate].
  destruct Hcases as ((i & x & Hx & Hc) & Hmax & _).
  pose proof (scanChunk_good _ _ _ _ _ _ Hscan) as (_ & Hrange & _).
  assert (E : bp r = budget) by lia.
  split; [lia|]. exists i, x. split; [exact Hx|]. now rewrite <- E.
Qed.

Lemma breakTrace_last cols budget lang indent fb splits :
  forall s rem steps final,
    breakTrace splits cols budget lang indent fb s rem (len (plain rem))
      = (steps, final) ->
    len (plain final) <= budget
    \/ (forall i r c, In r (rulesFor lang) ->
          candidate (plain final) (Z.max 0 (searchNonWhite (plain final))) i r
          = Some c -> budget < c)
    \/ (len (plain final) = budget + 1 /\
        exists i r, In r (rulesFor lang) /\
          candidate (plain final) (Z.max 0 (searchNonWhite (plain final))) i r
          = Some budget)
    \/ length steps = splits
    \/ exists pre st,
         steps = pre ++ [st] /\ final = stepRem st /\
         len (chunkOf st) <= len (plain final).
Proof.
  induction splits as [|splits IH]; intros s rem steps final H; simpl in H.
  - injection H as <- <-. right. right. right. now left.
  - destruct (tryBreak cols budget lang indent fb s rem) as [st|] eqn:Htry.
    + destruct (tryBreak_chunk _ _ _ _ _ _ _ _ Htry) as (Hchunk & _).
      destruct (Z.leb_spec (len (plain rem)) (len (plain (stepRem st))))
        as [Hstuck | Hshort].
      * injection H as <- <-. right. right. right. right.
        exists [], st. rewrite Hchunk. now conjs.
      * destruct (breakTrace splits cols budget lang indent fb (stepPs st)
                    (stepRem st) (len (plain (stepRem st))))
          as [steps' final'] eqn:Hrec.
        injection H as <- <-.
        destruct (IH _ _ _ _ Hrec)
          as [Hfit | [Hnone | [Hone | [Hcap
                | (pre & st' & -> & Hf & Hlen)]]]].
        -- now left.
        -- right. now left.
        -- right. right. now left.
        -- right. right. right. left. simpl. now rewrite Hcap.
        -- right. right. right. right. exists (st :: pre), st'. now conjs.
    + injection H as <- <-.
      destruct (tryBreak_none _ _ _ _ _ _ _ Htry) as [Hfit | [Hnone | Hone]].
      * now left.
      * right. now left.
      * right. right. now left.
Qed.

(** C2, as the code has it.  Every emitted line that is followed by a
    break is not empty and at most the effective budget long before its
    continuation marker, hence at most the column count long with it.  The
    last line of the chain, which is the line itself when no break is
    made, is within the budget unless no rule proposes a break offset
    within the budget on it, or the offset proposed at the budget leaves one
    character after the break (the line is then one character over the
    budget), or 10 breaks have been made, or the last break did not shorten
    the text it was made in. *)
Theorem emitted_within_budget line cols lang steps final :
  breakSteps line cols lang = Some (steps, final) ->
  Forall (fun st =>
            0 < len (plain (before st)) <= budgetFor cols lang /\
            printable lang (before st) <= cols) steps /\
  lastLineBound lang (budgetFor cols lang) steps final.
Proof.
  intros H. split.
  - apply breakSteps_chain, chain_budget in H.
    eapply Forall_impl; [|exact H]. intros st Hst. cbv beta in Hst.
    split; [exact Hst|]. apply printable_budget. lia.
  - unfold breakSteps in H.
    destruct (len (plain line) <=? budgetFor cols lang); [discriminate|].
    unfold lastLineBound. cbv zeta.
    apply breakTrace_last
      with (cols := cols) (indent := leadingSpaces line)
           (fb := defaultContIndent lang (plain line) (leadingSpaces line))
           (s := mkPS 0 (-1)) (rem := line).
    congruence.
Qed.

Lemma emitted_within_budget_witness :
  let line := [mkSeg (lit "docker run --rm -v /data:/data") [] []] in
  let final := [mkSeg (lit "    ") [] []; mkSeg (lit "/data:/data") [] []] in
  let steps := [mkStep [mkSeg (lit "docker run --rm -v") [] []]
                  [mkSeg (lit " /data:/data") [] []] (mkPS 0 (-1)) true 4
                  final] in
  Forall (fun st =>
            0 < len (plain (before st)) <= budgetFor 20 (lit "bash") /\
            printable (lit "bash") (before st) <= 20) steps /\
  lastLineBound (lit "bash") (budgetFor 20 (lit "bash")) steps final.
Proof.
  intros line final steps.
  exact (emitted_within_budget line 20 (lit "bash") steps final
           ltac:(vm_compute; reflexivity)).
Defined.

(** C2 as stated fails in five ways the code chooses, on lines without a
    stretch between proposed breaks that is longer than the budget.  With
    a continuation marker, at 20 columns, the first emitted line of a
    [bash] line holds the 18 characters of the budget and is 20 long with
    its marker.  At 15 columns [aaa, bbb, ccc, d], of 16 characters, is
    left unbroken: the offset proposed at 15 leaves one character, and the
    offsets 5 and 10 are not gone back to.  At 8 columns a line of 20 items
    stops at 10 breaks with 29 characters left.  At 14 columns the break of
    [f(->xxxxxxxx)zzz] after [f(] leaves 16 characters, as many as before
    it, and the loop stops though a break is proposed at 12.  At 10 columns
    the continuation indent of 4 pushes the 10 characters of [bbbbbbbb, ]
    past the budget: no break is proposed within it on the last line, of 15
    characters. *)
Lemma lines_exceed_budget :
  (let line := [mkSeg (lit "docker run --rm -v /data:/data") [] []] in
   exists st steps final,
     breakSteps line 20 (lit "bash") = Some (st :: steps, final) /\
     budgetFor 20 (lit "bash") = 18 /\
     plain (before st) = lit "docker run --rm -v" /\
     printable (lit "bash") (before st) = 20 /\
     ~ printable (lit "bash") (before st) <= budgetFor 20 (lit "bash")) /\
  (let line := [mkSeg (lit "aaa, bbb, ccc, d") [] []] in
   breakSteps line 15 (lit "c") = Some ([], line) /\
   breakLine line 15 (lit "c") = None /\
   len (plain line) = 16 /\
   candidate (plain line) 0 3 (rule ", " After true) = Some 5 /\
   candidate (plain line) 0 8 (rule ", " After true) = Some 10 /\
   candidate (plain line) 0 13 (rule ", " After true) = Some 15 /\
   ~ len (plain line) <= budgetFor 15 (lit "c")) /\
  (let line := [mkSeg (lit "q, w, e, r, t, y, u, i, o, p, a, s, d, f, g, h, j, k, l, z") [] []] in
   exists steps final,
     breakSteps line 8 (lit "c") = Some (steps, final) /\
     length steps = MAX_SPLITS /\
     plain final = lit "    s, d, f, g, h, j, k, l, z" /\
     candidate (plain final) 4 5 (rule ", " After true) = Some 7 /\
     ~ len (plain final) <= budgetFor 8 (lit "c")) /\
  (let line := [mkSeg (lit "f(->xxxxxxxx)zzz") [] []] in
   exists st final,
     breakSteps line 14 (lit "c") = Some ([st], final) /\
     plain (before st) = lit "f(" /\
     plain final = lit "  ->xxxxxxxx)zzz" /\
     len (chunkOf st) <= len (plain final) /\
     candidate (plain final) 2 12 (rule ")" Before false) = Some 12 /\
     ~ len (plain final) <= budgetFor 14 (lit "c")) /\
  (let line := [mkSeg (lit "aaaaaa, bbbbbbbb, z") [] []] in
   exists st final,
     breakSteps line 10 (lit "c") = Some ([st], final) /\
     plain (before st) = lit "aaaaaa, " /\
     stepCi st = 4 /\
     plain final = lit "    bbbbbbbb, z" /\
     candidate (lit "bbbbbbbb, z") 0 8 (rule ", " After true) = Some 10 /\
     candidate (plain final) 4 12 (rule ", " After true) = Some 14 /\
     ~ len (plain final) <= budgetFor 10 (lit "c")).
Proof.
  split; [|split; [|split; [|split]]].
  - intros line. eexists. eexists. eexists.
    split; [vm_compute; reflexivity|].
    repeat split; try (vm_compute; reflexivity);
      vm_compute; intros H; first [discriminate | now apply H].
  - intros line. repeat split; try (vm_compute; reflexivity);
      vm_compute; intros H; first [discriminate | now apply H].
  - intros line. eexists. eexists.
    split; [vm_compute; reflexivity|].
    repeat split; try (vm_compute; reflexivity);
      vm_compute; intros H; first [discriminate | now apply H].
  - intros line. eexists. eexists.
    split; [vm_compute; reflexivity|].
    repeat split; try (vm_compute; reflexivity);
      vm_compute; intros H; first [discriminate | now apply H].
  - intros line. eexists. eexists.
    split; [vm_compute; reflexivity|].
    repeat split; try (vm_compute; reflexivity);
      vm_compute; intros H; first [discriminate | now apply H].
Qed.
